(** * Verification of the k-way log merge (solution/async-sorted-merge.js)

    The file embeds the two merge procedures of the repository:

    - the asynchronous engine (bounded read-ahead, one consumer loop), as a
      transition system whose steps are the callbacks the JavaScript event
      loop runs to completion: the continuation of a [popAsync] promise
      ([Settle]) and one call of [processNextLogEntry] or of the
      continuation it registered ([Turn]);
    - the synchronous baseline, as a loop over the same heap contract.

    The [heap] package is an external dependency.  Its contract is all the
    engine relies on: [push] adds an item, [pop] removes an item that the
    comparator ranks no later than any other item.  Which of several equally
    ranked items comes out is left to the schedule (the position argument of
    [Turn]), so every result below holds for every tie-break. *)

From stdpp Require Import base option list numbers strings sorting.
From Stdlib Require Import ZArith Lia Permutation Sorted.


(** ** Log entries and log sources *)

Record logEntry := LogEntry { date : Z; msg : string }.

(** A source hands out its entries front to back.  Once they are used up it
    either reports exhaustion ([popAsync] resolves with [false]) or its
    fetch fails (the promise rejects). *)
Inductive ending := Exhausts | Rejects.

Record logSource := LogSource { rest : list logEntry; fate : ending; polls : nat }.

(** What a [popAsync] promise settles with: an entry, [false], or a
    rejection. *)
Inductive outcome := Resolved (e : option logEntry) | Thrown.

Definition popAsync (s : logSource) : outcome * logSource :=
  match rest s with
  | e :: r => (Resolved (Some e), LogSource r (fate s) (S (polls s)))
  | [] =>
      (match fate s with Exhausts => Resolved None | Rejects => Thrown end,
       LogSource [] (fate s) (S (polls s)))
  end.

(** The blocking form used by the synchronous baseline. *)
Definition pop (s : logSource) : option logEntry * logSource :=
  match rest s with
  | e :: r => (Some e, LogSource r (fate s) (S (polls s)))
  | [] => (None, LogSource [] (fate s) (S (polls s)))
  end.

Definition fresh (es : list logEntry) (f : ending) : logSource := LogSource es f 0.

(** ** The output sink *)

Inductive sinkCall := PrintCall (e : logEntry) | DoneCall.

(** ** Engine state *)

(** The three places that call [popAsync]: the initial loop, [bufferLogs],
    and CASE 4 of [processNextLogEntry]. *)
Inductive origin := Initial | Prefetch | Direct.

(** An outstanding [popAsync] call.  [fid] is the poll number of the source
    at the time of the call and serves as the identity of the promise. *)
Record fetch := Fetch { fid : nat; via : origin; yields : outcome }.

(** The [sourceContext] object.  Its [source] field is the cell that owns
    it.  [entry] is [None] when JavaScript would hold [undefined]. *)
Record sourceContext := SourceContext {
  entry : option logEntry;
  drained : bool;
  bufferedEntries : list logEntry;
  nextEntryPromise : option nat
}.

(** Everything that belongs to one source: the source itself, its
    outstanding fetches, the context object once created, and the
    prefetch promises of this source that have rejected. *)
Record cell := Cell {
  src : logSource;
  inflight : list fetch;
  context : option sourceContext;
  rejected : list nat
}.

(** Where the consumer chain stands. *)
Inductive driver :=
| AwaitAll                      (* Promise.all(promises) not yet consumed *)
| Running                       (* processNextLogEntry is being called from
                                   within a callback; nothing else can run
                                   before it *)
| AwaitBuffered (i f : nat)     (* CASE 2: waiting on nextEntryPromise *)
| Resumed (i : nat)             (* CASE 2 continuation queued *)
| AwaitDirect (i : nat)         (* CASE 4: waiting on its own popAsync *)
| Finished                      (* done() called, the promise resolves *)
| Failed.                       (* the returned promise rejects *)

Record state := State {
  cells : list cell;
  heap : list nat;
  numLogEntriesBuffered : Z;
  control : driver;
  output : list sinkCall        (* most recent call first *)
}.

#[global] Instance origin_eq_dec : EqDecision origin.
Proof. solve_decision. Defined.
#[global] Instance driver_eq_dec : EqDecision driver.
Proof. solve_decision. Defined.

Definition MAX_LOG_ENTRY_BUFFER_SIZE : Z := 100000.

(** ** The heap contract *)

Definition compare (a b : logEntry) : Z := (date a - date b)%Z.

Definition headOf (cs : list cell) (i : nat) : option logEntry :=
  c ← cs !! i; x ← context c; entry x.

Definition earliest (cs : list cell) (a : logEntry) (h : list nat) : bool :=
  forallb (λ j, match headOf cs j with
                | Some b => (compare a b <=? 0)%Z
                | None => false
                end) h.

(** [heap.pop()], taking the item at position [k]; it has to be one the
    comparator puts first. *)
Definition heapPop (cs : list cell) (k : nat) (h : list nat) : option (nat * list nat) :=
  i ← h !! k;
  a ← headOf cs i;
  if earliest cs a h then Some (i, delete k h) else None.

Definition heapPush {A} (x : A) (h : list A) : list A := h ++ [x].

(** ** The engine, one callback at a time *)

Section Engine.

Variable ceiling : Z.

(** [bufferLogs(sourceContext)], on the counter and the owning cell. *)
Definition bufferLogs (n : Z) (c : cell) : Z * cell :=
  match context c with
  | None => (n, c)
  | Some x =>
      if (n =? ceiling)%Z then (n, c)
      else if drained x then (n, c)
      else match nextEntryPromise x with
           | Some _ => (n, c)
           | None =>
               let '(r, s') := popAsync (src c) in
               let f := polls (src c) in
               ((n + 1)%Z,
                Cell s' (inflight c ++ [Fetch f Prefetch r])
                     (Some (SourceContext (entry x) (drained x) (bufferedEntries x) (Some f)))
                     (rejected c))
           end
  end.

(** [getNextEntry()]: [shift] on an empty array yields [undefined]. *)
Definition getNextEntry (n : Z) (c : cell) : option (Z * cell) :=
  x ← context c;
  let x' := SourceContext (head (bufferedEntries x)) (drained x)
                          (tail (bufferedEntries x)) (nextEntryPromise x) in
  Some (bufferLogs (n - 1)%Z (Cell (src c) (inflight c) (Some x') (rejected c))).

Definition takeFetch (f : nat) (l : list fetch) : option (fetch * list fetch) :=
  k ← list_find (λ t, fid t = f) l;
  Some (k.2, delete k.1 l).

Definition allInitialSettled (cs : list cell) : bool :=
  forallb (λ c, forallb (λ t, bool_decide (via t ≠ Initial)) (inflight c)) cs.

(** Continuation of an initial fetch (lines 48-61). *)
Definition onInitial (i : nat) (t : fetch) (c : cell) (s : state) : option state :=
  match yields t with
  | Thrown =>
      Some (State (<[i:=c]> (cells s)) (heap s) (numLogEntriesBuffered s)
                  (match control s with AwaitAll => Failed | d => d end) (output s))
  | Resolved None =>
      Some (State (<[i:=c]> (cells s)) (heap s) (numLogEntriesBuffered s)
                  (control s) (output s))
  | Resolved (Some e) =>
      let c1 := Cell (src c) (inflight c)
                     (Some (SourceContext (Some e) false [] None)) (rejected c) in
      let '(n', c2) := bufferLogs (numLogEntriesBuffered s) c1 in
      Some (State (<[i:=c2]> (cells s)) (heapPush i (heap s)) n' (control s) (output s))
  end.

(** Continuation of a fetch issued by [bufferLogs] (lines 34-42), and the
    settling of the promise stored in [nextEntryPromise]. *)
Definition onPrefetch (i : nat) (t : fetch) (c : cell) (s : state) : option state :=
  x ← context c;
  match yields t with
  | Thrown =>
      let c1 := Cell (src c) (inflight c) (context c) (fid t :: rejected c) in
      Some (State (<[i:=c1]> (cells s)) (heap s) (numLogEntriesBuffered s)
                  (if decide (control s = AwaitBuffered i (fid t)) then Failed else control s)
                  (output s))
  | Resolved r =>
      let x1 := match r with
                | Some e => SourceContext (entry x) (drained x) (bufferedEntries x ++ [e]) None
                | None => SourceContext (entry x) true (bufferedEntries x) None
                end in
      let '(n', c2) := bufferLogs (numLogEntriesBuffered s)
                                  (Cell (src c) (inflight c) (Some x1) (rejected c)) in
      Some (State (<[i:=c2]> (cells s)) (heap s) n'
                  (if decide (control s = AwaitBuffered i (fid t)) then Resumed i else control s)
                  (output s))
  end.

(** Continuation of the CASE 4 fetch (lines 102-111). *)
Definition onDirect (i : nat) (t : fetch) (c : cell) (s : state) : option state :=
  x ← context c;
  if decide (control s = AwaitDirect i) then
    match yields t with
    | Thrown =>
        Some (State (<[i:=c]> (cells s)) (heap s) (numLogEntriesBuffered s) Failed (output s))
    | Resolved None =>
        Some (State (<[i:=c]> (cells s)) (heap s) (numLogEntriesBuffered s)
                    Running (output s))
    | Resolved (Some e) =>
        let x1 := SourceContext (Some e) (drained x) (bufferedEntries x) (nextEntryPromise x) in
        let '(n', c2) := bufferLogs (numLogEntriesBuffered s)
                                    (Cell (src c) (inflight c) (Some x1) (rejected c)) in
        Some (State (<[i:=c2]> (cells s)) (heapPush i (heap s)) n' Running (output s))
    end
  else None.

Definition settle (i f : nat) (s : state) : option state :=
  if decide (control s = Running) then None else
  c ← cells s !! i;
  p ← takeFetch f (inflight c);
  let c0 := Cell (src c) p.2 (context c) (rejected c) in
  match via p.1 with
  | Initial => onInitial i p.1 c0 s
  | Prefetch => onPrefetch i p.1 c0 s
  | Direct => onDirect i p.1 c0 s
  end.

(** The tail of [processNextLogEntry] after [heap.pop()] and
    [printer.print]: the four cases, on the popped context. *)
Definition refill (i : nat) (c : cell) (x : sourceContext) (h : list nat)
    (o : list sinkCall) (s : state) : option state :=
  match bufferedEntries x with
  | _ :: _ =>
      (* CASE 1 *)
      p ← getNextEntry (numLogEntriesBuffered s) c;
      Some (State (<[i:=p.2]> (cells s)) (heapPush i h) p.1 Running o)
  | [] =>
      match nextEntryPromise x with
      | Some f =>
          (* CASE 2 *)
          Some (State (cells s) h (numLogEntriesBuffered s)
                      (if bool_decide (f ∈ rejected c) then Failed else AwaitBuffered i f) o)
      | None =>
          if drained x then
            (* CASE 3 *)
            Some (State (cells s) h (numLogEntriesBuffered s) Running o)
          else
            (* CASE 4 *)
            let '(r, s') := popAsync (src c) in
            let c' := Cell s' (inflight c ++ [Fetch (polls (src c)) Direct r])
                           (context c) (rejected c) in
            Some (State (<[i:=c']> (cells s)) h (numLogEntriesBuffered s) (AwaitDirect i) o)
      end
  end.

Definition processNextLogEntry (k : nat) (s : state) : option state :=
  match heap s with
  | [] => Some (State (cells s) [] (numLogEntriesBuffered s) Finished (DoneCall :: output s))
  | _ :: _ =>
      p ← heapPop (cells s) k (heap s);
      c ← cells s !! p.1;
      x ← context c;
      e ← entry x;
      refill p.1 c x p.2 (PrintCall e :: output s) s
  end.

(** The continuation registered in CASE 2 (lines 89-95). *)
Definition onResume (i : nat) (s : state) : option state :=
  c ← cells s !! i;
  x ← context c;
  match bufferedEntries x, drained x with
  | [], true =>
      Some (State (cells s) (heap s) (numLogEntriesBuffered s) Running (output s))
  | _, _ =>
      p ← getNextEntry (numLogEntriesBuffered s) c;
      Some (State (<[i:=p.2]> (cells s)) (heapPush i (heap s)) p.1 Running (output s))
  end.

Definition turn (k : nat) (s : state) : option state :=
  match control s with
  | AwaitAll => if allInitialSettled (cells s) then processNextLogEntry k s else None
  | Running => processNextLogEntry k s
  | Resumed i => onResume i s
  | _ => None
  end.

Inductive event := Settle (i f : nat) | Turn (k : nat).

Definition step (ev : event) (s : state) : option state :=
  match ev with
  | Settle i f => settle i f s
  | Turn k => turn k s
  end.

Fixpoint run (evs : list event) (s : state) : option state :=
  match evs with
  | [] => Some s
  | ev :: evs' => s' ← step ev s; run evs' s'
  end.

End Engine.

(** The synchronous part of the exported function: one [popAsync] per
    source, then [Promise.all(promises).then(processNextLogEntry)]. *)
Definition firstFetch (s : logSource) : cell :=
  let '(r, s') := popAsync s in Cell s' [Fetch (polls s) Initial r] None [].

Definition start (logSources : list logSource) : state :=
  State (firstFetch <$> logSources) [] 0 AwaitAll [].

Definition emitted (s : state) : list sinkCall := reverse (output s).

Fixpoint prints (l : list sinkCall) : list logEntry :=
  match l with
  | [] => []
  | PrintCall e :: l' => e :: prints l'
  | DoneCall :: l' => prints l'
  end.

Definition at_ (d : Z) : logEntry := LogEntry d EmptyString.

(** ** The synchronous baseline *)

Module Sync.

(** A heap item: the object with fields [source] and [entry] pushed by the
    baseline.  The source is named by its position in [logSources]. *)
Record item := Item { source : nat; entry : logEntry }.

Record state := State {
  sources : list logSource;
  heap : list item;
  output : list sinkCall          (* most recent call first *)
}.

Definition earliest (a : logEntry) (h : list item) : bool :=
  forallb (λ b, (compare a (entry b) <=? 0)%Z) h.

(** [heap.pop()], as for the asynchronous engine. *)
Definition heapPop (k : nat) (h : list item) : option (item * list item) :=
  it ← h !! k;
  if earliest (entry it) h then Some (it, delete k h) else None.

(** One round of the first loop (lines 128-136): read the first entry of
    source [i]. *)
Definition readFirst (st : state) (i : nat) : state :=
  match sources st !! i with
  | Some s =>
      let '(r, s') := pop s in
      State (<[i:=s']> (sources st))
            (match r with Some e => heapPush (Item i e) (heap st) | None => heap st end)
            (output st)
  | None => st
  end.

Definition begin (logSources : list logSource) : state :=
  foldl readFirst (State logSources [] []) (seq 0 (length logSources)).

(** One round of the [while] loop (lines 139-147). *)
Definition iterate (k : nat) (st : state) : option state :=
  p ← heapPop k (heap st);
  s ← sources st !! source p.1;
  let '(r, s') := pop s in
  Some (State (<[source p.1:=s']> (sources st))
              (match r with
               | Some e => heapPush (Item (source p.1) e) p.2
               | None => p.2
               end)
              (PrintCall (entry p.1) :: output st)).

(** The [while] loop and [printer.done()].  [ks] gives the heap position
    taken at each round. *)
Fixpoint loop (ks : list nat) (st : state) : option state :=
  match heap st with
  | [] => Some (State (sources st) [] (DoneCall :: output st))
  | _ :: _ =>
      match ks with
      | [] => None
      | k :: ks' => st' ← iterate k st; loop ks' st'
      end
  end.

Definition merge (ks : list nat) (logSources : list logSource) : option (list sinkCall) :=
  st ← loop ks (begin logSources); Some (reverse (output st)).

End Sync.

(** * The steps, case by case

    [moves] lists what one enabled event does: which cell it rewrites and
    how the heap, the counter, the driver and the output change.  Every
    invariant below is proved over these cases. *)

Section Moves.

Variable ceiling : Z.

Definition unsettled (c : cell) (l : list fetch) : cell :=
  Cell (src c) l (context c) (rejected c).

Definition withContext (c : cell) (x : sourceContext) : cell :=
  Cell (src c) (inflight c) (Some x) (rejected c).

Definition shifted (x : sourceContext) : sourceContext :=
  SourceContext (head (bufferedEntries x)) (drained x)
                (tail (bufferedEntries x)) (nextEntryPromise x).

Definition received (x : sourceContext) (r : option logEntry) : sourceContext :=
  match r with
  | Some e => SourceContext (entry x) (drained x) (bufferedEntries x ++ [e]) None
  | None => SourceContext (entry x) true (bufferedEntries x) None
  end.

Definition mayTurn (s : state) : Prop :=
  (control s = AwaitAll ∧ allInitialSettled (cells s) = true) ∨ control s = Running.

Inductive moves (s : state) : state → Prop :=
| initial_thrown i f c t l :
    control s ≠ Running → cells s !! i = Some c →
    takeFetch f (inflight c) = Some (t, l) → via t = Initial → yields t = Thrown →
    moves s (State (<[i:=unsettled c l]> (cells s)) (heap s) (numLogEntriesBuffered s)
                   (match control s with AwaitAll => Failed | d => d end) (output s))
| initial_empty i f c t l :
    control s ≠ Running → cells s !! i = Some c →
    takeFetch f (inflight c) = Some (t, l) → via t = Initial → yields t = Resolved None →
    moves s (State (<[i:=unsettled c l]> (cells s)) (heap s) (numLogEntriesBuffered s)
                   (control s) (output s))
| initial_entry i f c t l e n' c' :
    control s ≠ Running → cells s !! i = Some c →
    takeFetch f (inflight c) = Some (t, l) → via t = Initial →
    yields t = Resolved (Some e) →
    bufferLogs ceiling (numLogEntriesBuffered s)
      (withContext (unsettled c l) (SourceContext (Some e) false [] None)) = (n', c') →
    moves s (State (<[i:=c']> (cells s)) (heapPush i (heap s)) n' (control s) (output s))
| prefetch_thrown i f c t l x :
    control s ≠ Running → cells s !! i = Some c →
    takeFetch f (inflight c) = Some (t, l) → via t = Prefetch → yields t = Thrown →
    context c = Some x →
    moves s (State (<[i:=Cell (src c) l (context c) (fid t :: rejected c)]> (cells s))
                   (heap s) (numLogEntriesBuffered s)
                   (if decide (control s = AwaitBuffered i (fid t)) then Failed else control s)
                   (output s))
| prefetch_resolved i f c t l x r n' c' :
    control s ≠ Running → cells s !! i = Some c →
    takeFetch f (inflight c) = Some (t, l) → via t = Prefetch → yields t = Resolved r →
    context c = Some x →
    bufferLogs ceiling (numLogEntriesBuffered s)
      (withContext (unsettled c l) (received x r)) = (n', c') →
    moves s (State (<[i:=c']> (cells s)) (heap s) n'
                   (if decide (control s = AwaitBuffered i (fid t)) then Resumed i else control s)
                   (output s))
| direct_thrown i f c t l x :
    control s = AwaitDirect i → cells s !! i = Some c →
    takeFetch f (inflight c) = Some (t, l) → via t = Direct → yields t = Thrown →
    context c = Some x →
    moves s (State (<[i:=unsettled c l]> (cells s)) (heap s) (numLogEntriesBuffered s)
                   Failed (output s))
| direct_empty i f c t l x :
    control s = AwaitDirect i → cells s !! i = Some c →
    takeFetch f (inflight c) = Some (t, l) → via t = Direct → yields t = Resolved None →
    context c = Some x →
    moves s (State (<[i:=unsettled c l]> (cells s)) (heap s) (numLogEntriesBuffered s)
                   Running (output s))
| direct_entry i f c t l x e n' c' :
    control s = AwaitDirect i → cells s !! i = Some c →
    takeFetch f (inflight c) = Some (t, l) → via t = Direct →
    yields t = Resolved (Some e) → context c = Some x →
    bufferLogs ceiling (numLogEntriesBuffered s)
      (withContext (unsettled c l)
         (SourceContext (Some e) (drained x) (bufferedEntries x) (nextEntryPromise x)))
      = (n', c') →
    moves s (State (<[i:=c']> (cells s)) (heapPush i (heap s)) n' Running (output s))
| all_done :
    mayTurn s → heap s = [] →
    moves s (State (cells s) [] (numLogEntriesBuffered s) Finished (DoneCall :: output s))
| case_buffered k i c x e b bs n' c' :
    mayTurn s → heapPop (cells s) k (heap s) = Some (i, delete k (heap s)) →
    cells s !! i = Some c → context c = Some x → entry x = Some e →
    bufferedEntries x = b :: bs →
    bufferLogs ceiling (numLogEntriesBuffered s - 1) (withContext c (shifted x)) = (n', c') →
    moves s (State (<[i:=c']> (cells s)) (heapPush i (delete k (heap s))) n' Running
                   (PrintCall e :: output s))
| case_in_flight k i c x e f :
    mayTurn s → heapPop (cells s) k (heap s) = Some (i, delete k (heap s)) →
    cells s !! i = Some c → context c = Some x → entry x = Some e →
    bufferedEntries x = [] → nextEntryPromise x = Some f →
    moves s (State (cells s) (delete k (heap s)) (numLogEntriesBuffered s)
                   (if bool_decide (f ∈ rejected c) then Failed else AwaitBuffered i f)
                   (PrintCall e :: output s))
| case_drained k i c x e :
    mayTurn s → heapPop (cells s) k (heap s) = Some (i, delete k (heap s)) →
    cells s !! i = Some c → context c = Some x → entry x = Some e →
    bufferedEntries x = [] → nextEntryPromise x = None → drained x = true →
    moves s (State (cells s) (delete k (heap s)) (numLogEntriesBuffered s) Running
                   (PrintCall e :: output s))
| case_fetch k i c x e r s' :
    mayTurn s → heapPop (cells s) k (heap s) = Some (i, delete k (heap s)) →
    cells s !! i = Some c → context c = Some x → entry x = Some e →
    bufferedEntries x = [] → nextEntryPromise x = None → drained x = false →
    popAsync (src c) = (r, s') →
    moves s (State (<[i:=Cell s' (inflight c ++ [Fetch (polls (src c)) Direct r])
                              (context c) (rejected c)]> (cells s))
                   (delete k (heap s)) (numLogEntriesBuffered s) (AwaitDirect i)
                   (PrintCall e :: output s))
| resume_discard i c x :
    control s = Resumed i → cells s !! i = Some c → context c = Some x →
    bufferedEntries x = [] → drained x = true →
    moves s (State (cells s) (heap s) (numLogEntriesBuffered s) Running (output s))
| resume_next i c x n' c' :
    control s = Resumed i → cells s !! i = Some c → context c = Some x →
    ¬ (bufferedEntries x = [] ∧ drained x = true) →
    bufferLogs ceiling (numLogEntriesBuffered s - 1) (withContext c (shifted x)) = (n', c') →
    moves s (State (<[i:=c']> (cells s)) (heapPush i (heap s)) n' Running (output s)).

Lemma heapPop_Some cs k h i h' :
  heapPop cs k h = Some (i, h') →
  h !! k = Some i ∧ h' = delete k h ∧
  ∃ a, headOf cs i = Some a ∧ earliest cs a h = true.
Proof.
  unfold heapPop. intros H.
  destruct (h !! k) as [j|] eqn:Hk; simpl in H; [|done].
  destruct (headOf cs j) as [a|] eqn:Ha; simpl in H; [|done].
  destruct (earliest cs a h) eqn:He; [|done].
  injection H as <- <-. eauto.
Qed.

Lemma settle_moves i f s s' : settle ceiling i f s = Some s' → moves s s'.
Proof.
  unfold settle. intros H.
  destruct (decide (control s = Running)) as [|Hc]; [done|].
  destruct (cells s !! i) as [c|] eqn:Hi; simpl in H; [|done].
  destruct (takeFetch f (inflight c)) as [[t l]|] eqn:Ht; simpl in H; [|done].
  destruct (via t) eqn:Hv.
  - unfold onInitial in H. destruct (yields t) as [[e|]|] eqn:Hy.
    + destruct (bufferLogs _ _ _) as [n' c'] eqn:Hb. injection H as <-.
      by eapply initial_entry.
    + injection H as <-. by eapply initial_empty.
    + injection H as <-. by eapply initial_thrown.
  - unfold onPrefetch in H. simpl in H.
    destruct (context c) as [x|] eqn:Hx; simpl in H; [|done].
    destruct (yields t) as [r|] eqn:Hy.
    + destruct (bufferLogs _ _ _) as [n' c'] eqn:Hb. injection H as <-.
      eapply prefetch_resolved; eauto.
    + injection H as <-. rewrite <-Hx. by eapply prefetch_thrown.
  - unfold onDirect in H. simpl in H.
    destruct (context c) as [x|] eqn:Hx; simpl in H; [|done].
    destruct (decide (control s = AwaitDirect i)) as [Hd|]; [|done].
    destruct (yields t) as [[e|]|] eqn:Hy.
    + destruct (bufferLogs _ _ _) as [n' c'] eqn:Hb. injection H as <-.
      eapply direct_entry; eauto.
    + injection H as <-. rewrite <-Hx. eapply direct_empty; eauto.
    + injection H as <-. rewrite <-Hx. eapply direct_thrown; eauto.
Qed.

Lemma processNextLogEntry_moves k s s' :
  mayTurn s → processNextLogEntry ceiling k s = Some s' → moves s s'.
Proof.
  unfold processNextLogEntry. intros Hm H.
  destruct (heap s) as [|j h] eqn:Hh.
  { injection H as <-. by apply all_done. }
  rewrite <-Hh in *.
  destruct (heapPop (cells s) k (heap s)) as [[i h']|] eqn:Hp; simpl in H; [|done].
  destruct (heapPop_Some _ _ _ _ _ Hp) as (_ & -> & _).
  destruct (cells s !! i) as [c|] eqn:Hi; simpl in H; [|done].
  destruct (context c) as [x|] eqn:Hx; simpl in H; [|done].
  destruct (entry x) as [e|] eqn:He; simpl in H; [|done].
  unfold refill in H.
  destruct (bufferedEntries x) as [|b bs] eqn:Hb.
  - destruct (nextEntryPromise x) as [f|] eqn:Hn.
    + injection H as <-. by eapply case_in_flight.
    + destruct (drained x) eqn:Hd.
      * injection H as <-. by eapply case_drained.
      * destruct (popAsync (src c)) as [r s1] eqn:Hq. injection H as <-.
        by eapply case_fetch.
  - unfold getNextEntry in H. rewrite Hx in H. simpl in H.
    injection H as <-.
    eapply case_buffered; eauto. apply surjective_pairing.
Qed.

Lemma onResume_moves i s s' :
  control s = Resumed i → onResume ceiling i s = Some s' → moves s s'.
Proof.
  unfold onResume. intros Hc H.
  destruct (cells s !! i) as [c|] eqn:Hi; simpl in H; [|done].
  destruct (context c) as [x|] eqn:Hx; simpl in H; [|done].
  assert (Hnext : (getNextEntry ceiling (numLogEntriesBuffered s) c ≫= λ p,
            Some (State (<[i:=p.2]> (cells s)) (heapPush i (heap s)) p.1 Running (output s)))
            = Some s' → ¬ (bufferedEntries x = [] ∧ drained x = true) → moves s s').
  { unfold getNextEntry. rewrite Hx. simpl. intros [= <-] Hn.
    eapply resume_next; eauto. apply surjective_pairing. }
  destruct (bufferedEntries x) as [|b bs] eqn:Hb.
  - destruct (drained x) eqn:Hd.
    + injection H as <-. by eapply resume_discard.
    + apply Hnext; [done|]. by intros [_ ?].
  - apply Hnext; [done|]. by intros [? _].
Qed.

Lemma step_moves ev s s' : step ceiling ev s = Some s' → moves s s'.
Proof.
  destruct ev as [i f|k]; simpl.
  - apply settle_moves.
  - unfold turn. destruct (control s) eqn:Hc; try done.
    + destruct (allInitialSettled (cells s)) eqn:Ha; [|done].
      apply processNextLogEntry_moves. by left.
    + apply processNextLogEntry_moves. by right.
    + by apply onResume_moves.
Qed.

End Moves.

(** * Counting invariants: the buffer counter, the fetches in flight *)

Lemma sum_list_with_insert {A} (f : A → nat) (l : list A) i x y :
  l !! i = Some x →
  sum_list_with f (<[i:=y]> l) + f x = sum_list_with f l + f y.
Proof.
  revert i. induction l as [|a l IH]; intros [|i] H; simplify_eq/=; [lia|].
  specialize (IH _ H). lia.
Qed.

Lemma sum_list_with_lookup_le {A} (f : A → nat) (l : list A) i x :
  l !! i = Some x → f x ≤ sum_list_with f l.
Proof.
  revert i. induction l as [|a l IH]; intros [|i] H; simplify_eq/=; [lia|].
  specialize (IH _ H). lia.
Qed.

Lemma sum_list_with_le {A} (f g : A → nat) (l : list A) :
  (∀ x, x ∈ l → f x ≤ g x) → sum_list_with f l ≤ sum_list_with g l.
Proof.
  induction l as [|a l IH]; intros H; simpl; [lia|].
  pose proof (H a (list_elem_of_here _ _)).
  assert (sum_list_with f l ≤ sum_list_with g l).
  { apply IH. intros x Hx. apply H. by apply list_elem_of_further. }
  lia.
Qed.

(** Entries sitting in the read-ahead buffer of a cell. *)
Definition buffered (c : cell) : nat :=
  match context c with Some x => length (bufferedEntries x) | None => 0 end.

(** Fetches issued by [bufferLogs] and not yet settled. *)
Definition prefetching (c : cell) : nat :=
  length (filter (λ t, via t = Prefetch) (inflight c)).

(** Increments of the counter that no later decrement matches: a prefetch
    that came back with the exhaustion signal, or that failed. *)
Definition leaked (c : cell) : nat :=
  match context c with Some x => if drained x then 1 else 0 | None => 0 end
  + length (rejected c).

Definition credit (c : cell) : nat := buffered c + prefetching c + leaked c.

Definition totalBuffered (s : state) : nat := sum_list_with buffered (cells s).

(** Shape of a cell: which fetch can be in flight, given the context. *)
Definition cell_ok (c : cell) : Prop :=
  match context c with
  | None => inflight c = [] ∨ ∃ t, inflight c = [t] ∧ via t = Initial
  | Some x =>
      match nextEntryPromise x with
      | None => inflight c = [] ∨ ∃ t, inflight c = [t] ∧ via t = Direct
      | Some f =>
          drained x = false ∧
          ((∃ r, inflight c = [Fetch f Prefetch r]) ∨ (inflight c = [] ∧ f ∈ rejected c))
      end
  end.

Lemma cell_ok_single c : cell_ok c → length (inflight c) ≤ 1.
Proof.
  unfold cell_ok. intros H.
  destruct (context c) as [x|]; [destruct (nextEntryPromise x)|];
    destruct_and?; destruct_or?; repeat match goal with H : ∃ _, _ |- _ => destruct H end;
    destruct_and?; match goal with H : inflight c = _ |- _ => rewrite H end; simpl; lia.
Qed.

Lemma takeFetch_Some f l t l' :
  takeFetch f l = Some (t, l') →
  fid t = f ∧ ∃ k, l !! k = Some t ∧ l' = delete k l.
Proof.
  unfold takeFetch. intros H.
  destruct (list_find _ l) as [[k t']|] eqn:Hf; simplify_eq/=.
  apply list_find_Some in Hf as (? & ? & _). eauto.
Qed.

Lemma takeFetch_single c f t l :
  cell_ok c → takeFetch f (inflight c) = Some (t, l) →
  inflight c = [t] ∧ l = [] ∧ fid t = f.
Proof.
  intros Hok H. apply takeFetch_Some in H as (Hf & k & Hk & ->).
  pose proof (cell_ok_single _ Hok) as Hlen.
  destruct (inflight c) as [|t' [|]] eqn:Hin; simpl in Hlen; [done| |lia].
  destruct k; simplify_eq/=. done.
Qed.

Lemma bufferLogs_cases ceiling n c n' c' :
  bufferLogs ceiling n c = (n', c') →
  (n' = n ∧ c' = c) ∨
  (∃ x r s', context c = Some x ∧ n ≠ ceiling ∧ drained x = false ∧
     nextEntryPromise x = None ∧ popAsync (src c) = (r, s') ∧ n' = (n + 1)%Z ∧
     c' = Cell s' (inflight c ++ [Fetch (polls (src c)) Prefetch r])
            (Some (SourceContext (entry x) false (bufferedEntries x) (Some (polls (src c)))))
            (rejected c)).
Proof.
  unfold bufferLogs. intros H.
  destruct (context c) as [x|] eqn:Hx; [|left; by simplify_eq].
  destruct (Z.eqb_spec n ceiling); [left; by simplify_eq|].
  destruct (drained x) eqn:Hd; [left; by simplify_eq|].
  destruct (nextEntryPromise x) eqn:Hn; [left; by simplify_eq|].
  destruct (popAsync (src c)) as [r s'] eqn:Hp.
  right. exists x, r, s'. by simplify_eq.
Qed.

Section Counting.

Variable ceiling : Z.
Hypothesis ceiling_nonneg : (0 ≤ ceiling)%Z.

Record counted (s : state) : Prop := Counted {
  counted_cells : ∀ i c, cells s !! i = Some c → cell_ok c;
  counted_sum : numLogEntriesBuffered s = Z.of_nat (sum_list_with credit (cells s));
  counted_cap : (numLogEntriesBuffered s ≤ ceiling)%Z;
  counted_direct : ∀ i c t,
    cells s !! i = Some c → t ∈ inflight c → via t = Direct → control s = AwaitDirect i;
  counted_resumed : ∀ i,
    control s = Resumed i →
    ∃ c x, cells s !! i = Some c ∧ context c = Some x ∧
           (bufferedEntries x ≠ [] ∨ drained x = true)
}.

Lemma cell_ok_initial c t :
  cell_ok c → inflight c = [t] → via t = Initial → context c = None.
Proof.
  unfold cell_ok. intros H Hin Hv.
  destruct (context c) as [x|]; [|done].
  destruct (nextEntryPromise x); rewrite Hin in H;
    [destruct H as [_ [[r ?]|[? _]]]|destruct H as [?|[t' [? ?]]]]; simplify_eq/=; congruence.
Qed.

Lemma cell_ok_prefetch c t :
  cell_ok c → inflight c = [t] → via t = Prefetch →
  ∃ x, context c = Some x ∧ nextEntryPromise x = Some (fid t) ∧ drained x = false.
Proof.
  unfold cell_ok. intros H Hin Hv.
  destruct (context c) as [x|]; rewrite Hin in H.
  - exists x. destruct (nextEntryPromise x).
    + destruct H as [? [[r ?]|[? _]]]; simplify_eq/=. done.
    + destruct H as [?|[t' [? ?]]]; simplify_eq/=; congruence.
  - destruct H as [?|[t' [? ?]]]; simplify_eq/=; congruence.
Qed.

Lemma cell_ok_direct c t :
  cell_ok c → inflight c = [t] → via t = Direct →
  ∃ x, context c = Some x ∧ nextEntryPromise x = None.
Proof.
  unfold cell_ok. intros H Hin Hv.
  destruct (context c) as [x|]; rewrite Hin in H.
  - exists x. destruct (nextEntryPromise x); [|done].
    destruct H as [? [[r ?]|[? _]]]; simplify_eq/=.
  - destruct H as [?|[t' [? ?]]]; simplify_eq/=; congruence.
Qed.

(** A cell with no CASE 4 fetch in flight and no promise has nothing in
    flight. *)
Lemma cell_ok_idle c x :
  cell_ok c → context c = Some x → nextEntryPromise x = None →
  (∀ t, t ∈ inflight c → via t ≠ Direct) → inflight c = [].
Proof.
  unfold cell_ok. intros H Hx Hn Hd. rewrite Hx, Hn in H.
  destruct H as [?|[t [Hin ?]]]; [done|].
  destruct (Hd t); [|done]. rewrite Hin. apply list_elem_of_here.
Qed.

(** What [bufferLogs] preserves, for a cell with no CASE 4 fetch in flight. *)
Lemma bufferLogs_counted n c n' c' :
  bufferLogs ceiling n c = (n', c') →
  cell_ok c → (∀ t, t ∈ inflight c → via t ≠ Direct) → (n ≤ ceiling)%Z →
  cell_ok c' ∧ (n' - n = Z.of_nat (credit c') - Z.of_nat (credit c))%Z ∧ (n' ≤ ceiling)%Z ∧
  (∀ t, t ∈ inflight c' → via t ≠ Direct) ∧
  (∀ x, context c = Some x → ∃ x', context c' = Some x' ∧ entry x' = entry x ∧
        bufferedEntries x' = bufferedEntries x ∧ drained x' = drained x) ∧
  (context c = None → context c' = None).
Proof.
  intros H Hok Hnd Hn.
  apply bufferLogs_cases in H as [[-> ->]|(x & r & s' & Hx & Hne & Hd & Hp & Hq & -> & ->)].
  - split_and!; [done|lia|done|done| |done].
    intros x ->. eauto.
  - pose proof (cell_ok_idle _ _ Hok Hx Hp Hnd) as Hin.
    split_and!.
    + unfold cell_ok. simpl. split; [done|]. left. rewrite Hin. simpl. eauto.
    + unfold credit, buffered, prefetching, leaked. simpl. rewrite Hx, Hin, Hd. simpl. lia.
    + lia.
    + simpl. rewrite Hin. intros t ->%list_elem_of_singleton. done.
    + intros x' Hx'. simplify_eq. simpl. eexists. split; [done|]. by rewrite Hd.
    + by rewrite Hx.
Qed.

Lemma counted_update s i c c' h' n' d' o' :
  counted s → cells s !! i = Some c → cell_ok c' →
  (n' - numLogEntriesBuffered s = Z.of_nat (credit c') - Z.of_nat (credit c))%Z →
  (n' ≤ ceiling)%Z →
  (∀ t, t ∈ inflight c' → via t = Direct → d' = AwaitDirect i) →
  (d' = control s ∨ ∀ j, j ≠ i → control s ≠ AwaitDirect j) →
  (∀ j, d' = Resumed j →
     (j = i ∧ ∃ x, context c' = Some x ∧ (bufferedEntries x ≠ [] ∨ drained x = true)) ∨
     (j ≠ i ∧ control s = Resumed j)) →
  counted (State (<[i:=c']> (cells s)) h' n' d' o').
Proof.
  intros [Hcells Hsum Hcap Hdir Hres] Hi Hok Hn Hle Hd Hctl Hr.
  pose proof (lookup_lt_Some _ _ _ Hi) as Hlt.
  split; simpl.
  - intros j cj. destruct (decide (j = i)) as [->|Hne].
    + rewrite list_lookup_insert_eq by done. by intros [= <-].
    + rewrite list_lookup_insert_ne by done. apply Hcells.
  - pose proof (sum_list_with_insert credit (cells s) i c c' Hi). lia.
  - done.
  - intros j cj t. destruct (decide (j = i)) as [->|Hne].
    + rewrite list_lookup_insert_eq by done. intros [= <-]. apply Hd.
    + rewrite list_lookup_insert_ne by done. intros Hj Ht Hv.
      pose proof (Hdir _ _ _ Hj Ht Hv) as Hc.
      destruct Hctl as [->|Hctl]; [done|]. by destruct (Hctl j).
  - intros j Hj. destruct (Hr j Hj) as [[-> (x & Hx & Hb)]|[Hne Hc]].
    + exists c', x. by rewrite list_lookup_insert_eq.
    + destruct (Hres j Hc) as (cj & x & ? & ?). exists cj, x.
      by rewrite list_lookup_insert_ne.
Qed.

Lemma counted_same s h' d' o' :
  counted s → (∀ i, control s ≠ AwaitDirect i) → (∀ j, d' ≠ Resumed j) →
  counted (State (cells s) h' (numLogEntriesBuffered s) d' o').
Proof.
  intros [Hcells Hsum Hcap Hdir Hres] Hnd Hnr. split; simpl; try done.
  - intros i c t Hi Ht Hv. by destruct (Hnd i (Hdir _ _ _ Hi Ht Hv)).
  - intros j Hj. by destruct (Hnr j).
Qed.

Lemma mayTurn_not_direct s i : mayTurn s → control s ≠ AwaitDirect i.
Proof. intros [[-> _]| ->]; done. Qed.

Lemma mayTurn_not_resumed s i : mayTurn s → control s ≠ Resumed i.
Proof. intros [[-> _]| ->]; done. Qed.

Lemma counted_no_direct s i c :
  counted s → cells s !! i = Some c → control s ≠ AwaitDirect i →
  ∀ t, t ∈ inflight c → via t ≠ Direct.
Proof. intros Hs Hi Hc t Ht Hv. apply Hc. by eapply counted_direct. Qed.

End Counting.

Section CountingPreserved.

Variable ceiling : Z.
Hypothesis ceiling_nonneg : (0 ≤ ceiling)%Z.

Lemma credit_unsettled_initial c t :
  inflight c = [t] → via t = Initial → credit (unsettled c []) = credit c.
Proof.
  intros Hin Hv. unfold credit, buffered, prefetching, leaked. simpl.
  rewrite Hin. simpl. rewrite ?filter_cons, ?filter_nil, decide_False by congruence. done.
Qed.

Lemma credit_unsettled_direct c t :
  inflight c = [t] → via t = Direct → credit (unsettled c []) = credit c.
Proof.
  intros Hin Hv. unfold credit, buffered, prefetching, leaked. simpl.
  rewrite Hin. simpl. rewrite ?filter_cons, ?filter_nil, decide_False by congruence. done.
Qed.

Lemma counted_shift s i c x b bs n' c' h' o' :
  counted ceiling s → cells s !! i = Some c → context c = Some x →
  bufferedEntries x = b :: bs → control s ≠ AwaitDirect i →
  bufferLogs ceiling (numLogEntriesBuffered s - 1) (withContext c (shifted x)) = (n', c') →
  (∀ j, j ≠ i → control s ≠ AwaitDirect j) →
  counted ceiling (State (<[i:=c']> (cells s)) h' n' Running o').
Proof.
  intros Hs Hi Hx Hb Hnd Hbuf Hother.
  pose proof (counted_cells _ _ Hs _ _ Hi) as Hok.
  pose proof (counted_no_direct _ _ _ _ Hs Hi Hnd) as Hno.
  pose proof (counted_cap _ _ Hs) as Hcap.
  assert (Hok1 : cell_ok (withContext c (shifted x))).
  { unfold cell_ok in *. simpl. by rewrite Hx in Hok. }
  assert (Hcr : credit c = S (credit (withContext c (shifted x)))).
  { unfold credit, buffered, prefetching, leaked. simpl. rewrite Hx, Hb. simpl. lia. }
  destruct (bufferLogs_counted ceiling _ _ _ _ Hbuf Hok1) as (Hok' & Hn' & Hle & Hnd' & _);
    [done|lia|].
  eapply counted_update; eauto.
  - lia.
  - intros t Ht Hv. by destruct (Hnd' t Ht).
  - intros j [=].
Qed.

Lemma moves_counted s s' : counted ceiling s → moves ceiling s s' → counted ceiling s'.
Proof.
  intros Hs Hm.
  pose proof (counted_cap _ _ Hs) as Hcap.
  destruct Hm as
    [ i f c t l Hc Hi Ht Hv Hy
    | i f c t l Hc Hi Ht Hv Hy
    | i f c t l e n' c' Hc Hi Ht Hv Hy Hbuf
    | i f c t l x Hc Hi Ht Hv Hy Hx
    | i f c t l x r n' c' Hc Hi Ht Hv Hy Hx Hbuf
    | i f c t l x Hc Hi Ht Hv Hy Hx
    | i f c t l x Hc Hi Ht Hv Hy Hx
    | i f c t l x e n' c' Hc Hi Ht Hv Hy Hx Hbuf
    | Hturn Hh
    | k i c x e b bs n' c' Hturn Hpop Hi Hx He Hb Hbuf
    | k i c x e f Hturn Hpop Hi Hx He Hb Hp
    | k i c x e Hturn Hpop Hi Hx He Hb Hp Hd
    | k i c x e r s1 Hturn Hpop Hi Hx He Hb Hp Hd Hq
    | i c x Hc Hi Hx Hb Hd
    | i c x n' c' Hc Hi Hx Hnot Hbuf ];
    try (pose proof (counted_cells _ _ Hs _ _ Hi) as Hok);
    try (destruct (takeFetch_single _ _ _ _ Hok Ht) as (Hin & -> & Hf)).
  - (* initial fetch rejected *)
    pose proof (cell_ok_initial _ _ Hok Hin Hv) as Hx.
    eapply counted_update; eauto.
    + unfold cell_ok. simpl. rewrite Hx. by left.
    + rewrite (credit_unsettled_initial _ _ Hin Hv). lia.
    + simpl. by intros ? ?%elem_of_nil.
    + destruct (control s); auto; right; done.
    + intros j Hj. assert (control s = Resumed j) as Hr by (destruct (control s); done).
      right. split; [|done]. intros ->.
      destruct (counted_resumed _ _ Hs _ Hr) as (? & ? & ? & ? & _). congruence.
  - (* initial fetch: source empty *)
    pose proof (cell_ok_initial _ _ Hok Hin Hv) as Hx.
    eapply counted_update; eauto.
    + unfold cell_ok. simpl. rewrite Hx. by left.
    + rewrite (credit_unsettled_initial _ _ Hin Hv). lia.
    + simpl. by intros ? ?%elem_of_nil.
    + intros j Hr. right. split; [|done]. intros ->.
      destruct (counted_resumed _ _ Hs _ Hr) as (? & ? & ? & ? & _). congruence.
  - (* initial fetch: first entry *)
    pose proof (cell_ok_initial _ _ Hok Hin Hv) as Hx.
    set (c1 := withContext _ _) in Hbuf.
    assert (Hok1 : cell_ok c1) by (unfold cell_ok; simpl; by left).
    assert (Hcr : credit c1 = credit c).
    { unfold credit, buffered, prefetching, leaked. simpl. rewrite Hx, Hin. simpl.
      rewrite ?filter_cons, ?filter_nil, decide_False by congruence. done. }
    destruct (bufferLogs_counted ceiling _ _ _ _ Hbuf Hok1) as (Hok' & Hn' & Hle & Hnd' & _);
      [by intros ? ?%elem_of_nil|done|].
    eapply counted_update; eauto.
    + lia.
    + intros t' Ht' Hv'. by destruct (Hnd' t' Ht').
    + intros j Hr. right. split; [|done]. intros ->.
      destruct (counted_resumed _ _ Hs _ Hr) as (? & ? & ? & ? & _). congruence.
  - (* prefetch rejected *)
    destruct (cell_ok_prefetch _ _ Hok Hin Hv) as (x' & Hx' & Hp & Hd).
    eapply counted_update; eauto.
    + unfold cell_ok. simpl. rewrite Hx', Hp. split; [done|]. right.
      split; [done|]. apply list_elem_of_here.
    + unfold credit, buffered, prefetching, leaked. simpl. rewrite Hin. simpl.
      rewrite ?filter_cons, ?filter_nil, decide_True by done. simpl. lia.
    + simpl. by intros ? ?%elem_of_nil.
    + destruct (decide _) as [->|]; auto.
    + intros j Hj. destruct (decide _); [done|].
      destruct (decide (j = i)) as [->|]; [left|by right].
      split; [done|]. simpl.
      destruct (counted_resumed _ _ Hs _ Hj) as (? & ? & ? & ? & ?). simplify_eq. eauto.
  - (* prefetch resolved *)
    destruct (cell_ok_prefetch _ _ Hok Hin Hv) as (x' & Hx' & Hp & Hd). simplify_eq.
    set (c1 := withContext _ _) in Hbuf.
    assert (Hok1 : cell_ok c1) by (unfold cell_ok; simpl; destruct r; by left).
    assert (Hcr : credit c1 = credit c).
    { unfold credit, buffered, prefetching, leaked. simpl. rewrite Hx, Hin. simpl.
      rewrite ?filter_cons, ?filter_nil, decide_True by done. destruct r; simpl; rewrite ?Hd, ?length_app; simpl; lia. }
    destruct (bufferLogs_counted ceiling _ _ _ _ Hbuf Hok1)
      as (Hok' & Hn' & Hle & Hnd' & Hsame & _); [by intros ? ?%elem_of_nil|done|].
    destruct (Hsame _ eq_refl) as (x' & Hx' & _ & Hb' & Hd').
    eapply counted_update; eauto.
    + lia.
    + intros t' Ht' Hv'. by destruct (Hnd' t' Ht').
    + destruct (decide _) as [->|]; auto.
    + intros j Hj.
      assert (Hgood : bufferedEntries x' ≠ [] ∨ drained x' = true →
                j = i → (j = i ∧ ∃ x0, context c' = Some x0 ∧
                                 (bufferedEntries x0 ≠ [] ∨ drained x0 = true))) by eauto.
      assert (Hnow : (∃ e, r = Some e) ∨ bufferedEntries x ≠ [] ∨ drained x = true →
                bufferedEntries x' ≠ [] ∨ drained x' = true).
      { rewrite Hb', Hd'. destruct r; simpl; [|by right].
        intros _. left. by destruct (bufferedEntries x). }
      destruct (decide _) as [Hc'|].
      * simplify_eq. left. apply Hgood; [|done]. rewrite Hb', Hd'.
        destruct r; simpl; [left|by right]. by destruct (bufferedEntries x).
      * destruct (decide (j = i)) as [->|]; [left|by right].
        apply Hgood; [|done]. apply Hnow. right.
        destruct (counted_resumed _ _ Hs _ Hj) as (? & ? & ? & ? & ?). by simplify_eq.
  - (* CASE 4 fetch rejected *)
    destruct (cell_ok_direct _ _ Hok Hin Hv) as (x' & Hx' & Hp).
    eapply counted_update; eauto.
    + unfold cell_ok. simpl. rewrite Hx', Hp. by left.
    + rewrite (credit_unsettled_direct _ _ Hin Hv). lia.
    + simpl. by intros ? ?%elem_of_nil.
    + right. intros j Hne. rewrite Hc. congruence.
    + intros j [=].
  - (* CASE 4 fetch: source empty *)
    destruct (cell_ok_direct _ _ Hok Hin Hv) as (x' & Hx' & Hp).
    eapply counted_update; eauto.
    + unfold cell_ok. simpl. rewrite Hx', Hp. by left.
    + rewrite (credit_unsettled_direct _ _ Hin Hv). lia.
    + simpl. by intros ? ?%elem_of_nil.
    + right. intros j Hne. rewrite Hc. congruence.
    + intros j [=].
  - (* CASE 4 fetch: next entry *)
    destruct (cell_ok_direct _ _ Hok Hin Hv) as (x' & Hx' & Hp). simplify_eq.
    set (c1 := withContext _ _) in Hbuf.
    assert (Hok1 : cell_ok c1) by (unfold cell_ok; simpl; rewrite Hp; by left).
    assert (Hcr : credit c1 = credit c).
    { unfold credit, buffered, prefetching, leaked. simpl. rewrite Hx, Hin. simpl.
      rewrite ?filter_cons, ?filter_nil, decide_False by congruence. done. }
    destruct (bufferLogs_counted ceiling _ _ _ _ Hbuf Hok1) as (Hok' & Hn' & Hle & Hnd' & _);
      [by intros ? ?%elem_of_nil|done|].
    eapply counted_update; eauto.
    + lia.
    + intros t' Ht' Hv'. by destruct (Hnd' t' Ht').
    + right. intros j Hne. rewrite Hc. congruence.
    + intros j [=].
  - (* heap empty: done *)
    apply counted_same; [done| |done]. intros i. by apply mayTurn_not_direct.
  - (* CASE 1 *)
    eapply counted_shift; eauto using mayTurn_not_direct.
  - (* CASE 2 *)
    apply counted_same; [done| |].
    + intros j. by apply mayTurn_not_direct.
    + intros j. by destruct (bool_decide _).
  - (* CASE 3 *)
    apply counted_same; [done| |done]. intros j. by apply mayTurn_not_direct.
  - (* CASE 4 *)
    pose proof (counted_no_direct _ _ _ _ Hs Hi (mayTurn_not_direct _ i Hturn)) as Hno.
    pose proof (cell_ok_idle _ _ Hok Hx Hp Hno) as Hin.
    eapply counted_update; eauto.
    + unfold cell_ok. simpl. rewrite Hx, Hp, Hin. right. eauto.
    + unfold credit, buffered, prefetching, leaked. simpl. rewrite Hin. simpl. lia.
    + right. intros j _. by apply mayTurn_not_direct.
    + intros j [=].
  - (* CASE 2 continuation: source drained *)
    apply counted_same; [done| |done]. intros j. rewrite Hc. done.
  - (* CASE 2 continuation: next entry *)
    destruct (counted_resumed _ _ Hs _ Hc) as (c0 & x0 & ? & ? & Hgood). simplify_eq.
    destruct (bufferedEntries x) as [|b bs] eqn:Hb.
    { destruct Hgood as [|Hd]; [done|]. by destruct Hnot. }
    eapply counted_shift; eauto; rewrite Hc; done.
Qed.

Lemma start_counted srcs : counted ceiling (start srcs).
Proof.
  split; simpl; try done.
  - intros i c Hi. apply list_lookup_fmap_Some in Hi as (s & -> & _).
    unfold firstFetch. destruct (popAsync s) as [r s']. unfold cell_ok. simpl. right. eauto.
  - assert (sum_list_with credit (firstFetch <$> srcs) = 0) as ->; [|done].
    induction srcs as [|s srcs IH]; [done|].
    rewrite fmap_cons. simpl sum_list_with. rewrite IH.
    unfold firstFetch. destruct (popAsync s) as [r s']. done.
  - intros i c t Hi. apply list_lookup_fmap_Some in Hi as (s & -> & _).
    unfold firstFetch. destruct (popAsync s) as [r s']. simpl.
    intros ->%list_elem_of_singleton. done.
Qed.

Lemma run_moves (P : state → Prop) evs s s' :
  (∀ a b, P a → moves ceiling a b → P b) → P s → run ceiling evs s = Some s' → P s'.
Proof.
  intros Hstep. revert s. induction evs as [|ev evs IH]; intros s Hs H; simpl in H.
  - by simplify_eq.
  - destruct (step ceiling ev s) as [s1|] eqn:H1; simpl in H; [|done].
    eapply IH; [|done]. eapply Hstep; [done|]. by eapply step_moves.
Qed.

Lemma run_counted srcs evs s : run ceiling evs (start srcs) = Some s → counted ceiling s.
Proof. apply run_moves; [apply moves_counted|apply start_counted]. Qed.

End CountingPreserved.

(** * Accounting invariants: where every entry of every source is *)

Definition isEntry (r : outcome) : bool :=
  match r with Resolved (Some _) => true | _ => false end.

(** Entries carried by the fetches in flight. *)
Definition arriving (c : cell) : list logEntry :=
  omap (λ t, match yields t with Resolved (Some e) => Some e | _ => None end) (inflight c).

Definition buffer (c : cell) : list logEntry :=
  match context c with Some x => bufferedEntries x | None => [] end.

Definition headList (c : cell) : list logEntry :=
  match context c with Some x => option_list (entry x) | None => [] end.

(** Entries of a source that are fetched or still to fetch, after its head. *)
Definition upcoming (c : cell) : list logEntry :=
  buffer c ++ arriving c ++ rest (src c).

(** Entries of a source not yet printed; [q] tells whether the context sits
    in the heap (a popped context keeps its printed entry as a stale head). *)
Definition future (q : bool) (c : cell) : list logEntry :=
  (if q then headList c else []) ++ upcoming c.

(** The source index the driver has popped and is dealing with. *)
Definition holding (d : driver) : option nat :=
  match d with
  | AwaitBuffered i _ | Resumed i | AwaitDirect i => Some i
  | _ => None
  end.

(** What the driver state says about cell [j]. *)
Definition grip (d : driver) (j : nat) : option driver :=
  match holding d with
  | Some i => if decide (i = j) then Some d else None
  | None => None
  end.

(** No further [popAsync] will be issued on this source: its end was
    received and recorded, or its context is out of the merge. *)
Definition closed (q : bool) (g : option driver) (c : cell) : bool :=
  match context c with
  | None => match inflight c with [] => true | _ => false end
  | Some x =>
      drained x
      || match nextEntryPromise x, inflight c with Some _, [] => true | _, _ => false end
      || (negb q && match g with None => true | Some _ => false end)
  end.

(** The end of the source (exhaustion or failure) has been polled. *)
Definition signalled (q : bool) (g : option driver) (c : cell) : bool :=
  existsb (λ t, negb (isEntry (yields t))) (inflight c) || closed q g c.

Definition shape (q : bool) (g : option driver) (c : cell) : Prop :=
  match context c with
  | None => q = false ∧ g = None
  | Some x =>
      is_Some (entry x) ∧
      match g with
      | Some d =>
          q = false ∧
          match d with
          | AwaitBuffered _ f => nextEntryPromise x = Some f ∧ f ∉ rejected c
          | AwaitDirect _ =>
              drained x = false ∧ bufferedEntries x = [] ∧
              ∃ t, inflight c = [t] ∧ via t = Direct
          | _ => True
          end
      | None =>
          q = true ∨
          (bufferedEntries x = [] ∧ inflight c = [] ∧ nextEntryPromise x = None)
      end
  end.

(** The state of one source, seen from its original [o] and from the
    entries [sh] of it that were printed. *)
Record cellInv (q : bool) (g : option driver) (c : cell) (o : logSource)
    (sh : list logEntry) : Prop := CellInv {
  ci_entries : sh ++ future q c = rest o;
  ci_fate : fate (src c) = fate o;
  ci_polls : polls (src c) + length (rest (src c))
             = polls o + length (rest o) + (if signalled q g c then 1 else 0);
  ci_rest : signalled q g c = true → rest (src c) = [];
  ci_shape : shape q g c
}.

(** Case analysis on a fully destructed cell. *)
Ltac crush_step :=
  first
    [ progress simplify_eq/=
    | progress destruct_and?
    | match goal with
      | H : ∃ _, _ |- _ => destruct H
      | H : _ ∨ _ |- _ => destruct H
      | H : is_Some _ |- _ => destruct H
      | |- context [match ?x with _ => _ end] => is_var x; destruct x
      | H : context [match ?x with _ => _ end] |- _ => is_var x; destruct x
      | |- context [match fate ?o with _ => _ end] => destruct (fate o) eqn:?
      | H : context [match fate ?o with _ => _ end] |- _ => destruct (fate o) eqn:?
      end ].

Ltac crush :=
  unfold future, upcoming, arriving, buffer, headList, signalled, closed, shape,
    option_list, is_Some, received, shifted, withContext, unsettled in *;
  simpl in *;
  repeat crush_step;
  rewrite ?app_nil_r, <-?app_assoc in *; simpl in *;
  try done; try lia;
  try (exfalso; match goal with H : ∀ _, _ ≠ _ |- _ => by eapply H end);
  repeat split; eauto; try congruence.

Section CellSteps.

Variable ceiling : Z.

Lemma cellInv_bufferLogs q g c o sh n n' c' :
  cellInv q g c o sh → cell_ok c → (∀ t, t ∈ inflight c → via t ≠ Direct) →
  q = true ∨ is_Some g →
  bufferLogs ceiling n c = (n', c') → cellInv q g c' o sh.
Proof.
  intros Hc Hok Hnd Hlive H.
  apply bufferLogs_cases in H as [[-> ->]|(x & r & s' & Hx & Hne & Hd & Hp & Hq & -> & ->)];
    [done|].
  pose proof (cell_ok_idle _ _ Hok Hx Hp Hnd) as Hin.
  clear Hok Hnd. unfold popAsync in Hq.
  destruct c as [[rs ft pl] fl [[en dr buf pr]|] rj]; simplify_eq/=.
  destruct Hc as [He Hf Hpo Hr Hs].
  destruct rs as [|e rs]; simplify_eq/=; split; crush.
Qed.

Ltac cell_lemma :=
  intros;
  repeat match goal with
         | c : cell |- _ => destruct c as [[? ? ?] ? [[? ? ? ?]|] ?]
         | t : fetch |- _ => destruct t
         | x : sourceContext |- _ => destruct x
         end;
  simplify_eq/=;
  repeat match goal with H : cellInv _ _ _ _ _ |- _ => destruct H end;
  unfold popAsync in *; simpl in *;
  split; crush.

Lemma cellInv_initial_empty c t o sh :
  cellInv false None c o sh → inflight c = [t] → context c = None →
  yields t = Resolved None → cellInv false None (unsettled c []) o sh.
Proof. cell_lemma. Qed.

Lemma cellInv_initial_entry c t e o sh :
  cellInv false None c o sh → inflight c = [t] → context c = None →
  yields t = Resolved (Some e) →
  cellInv true None (withContext (unsettled c []) (SourceContext (Some e) false [] None)) o sh.
Proof. cell_lemma. Qed.

Lemma cellInv_prefetch_awaited q i c t x r o sh :
  cellInv q (Some (AwaitBuffered i (fid t))) c o sh → inflight c = [t] →
  context c = Some x → drained x = false → yields t = Resolved r →
  cellInv q (Some (Resumed i)) (withContext (unsettled c []) (received x r)) o sh.
Proof.
  intros;
  repeat match goal with
         | c : cell |- _ => destruct c as [[? ? ?] ? [[? ? ? ?]|] ?]
         | t : fetch |- _ => destruct t
         | x : sourceContext |- _ => destruct x
         end;
  simplify_eq/=;
  repeat match goal with H : cellInv _ _ _ _ _ |- _ => destruct H end;
  unfold popAsync in *; simpl in *;
  split; crush.
Qed.

Lemma cellInv_prefetch_resolved q g c t x r o sh :
  cellInv q g c o sh → inflight c = [t] → via t = Prefetch →
  context c = Some x → nextEntryPromise x = Some (fid t) → drained x = false →
  yields t = Resolved r → (∀ i, g ≠ Some (AwaitBuffered i (fid t))) →
  cellInv q g (withContext (unsettled c []) (received x r)) o sh.
Proof. cell_lemma. Qed.

Lemma cellInv_prefetch_thrown q g c t x o sh :
  cellInv q g c o sh → inflight c = [t] → via t = Prefetch →
  context c = Some x → nextEntryPromise x = Some (fid t) → drained x = false →
  yields t = Thrown → (∀ i, g ≠ Some (AwaitBuffered i (fid t))) →
  cellInv q g (Cell (src c) [] (context c) (fid t :: rejected c)) o sh.
Proof. cell_lemma. Qed.

Lemma cellInv_direct_empty i c t x o sh :
  cellInv false (Some (AwaitDirect i)) c o sh → inflight c = [t] →
  context c = Some x → nextEntryPromise x = None → yields t = Resolved None →
  cellInv false None (unsettled c []) o sh.
Proof. cell_lemma. Qed.

Lemma cellInv_direct_entry i c t x e o sh :
  cellInv false (Some (AwaitDirect i)) c o sh → inflight c = [t] →
  context c = Some x → nextEntryPromise x = None → yields t = Resolved (Some e) →
  cellInv true None
    (withContext (unsettled c [])
       (SourceContext (Some e) (drained x) (bufferedEntries x) (nextEntryPromise x))) o sh.
Proof. cell_lemma. Qed.

Lemma cellInv_pop_buffered c x e b bs o sh :
  cellInv true None c o sh → context c = Some x → entry x = Some e →
  bufferedEntries x = b :: bs →
  cellInv true None (withContext c (shifted x)) o (sh ++ [e]).
Proof. cell_lemma. Qed.

Lemma cellInv_pop_in_flight i c x e f o sh :
  cellInv true None c o sh → context c = Some x → entry x = Some e →
  bufferedEntries x = [] → nextEntryPromise x = Some f → f ∉ rejected c →
  cellInv false (Some (AwaitBuffered i f)) c o (sh ++ [e]).
Proof. cell_lemma. Qed.

Lemma cellInv_pop_drained c x e o sh :
  cellInv true None c o sh → context c = Some x → entry x = Some e →
  bufferedEntries x = [] → nextEntryPromise x = None → drained x = true →
  inflight c = [] →
  cellInv false None c o (sh ++ [e]).
Proof. cell_lemma. Qed.

Lemma cellInv_pop_fetch i c x e r s' o sh :
  cellInv true None c o sh → context c = Some x → entry x = Some e →
  bufferedEntries x = [] → nextEntryPromise x = None → drained x = false →
  inflight c = [] → popAsync (src c) = (r, s') →
  cellInv false (Some (AwaitDirect i))
    (Cell s' (inflight c ++ [Fetch (polls (src c)) Direct r]) (context c) (rejected c))
    o (sh ++ [e]).
Proof. cell_lemma. Qed.

Lemma cellInv_resume_discard i c x o sh :
  cellInv false (Some (Resumed i)) c o sh → context c = Some x →
  bufferedEntries x = [] → drained x = true → inflight c = [] →
  nextEntryPromise x = None →
  cellInv false None c o sh.
Proof. cell_lemma. Qed.

Lemma cellInv_resume_next i c x b bs o sh :
  cellInv false (Some (Resumed i)) c o sh → context c = Some x →
  bufferedEntries x = b :: bs →
  cellInv true None (withContext c (shifted x)) o sh.
Proof. cell_lemma. Qed.

End CellSteps.

(** ** The whole state *)

Record accounted (origs : list logSource) (shipped : list (list logEntry))
    (s : state) : Prop := Accounted {
  acc_sources : length (cells s) = length origs;
  acc_shipped : length shipped = length origs;
  acc_printed : prints (output s) ≡ₚ concat shipped;
  acc_nodup : NoDup (heap s);
  acc_heap : ∀ j, j ∈ heap s → j < length (cells s);
  acc_held : ∀ j, holding (control s) = Some j → j < length (cells s);
  acc_initial : ∀ j c t,
    cells s !! j = Some c → t ∈ inflight c → via t = Initial → control s = AwaitAll;
  acc_cell : ∀ j c o sh,
    cells s !! j = Some c → origs !! j = Some o → shipped !! j = Some sh →
    cellInv (bool_decide (j ∈ heap s)) (grip (control s) j) c o sh
}.

Lemma grip_self d i : holding d = Some i → grip d i = Some d.
Proof. unfold grip. intros ->. by rewrite decide_True. Qed.

Lemma grip_other d i j : holding d = Some i → i ≠ j → grip d j = None.
Proof. unfold grip. intros -> ?. by rewrite decide_False. Qed.

Lemma grip_none d j : holding d = None → grip d j = None.
Proof. unfold grip. by intros ->. Qed.

Lemma grip_Some d j g : grip d j = Some g → g = d ∧ holding d = Some j.
Proof.
  unfold grip. destruct (holding d) as [i|]; [|done].
  destruct (decide (i = j)) as [->|]; [|done]. by intros [= <-].
Qed.

Lemma mayTurn_holding s : mayTurn s → holding (control s) = None.
Proof. intros [[-> _]| ->]; done. Qed.

Lemma concat_insert_snoc {A} (l : list (list A)) i x e :
  l !! i = Some x → concat (<[i:=x ++ [e]]> l) ≡ₚ e :: concat l.
Proof.
  revert i. induction l as [|a l IH]; intros [|i] H; simplify_eq/=.
  - rewrite <-app_assoc. simpl. by rewrite <-Permutation_middle.
  - rewrite (IH _ H). by rewrite <-Permutation_middle.
Qed.

Lemma elem_of_delete_lookup {A} (l : list A) k x y :
  l !! k = Some x → y ∈ delete k l → y ∈ l.
Proof. intros _ Hy. by eapply list_elem_of_delete_inv. Qed.

Lemma elem_of_delete_ne {A} (l : list A) k x y :
  l !! k = Some x → y ≠ x → y ∈ l → y ∈ delete k l.
Proof.
  revert k. induction l as [|a l IH]; intros [|k] Hk Hne Hy; simplify_eq/=.
  - apply elem_of_cons in Hy as [?|?]; done.
  - apply elem_of_cons in Hy as [->|?]; [apply list_elem_of_here|].
    apply list_elem_of_further. eauto.
Qed.

Lemma NoDup_delete_lookup {A} (l : list A) k x :
  NoDup l → l !! k = Some x → NoDup (delete k l) ∧ x ∉ delete k l.
Proof.
  revert k. induction l as [|a l IH]; intros [|k] Hnd Hk; simplify_eq/=.
  - by apply NoDup_cons in Hnd as [? ?].
  - apply NoDup_cons in Hnd as [Ha Hnd]. destruct (IH _ Hnd Hk) as [? ?]. split.
    + apply NoDup_cons. split; [|done]. intros ?%(elem_of_delete_lookup _ _ _ _ Hk). done.
    + intros [->|?]%elem_of_cons; [|done]. apply Ha. by eapply list_elem_of_lookup_2.
Qed.

Lemma accounted_update origs shipped shipped' s i c c' h' n' d' o' :
  accounted origs shipped s →
  cells s !! i = Some c →
  NoDup h' → (∀ j, j ∈ h' → j = i ∨ j ∈ heap s) → (∀ j, j ≠ i → j ∈ heap s → j ∈ h') →
  (∀ j, j ≠ i → grip d' j = grip (control s) j) →
  (∀ j c t, cells s !! j = Some c → j ≠ i → t ∈ inflight c → via t = Initial →
            d' = AwaitAll) →
  (∀ t, t ∈ inflight c' → via t = Initial → d' = AwaitAll) →
  length shipped' = length shipped → (∀ j, j ≠ i → shipped' !! j = shipped !! j) →
  prints o' ≡ₚ concat shipped' →
  (∀ o sh sh', origs !! i = Some o → shipped !! i = Some sh → shipped' !! i = Some sh' →
     cellInv (bool_decide (i ∈ heap s)) (grip (control s) i) c o sh →
     cellInv (bool_decide (i ∈ h')) (grip d' i) c' o sh') →
  accounted origs shipped' (State (<[i:=c']> (cells s)) h' n' d' o').
Proof.
  intros [Hlen Hsh Hpr Hnd Hheap Hheld Hini Hcell] Hi Hnd' Hsub Hsup Hgrip Hini1 Hini2
    Hlen' Hsame Hpr' Hci.
  pose proof (lookup_lt_Some _ _ _ Hi) as Hlt.
  split; simpl; rewrite ?length_insert; try done.
  - congruence.
  - intros j Hj. destruct (Hsub j Hj) as [->|?]; auto.
  - intros j Hj. destruct (decide (j = i)) as [->|Hne]; [done|].
    apply Hheld. pose proof (grip_self _ _ Hj) as Hg. rewrite Hgrip in Hg by done.
    by apply grip_Some in Hg as [_ ?].
  - intros j cj t. destruct (decide (j = i)) as [->|Hne].
    + rewrite list_lookup_insert_eq by done. intros [= <-]. apply Hini2.
    + rewrite list_lookup_insert_ne by done. eauto.
  - intros j cj o sh'. destruct (decide (j = i)) as [->|Hne].
    + rewrite list_lookup_insert_eq by done. intros [= <-] Ho Hsh'.
      destruct (lookup_lt_is_Some_2 shipped i) as [sh Hshi]; [lia|].
      eapply Hci; eauto.
    + rewrite list_lookup_insert_ne, Hsame, Hgrip by done. intros Hj Ho Hshj.
      replace (bool_decide (j ∈ h')) with (bool_decide (j ∈ heap s)); [eauto|].
      apply bool_decide_ext. split; [by apply Hsup|].
      intros Hj'. by destruct (Hsub j Hj').
Qed.

Lemma heap_push_fresh (h : list nat) i :
  NoDup h → i ∉ h →
  NoDup (heapPush i h) ∧ (∀ j, j ∈ heapPush i h → j = i ∨ j ∈ h) ∧
  (∀ j, j ≠ i → j ∈ h → j ∈ heapPush i h) ∧ i ∈ heapPush i h.
Proof.
  unfold heapPush. intros Hnd Hi. split_and!.
  - apply NoDup_app. split_and!; [done| |apply NoDup_singleton].
    intros j Hj ?%list_elem_of_singleton. by subst.
  - intros j [?|?%list_elem_of_singleton]%elem_of_app; auto.
  - intros j _ Hj. apply elem_of_app. by left.
  - apply elem_of_app. right. apply list_elem_of_here.
Qed.

Lemma heap_delete (h : list nat) k i :
  NoDup h → h !! k = Some i →
  NoDup (delete k h) ∧ (∀ j, j ∈ delete k h → j = i ∨ j ∈ h) ∧
  (∀ j, j ≠ i → j ∈ h → j ∈ delete k h) ∧ i ∉ delete k h.
Proof.
  intros Hnd Hk. destruct (NoDup_delete_lookup _ _ _ Hnd Hk) as [? ?]. split_and!; [done| | |done].
  - intros j Hj. right. by eapply elem_of_delete_lookup.
  - intros j Hne Hj. by eapply elem_of_delete_ne.
Qed.

Lemma heap_repush (h : list nat) k i :
  NoDup h → h !! k = Some i →
  NoDup (heapPush i (delete k h)) ∧ (∀ j, j ∈ heapPush i (delete k h) → j = i ∨ j ∈ h) ∧
  (∀ j, j ≠ i → j ∈ h → j ∈ heapPush i (delete k h)) ∧ i ∈ heapPush i (delete k h).
Proof.
  intros Hnd Hk. destruct (heap_delete _ _ _ Hnd Hk) as (Hnd' & Hsub & Hsup & Hi).
  destruct (heap_push_fresh _ _ Hnd' Hi) as (? & Hsub' & Hsup' & ?). split_and!; [done| | |done].
  - intros j Hj. destruct (Hsub' j Hj) as [?|?]; auto.
  - intros j Hne Hj. auto.
Qed.

Lemma grip_frame d d' i :
  holding d = None ∨ holding d = Some i →
  holding d' = None ∨ holding d' = Some i →
  ∀ j, j ≠ i → grip d' j = grip d j.
Proof.
  intros Hd Hd' j Hne.
  assert (∀ x, holding x = None ∨ holding x = Some i → grip x j = None) as Hn.
  { intros x [?|?]; [by apply grip_none|by eapply grip_other]. }
  by rewrite !Hn.
Qed.

Lemma allInitialSettled_spec cs :
  allInitialSettled cs = true →
  ∀ j c t, cs !! j = Some c → t ∈ inflight c → via t ≠ Initial.
Proof.
  unfold allInitialSettled. intros H j c t Hj Ht.
  rewrite forallb_forall in H.
  specialize (H c (proj1 (list_elem_of_In _ _) (list_elem_of_lookup_2 _ _ _ Hj))).
  rewrite forallb_forall in H.
  specialize (H t (proj1 (list_elem_of_In _ _) Ht)). by apply bool_decide_eq_true in H.
Qed.

Lemma no_initial origs shipped s :
  accounted origs shipped s →
  control s ≠ AwaitAll ∨ allInitialSettled (cells s) = true →
  ∀ j c t, cells s !! j = Some c → t ∈ inflight c → via t ≠ Initial.
Proof.
  intros Ha [Hc|Hs] j c t Hj Ht Hv.
  - apply Hc. by eapply acc_initial.
  - by eapply allInitialSettled_spec.
Qed.

Lemma mayTurn_settled s :
  mayTurn s → control s ≠ AwaitAll ∨ allInitialSettled (cells s) = true.
Proof. intros [[_ ?]| ->]; auto. Qed.

Lemma accounted_lookup origs shipped s i c :
  accounted origs shipped s → cells s !! i = Some c →
  ∃ o sh, origs !! i = Some o ∧ shipped !! i = Some sh ∧
          cellInv (bool_decide (i ∈ heap s)) (grip (control s) i) c o sh.
Proof.
  intros Ha Hi. pose proof (lookup_lt_Some _ _ _ Hi) as Hlt.
  destruct (lookup_lt_is_Some_2 origs i) as [o Ho]; [rewrite <-(acc_sources _ _ _ Ha); lia|].
  destruct (lookup_lt_is_Some_2 shipped i) as [sh Hsh].
  { rewrite (acc_shipped _ _ _ Ha), <-(acc_sources _ _ _ Ha). lia. }
  exists o, sh. split_and!; [done..|]. by eapply acc_cell.
Qed.

Lemma cellInv_no_context q g c o sh :
  cellInv q g c o sh → context c = None → q = false ∧ g = None.
Proof. intros [_ _ _ _ Hs] Hx. unfold shape in Hs. by rewrite Hx in Hs. Qed.

Lemma cellInv_busy q g c o sh :
  cellInv q g c o sh → is_Some (context c) → inflight c ≠ [] → q = true ∨ is_Some g.
Proof.
  intros [_ _ _ _ Hs] [x Hx] Hin. unfold shape in Hs. rewrite Hx in Hs.
  destruct Hs as [_ Hs]. destruct g; [by right|].
  destruct Hs as [?|(_ & ? & _)]; [by left|done].
Qed.

Lemma cellInv_held q d c o sh : cellInv q (Some d) c o sh → q = false.
Proof.
  intros [_ _ _ _ Hs]. unfold shape in Hs.
  destruct (context c); [by destruct Hs as [_ [? _]]|by destruct Hs].
Qed.

Lemma cellInv_awaited q i f c o sh x :
  cellInv q (Some (AwaitBuffered i f)) c o sh → context c = Some x →
  nextEntryPromise x = Some f ∧ f ∉ rejected c.
Proof.
  intros [_ _ _ _ Hs] Hx. unfold shape in Hs. rewrite Hx in Hs.
  by destruct Hs as [_ [_ ?]].
Qed.

Section Accounting.

Variable ceiling : Z.
Hypothesis ceiling_nonneg : (0 ≤ ceiling)%Z.

Definition popped (s s' : state) (shipped shipped' : list (list logEntry)) : Prop :=
  ∃ k i e sh,
    mayTurn s ∧ heapPop (cells s) k (heap s) = Some (i, delete k (heap s)) ∧
    headOf (cells s) i = Some e ∧ shipped !! i = Some sh ∧
    shipped' = <[i:=sh ++ [e]]> shipped ∧ output s' = PrintCall e :: output s.

Definition quiet (s s' : state) (shipped shipped' : list (list logEntry)) : Prop :=
  (output s' = output s ∨ output s' = DoneCall :: output s) ∧ shipped' = shipped.

Lemma headOf_lookup cs i c x e :
  cs !! i = Some c → context c = Some x → entry x = Some e → headOf cs i = Some e.
Proof. unfold headOf. intros -> Hx He. simpl. rewrite Hx. done. Qed.

Lemma bufferLogs_inflight n c n' c' t :
  bufferLogs ceiling n c = (n', c') → t ∈ inflight c' → t ∈ inflight c ∨ via t = Prefetch.
Proof.
  intros H Ht.
  apply bufferLogs_cases in H as [[-> ->]|(x & r & s' & _ & _ & _ & _ & _ & -> & ->)];
    [by left|].
  simpl in Ht. apply elem_of_app in Ht as [?|?%list_elem_of_singleton]; subst; auto.
Qed.

Lemma accounted_quiet origs shipped s c i :
  accounted origs shipped s → cells s !! i = Some c → <[i:=c]> (cells s) = cells s.
Proof. intros _ Hi. by apply list_insert_id. Qed.

Lemma moves_accounted origs shipped s s' :
  counted ceiling s → accounted origs shipped s → moves ceiling s s' → control s' ≠ Failed →
  ∃ shipped', accounted origs shipped' s' ∧
              (quiet s s' shipped shipped' ∨ popped s s' shipped shipped').
Proof.
  intros Hs Ha Hm Hnf.
  pose proof (acc_nodup _ _ _ Ha) as Hnd.
  pose proof (acc_printed _ _ _ Ha) as Hpr.
  pose proof (counted_cap _ _ Hs) as Hcap.
  destruct Hm as
    [ i f c t l Hc Hi Ht Hv Hy
    | i f c t l Hc Hi Ht Hv Hy
    | i f c t l e n' c' Hc Hi Ht Hv Hy Hbuf
    | i f c t l x Hc Hi Ht Hv Hy Hx
    | i f c t l x r n' c' Hc Hi Ht Hv Hy Hx Hbuf
    | i f c t l x Hc Hi Ht Hv Hy Hx
    | i f c t l x Hc Hi Ht Hv Hy Hx
    | i f c t l x e n' c' Hc Hi Ht Hv Hy Hx Hbuf
    | Hturn Hh
    | k i c x e b bs n' c' Hturn Hpop Hi Hx He Hb Hbuf
    | k i c x e f Hturn Hpop Hi Hx He Hb Hp
    | k i c x e Hturn Hpop Hi Hx He Hb Hp Hd
    | k i c x e r s1 Hturn Hpop Hi Hx He Hb Hp Hd Hq
    | i c x Hc Hi Hx Hb Hd
    | i c x n' c' Hc Hi Hx Hnot Hbuf ];
    simpl in Hnf;
    try (pose proof (counted_cells _ _ Hs _ _ Hi) as Hok);
    try (destruct (takeFetch_single _ _ _ _ Hok Ht) as (Hin & -> & Hf));
    try (destruct (accounted_lookup _ _ _ _ _ Ha Hi) as (o & sh & Ho & Hsh & Hci));
    try (assert (Ht' : t ∈ inflight c) by (rewrite Hin; apply list_elem_of_here));
    try (destruct (heapPop_Some _ _ _ _ _ Hpop) as (Hk & _ & a & Ha' & Hmin);
         pose proof (list_elem_of_lookup_2 _ _ _ Hk) as Hmem;
         rewrite (bool_decide_eq_true_2 _ Hmem), (grip_none _ i (mayTurn_holding _ Hturn)) in Hci;
         pose proof (counted_no_direct _ _ _ _ Hs Hi (mayTurn_not_direct _ i Hturn)) as Hno).
  - (* initial fetch rejected: the merge fails *)
    rewrite (acc_initial _ _ _ Ha _ _ _ Hi Ht' Hv) in Hnf. done.
  - (* initial fetch: source empty *)
    pose proof (cell_ok_initial _ _ Hok Hin Hv) as Hx.
    destruct (cellInv_no_context _ _ _ _ _ Hci Hx) as [Hq Hg].
    exists shipped. split; [|left; split; auto].
    eapply accounted_update; eauto.
    + intros j cj t0 Hj _ Ht0 Hv0. by eapply acc_initial.
    + simpl. by intros ? ?%elem_of_nil.
    + intros o' sh0 sh' ? ? ? Hci'. simplify_eq. rewrite Hq, Hg in *.
      by eapply cellInv_initial_empty.
  - (* initial fetch: first entry *)
    pose proof (cell_ok_initial _ _ Hok Hin Hv) as Hx.
    destruct (cellInv_no_context _ _ _ _ _ Hci Hx) as [Hq Hg].
    apply bool_decide_eq_false in Hq.
    destruct (heap_push_fresh _ _ Hnd Hq) as (Hnd' & Hsub & Hsup & Hmem).
    exists shipped. split; [|left; split; auto].
    set (c1 := withContext _ _) in Hbuf.
    assert (Hok1 : cell_ok c1) by (unfold cell_ok; simpl; by left).
    assert (Hnd1 : ∀ t, t ∈ inflight c1 → via t ≠ Direct) by (by intros ? ?%elem_of_nil).
    eapply accounted_update; eauto.
    + intros j cj t0 Hj _ Ht0 Hv0. by eapply acc_initial.
    + intros t0 Ht0 Hv0. by eapply acc_initial.
    + intros o' sh0 sh' ? ? ? Hci'. simplify_eq.
      rewrite (bool_decide_eq_true_2 _ Hmem). rewrite Hg in *.
      rewrite (bool_decide_eq_false_2 _ Hq) in Hci'.
      eapply cellInv_bufferLogs; [|done|done|by left|done].
      by eapply cellInv_initial_entry.
  - (* prefetch rejected *)
    destruct (decide (control s = AwaitBuffered i (fid t))) as [|Hnb]; [done|].
    destruct (cell_ok_prefetch _ _ Hok Hin Hv) as (x' & Hx' & Hp & Hd). simplify_eq.
    exists shipped. split; [|left; split; auto].
    eapply accounted_update; eauto.
    + intros j cj t0 Hj _ Ht0 Hv0. by eapply acc_initial.
    + simpl. by intros ? ?%elem_of_nil.
    + intros o' sh0 sh' ? ? ? Hci'. simplify_eq.
      eapply cellInv_prefetch_thrown; eauto.
      intros i' Hg. apply grip_Some in Hg as [Hg Hh]. rewrite <-Hg in Hh. simpl in Hh.
      congruence.
  - (* prefetch resolved *)
    destruct (cell_ok_prefetch _ _ Hok Hin Hv) as (x' & Hx' & Hp & Hd). simplify_eq.
    set (c1 := withContext _ _) in Hbuf.
    assert (Hok1 : cell_ok c1) by (unfold cell_ok; simpl; destruct r; by left).
    assert (Hnd1 : ∀ t, t ∈ inflight c1 → via t ≠ Direct) by (by intros ? ?%elem_of_nil).
    assert (Hlive : bool_decide (i ∈ heap s) = true ∨ is_Some (grip (control s) i)).
    { eapply cellInv_busy; eauto. by rewrite Hin. }
    assert (Hnoini : ∀ t0, t0 ∈ inflight c' → via t0 ≠ Initial).
    { intros t0 Ht0. destruct (bufferLogs_inflight _ _ _ _ _ Hbuf Ht0) as [?%elem_of_nil| ->];
        done. }
    exists shipped. split; [|left; split; auto].
    destruct (decide (control s = AwaitBuffered i (fid t))) as [Hb|Hnb].
    + eapply accounted_update; eauto.
      * apply grip_frame; rewrite ?Hb; simpl; auto.
      * intros j cj t0 Hj _ Ht0 Hv0.
        pose proof (acc_initial _ _ _ Ha _ _ _ Hj Ht0 Hv0). congruence.
      * intros t0 Ht0 Hv0. by destruct (Hnoini t0 Ht0).
      * intros o' sh0 sh' ? ? ? Hci'. simplify_eq.
        rewrite Hb, grip_self in Hci' by done. rewrite grip_self by done.
        eapply cellInv_bufferLogs; [|done|done|by right|done].
        by eapply cellInv_prefetch_awaited.
    + eapply accounted_update; eauto.
      * intros j cj t0 Hj _ Ht0 Hv0. by eapply acc_initial.
      * intros t0 Ht0 Hv0. by destruct (Hnoini t0 Ht0).
      * intros o' sh0 sh' ? ? ? Hci'. simplify_eq.
        eapply cellInv_bufferLogs; [|done|done|done|done].
        eapply cellInv_prefetch_resolved; eauto.
        intros i' Hg. apply grip_Some in Hg as [Hg Hh]. rewrite <-Hg in Hh. simpl in Hh.
        congruence.
  - (* CASE 4 fetch rejected *)
    done.
  - (* CASE 4 fetch: source empty *)
    destruct (cell_ok_direct _ _ Hok Hin Hv) as (x' & Hx' & Hp). simplify_eq.
    rewrite Hc, grip_self in Hci by done.
    pose proof (cellInv_held _ _ _ _ _ Hci) as Hq. rewrite Hq in Hci.
    exists shipped. split; [|left; split; auto].
    eapply accounted_update; eauto.
    + apply grip_frame; rewrite ?Hc; simpl; auto.
    + intros j cj t0 Hj _ Ht0 Hv0.
      pose proof (acc_initial _ _ _ Ha _ _ _ Hj Ht0 Hv0). congruence.
    + simpl. by intros ? ?%elem_of_nil.
    + intros o' sh0 sh' ? ? ? Hci'. simplify_eq.
      rewrite Hq. rewrite grip_none by done. by eapply cellInv_direct_empty.
  - (* CASE 4 fetch: next entry *)
    destruct (cell_ok_direct _ _ Hok Hin Hv) as (x' & Hx' & Hp). simplify_eq.
    rewrite Hc, grip_self in Hci by done.
    pose proof (cellInv_held _ _ _ _ _ Hci) as Hq. rewrite Hq in Hci.
    apply bool_decide_eq_false in Hq.
    destruct (heap_push_fresh _ _ Hnd Hq) as (Hnd' & Hsub & Hsup & Hmem).
    set (c1 := withContext _ _) in Hbuf.
    assert (Hok1 : cell_ok c1) by (unfold cell_ok; simpl; rewrite Hp; by left).
    assert (Hnd1 : ∀ t, t ∈ inflight c1 → via t ≠ Direct) by (by intros ? ?%elem_of_nil).
    assert (Hnoini : ∀ t0, t0 ∈ inflight c' → via t0 ≠ Initial).
    { intros t0 Ht0. destruct (bufferLogs_inflight _ _ _ _ _ Hbuf Ht0) as [?%elem_of_nil| ->];
        done. }
    exists shipped. split; [|left; split; auto].
    eapply accounted_update; eauto.
    + apply grip_frame; rewrite ?Hc; simpl; auto.
    + intros j cj t0 Hj _ Ht0 Hv0.
      pose proof (acc_initial _ _ _ Ha _ _ _ Hj Ht0 Hv0). congruence.
    + intros t0 Ht0 Hv0. by destruct (Hnoini t0 Ht0).
    + intros o' sh0 sh' ? ? ? Hci'. simplify_eq.
      rewrite (bool_decide_eq_true_2 _ Hmem). rewrite grip_none by done.
      eapply cellInv_bufferLogs; [|done|done|by left|done].
      by eapply cellInv_direct_entry.
  - (* heap empty: done *)
    exists shipped. split; [|left; split; auto].
    destruct Ha as [Hlen Hshl _ _ Hheap Hheld Hini Hcell].
    split; simpl; try done.
    + rewrite Hh in Hnd. done.
    + by intros j ?%elem_of_nil.
    + intros j c t Hj Ht Hv.
      destruct (mayTurn_settled _ Hturn) as [Hn|Hall].
      * destruct Hn. eauto.
      * by destruct (allInitialSettled_spec _ Hall _ _ _ Hj Ht).
    + intros j c o sh Hj Ho Hshj. specialize (Hcell _ _ _ _ Hj Ho Hshj).
      rewrite Hh in Hcell. rewrite (grip_none _ j (mayTurn_holding _ Hturn)) in Hcell.
      done.
  - (* CASE 1 *)
    destruct (heap_repush _ _ _ Hnd Hk) as (Hnd' & Hsub & Hsup & Hmem').
    set (c1 := withContext _ _) in Hbuf.
    assert (Hok1 : cell_ok c1) by (unfold cell_ok in *; simpl; by rewrite Hx in Hok).
    assert (Hnoini : ∀ t0, t0 ∈ inflight c' → via t0 ≠ Initial).
    { intros t0 Ht0 Hv0.
      destruct (bufferLogs_inflight _ _ _ _ _ Hbuf Ht0) as [Hold|Hpre]; [|congruence].
      by destruct (no_initial _ _ _ Ha (mayTurn_settled _ Hturn) _ _ _ Hi Hold). }
    exists (<[i:=sh ++ [e]]> shipped). split.
    + eapply accounted_update; eauto.
      * apply grip_frame; rewrite ?(mayTurn_holding _ Hturn); simpl; auto.
      * intros j cj t0 Hj _ Ht0 Hv0.
        by destruct (no_initial _ _ _ Ha (mayTurn_settled _ Hturn) _ _ _ Hj Ht0).
      * intros t0 Ht0 Hv0. by destruct (Hnoini t0 Ht0).
      * by rewrite length_insert.
      * intros j Hne. by rewrite list_lookup_insert_ne.
      * simpl. rewrite Hpr. symmetry. by apply concat_insert_snoc.
      * intros o' sh0 sh' ? ? Hsh' Hci'. simplify_eq.
        rewrite list_lookup_insert_eq in Hsh' by (by eapply lookup_lt_Some).
        simplify_eq. rewrite (bool_decide_eq_true_2 _ Hmem').
        eapply cellInv_bufferLogs; [|done|done|by left|done].
        by eapply cellInv_pop_buffered.
    + right. exists k, i, e, sh. split_and!; eauto using headOf_lookup.
  - (* CASE 2 *)
    destruct (heap_delete _ _ _ Hnd Hk) as (Hnd' & Hsub & Hsup & Hmem').
    destruct (bool_decide_reflect (f ∈ rejected c)) as [|Hrej]; [done|].
    exists (<[i:=sh ++ [e]]> shipped). split.
    + rewrite <-(accounted_quiet _ _ _ _ _ Ha Hi).
      eapply accounted_update; eauto.
      * apply grip_frame; rewrite ?(mayTurn_holding _ Hturn); simpl; auto.
      * intros j cj t0 Hj _ Ht0 Hv0.
        by destruct (no_initial _ _ _ Ha (mayTurn_settled _ Hturn) _ _ _ Hj Ht0).
      * intros t0 Ht0 Hv0.
        by destruct (no_initial _ _ _ Ha (mayTurn_settled _ Hturn) _ _ _ Hi Ht0).
      * by rewrite length_insert.
      * intros j Hne. by rewrite list_lookup_insert_ne.
      * simpl. rewrite Hpr. symmetry. by apply concat_insert_snoc.
      * intros o' sh0 sh' ? ? Hsh' Hci'. simplify_eq.
        rewrite list_lookup_insert_eq in Hsh' by (by eapply lookup_lt_Some).
        simplify_eq. rewrite (bool_decide_eq_false_2 _ Hmem'), grip_self by done.
        by eapply cellInv_pop_in_flight.
    + right. exists k, i, e, sh. split_and!; eauto using headOf_lookup.
  - (* CASE 3 *)
    destruct (heap_delete _ _ _ Hnd Hk) as (Hnd' & Hsub & Hsup & Hmem').
    pose proof (cell_ok_idle _ _ Hok Hx Hp Hno) as Hin.
    exists (<[i:=sh ++ [e]]> shipped). split.
    + rewrite <-(accounted_quiet _ _ _ _ _ Ha Hi).
      eapply accounted_update; eauto.
      * apply grip_frame; rewrite ?(mayTurn_holding _ Hturn); simpl; auto.
      * intros j cj t0 Hj _ Ht0 Hv0.
        by destruct (no_initial _ _ _ Ha (mayTurn_settled _ Hturn) _ _ _ Hj Ht0).
      * intros t0 Ht0 Hv0.
        by destruct (no_initial _ _ _ Ha (mayTurn_settled _ Hturn) _ _ _ Hi Ht0).
      * by rewrite length_insert.
      * intros j Hne. by rewrite list_lookup_insert_ne.
      * simpl. rewrite Hpr. symmetry. by apply concat_insert_snoc.
      * intros o' sh0 sh' ? ? Hsh' Hci'. simplify_eq.
        rewrite list_lookup_insert_eq in Hsh' by (by eapply lookup_lt_Some).
        simplify_eq. rewrite (bool_decide_eq_false_2 _ Hmem'), grip_none by done.
        by eapply cellInv_pop_drained.
    + right. exists k, i, e, sh. split_and!; eauto using headOf_lookup.
  - (* CASE 4 *)
    destruct (heap_delete _ _ _ Hnd Hk) as (Hnd' & Hsub & Hsup & Hmem').
    pose proof (cell_ok_idle _ _ Hok Hx Hp Hno) as Hin.
    exists (<[i:=sh ++ [e]]> shipped). split.
    + eapply accounted_update; eauto.
      * apply grip_frame; rewrite ?(mayTurn_holding _ Hturn); simpl; auto.
      * intros j cj t0 Hj _ Ht0 Hv0.
        by destruct (no_initial _ _ _ Ha (mayTurn_settled _ Hturn) _ _ _ Hj Ht0).
      * simpl. rewrite Hin. simpl. by intros t0 ->%list_elem_of_singleton.
      * by rewrite length_insert.
      * intros j Hne. by rewrite list_lookup_insert_ne.
      * simpl. rewrite Hpr. symmetry. by apply concat_insert_snoc.
      * intros o' sh0 sh' ? ? Hsh' Hci'. simplify_eq.
        rewrite list_lookup_insert_eq in Hsh' by (by eapply lookup_lt_Some).
        simplify_eq. rewrite (bool_decide_eq_false_2 _ Hmem'), grip_self by done.
        by eapply cellInv_pop_fetch.
    + right. exists k, i, e, sh. split_and!; eauto using headOf_lookup.
  - (* CASE 2 continuation: source drained *)
    rewrite Hc, grip_self in Hci by done.
    pose proof (cellInv_held _ _ _ _ _ Hci) as Hq. rewrite Hq in Hci.
    assert (Hno : ∀ t, t ∈ inflight c → via t ≠ Direct).
    { eapply counted_no_direct; eauto. by rewrite Hc. }
    assert (Hp : nextEntryPromise x = None).
    { unfold cell_ok in Hok. rewrite Hx in Hok.
      destruct (nextEntryPromise x); [|done]. destruct Hok as [? _]. congruence. }
    pose proof (cell_ok_idle _ _ Hok Hx Hp Hno) as Hin.
    exists shipped. split; [|left; split; auto].
    rewrite <-(accounted_quiet _ _ _ _ _ Ha Hi).
    eapply accounted_update; eauto.
    + apply grip_frame; rewrite ?Hc; simpl; auto.
    + intros j cj t0 Hj _ Ht0 Hv0.
      pose proof (acc_initial _ _ _ Ha _ _ _ Hj Ht0 Hv0). congruence.
    + rewrite Hin. by intros ? ?%elem_of_nil.
    + intros o' sh0 sh' ? ? ? Hci'. simplify_eq.
      rewrite Hq. rewrite grip_none by done. by eapply cellInv_resume_discard.
  - (* CASE 2 continuation: next entry *)
    rewrite Hc, grip_self in Hci by done.
    pose proof (cellInv_held _ _ _ _ _ Hci) as Hq. rewrite Hq in Hci.
    apply bool_decide_eq_false in Hq.
    destruct (heap_push_fresh _ _ Hnd Hq) as (Hnd' & Hsub & Hsup & Hmem).
    assert (Hno : ∀ t, t ∈ inflight c → via t ≠ Direct).
    { eapply counted_no_direct; eauto. by rewrite Hc. }
    destruct (counted_resumed _ _ Hs _ Hc) as (c0 & x0 & ? & ? & Hgood). simplify_eq.
    destruct (bufferedEntries x) as [|b bs] eqn:Hb.
    { destruct Hgood as [|Hd]; [done|]. by destruct Hnot. }
    set (c1 := withContext _ _) in Hbuf.
    assert (Hok1 : cell_ok c1) by (unfold cell_ok in *; simpl; by rewrite Hx in Hok).
    assert (Hnoini : ∀ t0, t0 ∈ inflight c' → via t0 ≠ Initial).
    { intros t0 Ht0 Hv0.
      destruct (bufferLogs_inflight _ _ _ _ _ Hbuf Ht0) as [Hold|Hpre]; [|congruence].
      pose proof (acc_initial _ _ _ Ha _ _ _ Hi Hold Hv0). congruence. }
    exists shipped. split; [|left; split; auto].
    eapply accounted_update; eauto.
    + apply grip_frame; rewrite ?Hc; simpl; auto.
    + intros j cj t0 Hj _ Ht0 Hv0.
      pose proof (acc_initial _ _ _ Ha _ _ _ Hj Ht0 Hv0). congruence.
    + intros t0 Ht0 Hv0. by destruct (Hnoini t0 Ht0).
    + intros o' sh0 sh' ? ? ? Hci'. simplify_eq.
      rewrite (bool_decide_eq_true_2 _ Hmem). rewrite grip_none by done.
      eapply cellInv_bufferLogs; [|done|done|by left|done].
      by eapply cellInv_resume_next.
Qed.

End Accounting.

(** ** From the start *)

Lemma firstFetch_cellInv o : cellInv false None (firstFetch o) o [].
Proof.
  unfold firstFetch, popAsync. destruct o as [[|e r] ft pl]; simpl; split; crush.
Qed.

Lemma start_accounted srcs :
  accounted srcs (replicate (length srcs) []) (start srcs).
Proof.
  split; simpl.
  - by rewrite length_fmap.
  - by rewrite length_replicate.
  - induction srcs; simpl; [done|auto].
  - apply NoDup_nil_2.
  - by intros j ?%elem_of_nil.
  - done.
  - done.
  - intros j c o sh Hj Ho Hsh.
    apply list_lookup_fmap_Some in Hj as (o' & -> & Ho'). simplify_eq.
    apply lookup_replicate in Hsh as [-> _].
    rewrite grip_none by done.
    apply firstFetch_cellInv.
Qed.

Section Failure.

Variable ceiling : Z.

Lemma moves_failed s s' : moves ceiling s s' → control s = Failed → control s' = Failed.
Proof.
  intros Hm Hc. destruct Hm; simpl;
    repeat match goal with
           | H : mayTurn _ |- _ => destruct H as [[? _]|?]
           end; try congruence.
  - by rewrite Hc.
  - rewrite Hc. by destruct (decide _).
  - rewrite Hc. by destruct (decide _).
Qed.

Lemma moves_finished s s' :
  moves ceiling s s' → control s' = Finished →
  control s = Finished ∨ (mayTurn s ∧ heap s = [] ∧ output s' = DoneCall :: output s).
Proof.
  intros Hm Hc. destruct Hm; simpl in *; try done; auto.
  - left. by destruct (control s).
  - destruct (decide _); auto. done.
  - destruct (decide _); auto. done.
  - by destruct (bool_decide _).
Qed.

(** What a step does to the output. *)
Lemma moves_output s s' :
  moves ceiling s s' →
  output s' = output s ∨
  (output s' = DoneCall :: output s ∧ mayTurn s ∧ control s' = Finished) ∨
  ∃ k i e, mayTurn s ∧ heapPop (cells s) k (heap s) = Some (i, delete k (heap s)) ∧
           headOf (cells s) i = Some e ∧ output s' = PrintCall e :: output s.
Proof.
  intros Hm. destruct Hm; simpl; auto.
  all: right; right; eexists _, _, _; split_and!; eauto using headOf_lookup.
Qed.

End Failure.

(** * Ordering *)

Definition notAfter (a b : logEntry) : Prop := (date a ≤ date b)%Z.

(** Every printed entry is no later than every entry still to print. *)
Definition ordered (s : state) : Prop :=
  ∀ p j c e,
    p ∈ prints (output s) → cells s !! j = Some c →
    e ∈ future (bool_decide (j ∈ heap s)) c → notAfter p e.

Lemma earliest_spec cs a h :
  earliest cs a h = true →
  ∀ j, j ∈ h → ∃ b, headOf cs j = Some b ∧ notAfter a b.
Proof.
  unfold earliest. rewrite forallb_forall. intros H j Hj.
  specialize (H j (proj1 (list_elem_of_In _ _) Hj)).
  destruct (headOf cs j) as [b|]; [|done].
  exists b. split; [done|]. unfold notAfter, compare in *. lia.
Qed.

Lemma headOf_headList cs j c b :
  cs !! j = Some c → headOf cs j = Some b → headList c = [b].
Proof.
  unfold headOf, headList. intros -> H. simpl in H.
  destruct (context c) as [x|]; simpl in H; [|done]. by rewrite H.
Qed.

(** A cell that is out of the heap and out of the driver's hands has
    nothing left. *)
Lemma cellInv_out_empty c o sh :
  cellInv false None c o sh → cell_ok c → (∀ t, t ∈ inflight c → via t ≠ Initial) →
  upcoming c = [].
Proof.
  intros [_ _ _ Hr Hs] Hok Hni.
  unfold shape, cell_ok, upcoming, buffer, arriving, signalled, closed in *.
  destruct (context c) as [x|].
  - destruct Hs as [_ [?|(Hb & Hin & Hp)]]; [done|].
    rewrite Hin, Hb in *. simpl in *. rewrite orb_true_r in Hr. by rewrite Hr.
  - destruct Hok as [Hin|(t & Hin & Hv)].
    + rewrite Hin in *. simpl in *. by rewrite Hr.
    + destruct (Hni t); [|done]. rewrite Hin. apply list_elem_of_here.
Qed.

Section Ordering.

Variable ceiling : Z.
Variable origs : list logSource.
Hypothesis origs_sorted : Forall (λ o, StronglySorted notAfter (rest o)) origs.

Lemma future_sorted shipped s j c :
  accounted origs shipped s → cells s !! j = Some c →
  StronglySorted notAfter (future (bool_decide (j ∈ heap s)) c).
Proof.
  intros Ha Hj.
  destruct (accounted_lookup _ _ _ _ _ Ha Hj) as (o & sh & Ho & Hsh & [He _ _ _ _]).
  pose proof (proj1 (Forall_lookup _ _) origs_sorted _ _ Ho) as Hs. simpl in Hs.
  rewrite <-He in Hs. by apply StronglySorted_app_1_r in Hs.
Qed.

Lemma quiet_ordered shipped s s' :
  accounted origs shipped s → accounted origs shipped s' →
  prints (output s') = prints (output s) → ordered s → ordered s'.
Proof.
  intros Ha Ha' Hout Hord p j c' e Hp Hj He.
  rewrite Hout in Hp.
  destruct (accounted_lookup _ _ _ _ _ Ha' Hj) as (o & sh & Ho & Hsh & [He' _ _ _ _]).
  destruct (lookup_lt_is_Some_2 (cells s) j) as [c Hc].
  { rewrite (acc_sources _ _ _ Ha), <-(acc_sources _ _ _ Ha'). by eapply lookup_lt_Some. }
  pose proof (acc_cell _ _ _ Ha _ _ _ _ Hc Ho Hsh) as [He0 _ _ _ _].
  rewrite <-He0 in He'. apply app_inv_head in He'.
  eapply Hord; eauto. by rewrite <-He'.
Qed.

Lemma popped_bound s k i e :
  ordered s → heapPop (cells s) k (heap s) = Some (i, delete k (heap s)) →
  headOf (cells s) i = Some e →
  Forall (λ p, notAfter p e) (prints (output s)).
Proof.
  intros Hord Hpop Hhead. apply Forall_forall. intros p Hp.
  destruct (heapPop_Some _ _ _ _ _ Hpop) as (Hk & _ & _).
  destruct (cells s !! i) as [c|] eqn:Hi; [|by unfold headOf in Hhead; rewrite Hi in Hhead].
  eapply Hord; eauto.
  rewrite (bool_decide_eq_true_2 _ (list_elem_of_lookup_2 _ _ _ Hk)).
  unfold future. rewrite (headOf_headList _ _ _ _ Hi Hhead). apply list_elem_of_here.
Qed.

Lemma popped_ordered shipped shipped' s s' :
  counted ceiling s → accounted origs shipped s → accounted origs shipped' s' →
  popped s s' shipped shipped' → ordered s → ordered s'.
Proof.
  intros Hs Ha Ha' (k & i & e & sh & Hturn & Hpop & Hhead & Hsh & -> & Hout) Hord.
  destruct (heapPop_Some _ _ _ _ _ Hpop) as (Hk & _ & a & Ha0 & Hmin).
  assert (a = e) as -> by congruence.
  pose proof (list_elem_of_lookup_2 _ _ _ Hk) as Hmem.
  destruct (cells s !! i) as [ci|] eqn:Hi; [|by unfold headOf in Hhead; rewrite Hi in Hhead].
  pose proof (lookup_lt_Some _ _ _ Hsh) as Hlt.
  intros p j c' e' Hp Hj He'.
  destruct (accounted_lookup _ _ _ _ _ Ha' Hj) as (o & sh' & Ho & Hsh' & [He1 _ _ _ _]).
  destruct (lookup_lt_is_Some_2 (cells s) j) as [c Hc].
  { rewrite (acc_sources _ _ _ Ha), <-(acc_sources _ _ _ Ha'). by eapply lookup_lt_Some. }
  rewrite Hout in Hp. simpl in Hp.
  destruct (decide (j = i)) as [->|Hne].
  - rewrite list_lookup_insert_eq in Hsh' by done.
    assert (c = ci) as -> by congruence. clear Hi. injection Hsh' as <-.
    pose proof (acc_cell _ _ _ Ha _ _ _ _ Hc Ho Hsh) as [He0 _ _ _ _].
    rewrite <-He0, <-app_assoc in He1. apply app_inv_head in He1. simpl in He1.
    apply elem_of_cons in Hp as [->|Hp].
    + pose proof (future_sorted _ _ _ _ Ha Hc) as Hsorted.
      rewrite <-He1 in Hsorted. apply StronglySorted_inv in Hsorted as [_ Hall].
      by apply (proj1 (Forall_forall _ _) Hall).
    + eapply Hord; eauto. rewrite <-He1. by apply list_elem_of_further.
  - rewrite list_lookup_insert_ne in Hsh' by done.
    pose proof (acc_cell _ _ _ Ha _ _ _ _ Hc Ho Hsh') as Hcj.
    pose proof Hcj as [He0 _ _ _ _].
    rewrite <-He0 in He1. apply app_inv_head in He1.
    rewrite He1 in He'.
    apply elem_of_cons in Hp as [->|Hp]; [|by eapply Hord; eauto].
    destruct (decide (j ∈ heap s)) as [Hin|Hout'].
    + destruct (earliest_spec _ _ _ Hmin j Hin) as (b & Hb & Hle).
      pose proof (future_sorted _ _ _ _ Ha Hc) as Hsorted.
      rewrite (bool_decide_eq_true_2 _ Hin) in *.
      unfold future in *. rewrite (headOf_headList _ _ _ _ Hc Hb) in *. simpl in *.
      apply elem_of_cons in He' as [->|He']; [done|].
      apply StronglySorted_inv in Hsorted as [_ Hall].
      pose proof (proj1 (Forall_forall _ _) Hall _ He'). unfold notAfter in *. lia.
    + rewrite (bool_decide_eq_false_2 _ Hout') in *.
      rewrite (grip_none _ j (mayTurn_holding _ Hturn)) in Hcj.
      unfold future in He'. simpl in He'.
      rewrite (cellInv_out_empty _ _ _ Hcj) in He'.
      * by apply elem_of_nil in He'.
      * by eapply counted_cells.
      * intros t Ht. by eapply (no_initial _ _ _ Ha (mayTurn_settled _ Hturn)).
Qed.

End Ordering.

(** * Invariants along a run *)

Definition descending (l : list logEntry) : Prop :=
  StronglySorted (λ a b, notAfter b a) l.

Lemma prints_app l1 l2 : prints (l1 ++ l2) = prints l1 ++ prints l2.
Proof. induction l1 as [|[e|] l1 IH]; simpl; by rewrite ?IH. Qed.

Lemma prints_reverse l : prints (reverse l) = reverse (prints l).
Proof.
  induction l as [|[e|] l IH]; simpl; [done| |].
  - by rewrite !reverse_cons, prints_app, IH.
  - rewrite reverse_cons, prints_app, IH. simpl. by rewrite app_nil_r.
Qed.

Lemma descending_reverse l : descending l → StronglySorted notAfter (reverse l).
Proof.
  induction 1 as [|a l Hs IH Hall]; [constructor|].
  rewrite reverse_cons.
  apply StronglySorted_app_2; [|done|repeat constructor].
  intros x1 x2 Hx1 ->%list_elem_of_singleton.
  apply (proj1 (Forall_forall _ _) Hall). by apply elem_of_reverse.
Qed.

Lemma StronglySorted_pairs {A} (R : relation A) l i j a b :
  StronglySorted R l → i < j → l !! i = Some a → l !! j = Some b → R a b.
Proof.
  intros Hs. revert i j. induction Hs as [|x l Hs IH Hall]; intros i j Hij Hi Hj; [done|].
  destruct j as [|j]; [lia|]. destruct i as [|i]; simplify_eq/=.
  - apply (proj1 (Forall_forall _ _) Hall). by eapply list_elem_of_lookup_2.
  - eapply (IH i j); [lia|done..].
Qed.

Section Runs.

Variable ceiling : Z.
Hypothesis ceiling_nonneg : (0 ≤ ceiling)%Z.
Variable origs : list logSource.

Definition tracked (s : state) : Prop :=
  counted ceiling s ∧ (control s ≠ Failed → ∃ shipped, accounted origs shipped s).

Lemma moves_tracked s s' : tracked s → moves ceiling s s' → tracked s'.
Proof.
  intros [Hs Ha] Hm. split; [by eapply moves_counted|].
  intros Hnf. destruct Ha as [shipped Ha].
  { intros Hf. apply Hnf. by eapply moves_failed. }
  destruct (moves_accounted _ _ _ _ _ Hs Ha Hm Hnf) as (shipped' & ? & _). eauto.
Qed.

Hypothesis origs_sorted : Forall (λ o, StronglySorted notAfter (rest o)) origs.

Definition wellOrdered (s : state) : Prop :=
  counted ceiling s ∧ descending (prints (output s)) ∧
  (control s ≠ Failed → ∃ shipped, accounted origs shipped s ∧ ordered s).

Lemma moves_wellOrdered s s' : wellOrdered s → moves ceiling s s' → wellOrdered s'.
Proof.
  intros (Hs & Hdesc & Ha) Hm.
  assert (Hdesc' : descending (prints (output s'))).
  { destruct (moves_output _ _ _ Hm) as [->|[(-> & _)|(k & i & e & Hturn & Hpop & Hhead & ->)]];
      [done..|].
    simpl. constructor; [done|].
    destruct Ha as (shipped & _ & Hord).
    { destruct Hturn as [[-> _]| ->]; done. }
    by eapply popped_bound. }
  split_and!; [by eapply moves_counted|done|].
  intros Hnf. destruct Ha as (shipped & Ha & Hord).
  { intros Hf. apply Hnf. by eapply moves_failed. }
  destruct (moves_accounted _ _ _ _ _ Hs Ha Hm Hnf) as (shipped' & Ha' & [[Hout ->]|Hpop]).
  - exists shipped. split; [done|].
    apply (quiet_ordered _ _ _ _ Ha Ha'); [|done].
    destruct Hout as [Hout|Hout]; by rewrite Hout.
  - exists shipped'. split; [done|]. by eapply popped_ordered.
Qed.

End Runs.

Lemma start_tracked ceiling srcs : (0 ≤ ceiling)%Z → tracked ceiling srcs (start srcs).
Proof.
  intros Hc. split; [by apply start_counted|]. intros _. eexists. apply start_accounted.
Qed.

Lemma run_tracked ceiling srcs evs s :
  (0 ≤ ceiling)%Z → run ceiling evs (start srcs) = Some s → tracked ceiling srcs s.
Proof.
  intros Hc. apply run_moves; [apply moves_tracked; done|by apply start_tracked].
Qed.

Lemma start_wellOrdered ceiling srcs :
  (0 ≤ ceiling)%Z → wellOrdered ceiling srcs (start srcs).
Proof.
  intros Hc. split_and!; [by apply start_counted|constructor|].
  intros _. eexists. split; [apply start_accounted|]. by intros p j c e ?%elem_of_nil.
Qed.

Lemma run_wellOrdered ceiling srcs evs s :
  (0 ≤ ceiling)%Z → Forall (λ o, StronglySorted notAfter (rest o)) srcs →
  run ceiling evs (start srcs) = Some s → wellOrdered ceiling srcs s.
Proof.
  intros Hc Hsorted.
  apply run_moves; [apply moves_wellOrdered; done|by apply start_wellOrdered].
Qed.

(** * Termination: a quantity every step increases *)

Definition total {A} (f : A → Z) (l : list A) : Z := foldr (λ x a, (f x + a)%Z) 0%Z l.

Lemma total_insert {A} (f : A → Z) l i x y :
  l !! i = Some x → total f (<[i:=y]> l) = (total f l - f x + f y)%Z.
Proof.
  revert i. induction l as [|a l IH]; intros [|i] H; simplify_eq/=; [lia|].
  rewrite (IH _ H). lia.
Qed.

Lemma total_le {A B} (f : A → Z) (g : B → Z) l k :
  length l = length k →
  (∀ i x y, l !! i = Some x → k !! i = Some y → (f x ≤ g y)%Z) →
  (total f l ≤ total g k)%Z.
Proof.
  revert k. induction l as [|a l IH]; intros [|b k] Hlen H; simplify_eq/=; [lia|].
  pose proof (H 0 a b eq_refl eq_refl).
  assert (total f l ≤ total g k)%Z; [|lia].
  apply IH; [done|]. intros i x y Hx Hy. by apply (H (S i)).
Qed.

Definition weight (c : cell) : Z :=
  (6 * Z.of_nat (polls (src c)) - 5 * Z.of_nat (length (inflight c))
   - 4 * Z.of_nat (buffered c))%Z.

Definition driverWeight (d : driver) : Z :=
  match d with
  | Finished | Failed => 0
  | AwaitAll | Running => 1
  | AwaitBuffered _ _ | Resumed _ | AwaitDirect _ => 2
  end.

Definition advance (s : state) : Z :=
  (total weight (cells s) - 3 * Z.of_nat (length (heap s)) - driverWeight (control s))%Z.

Definition budget (o : logSource) : Z :=
  (6 * (Z.of_nat (polls o) + Z.of_nat (length (rest o)) + 1))%Z.

Definition limit (origs : list logSource) : Z := total budget origs.


Section Advance.

Variable ceiling : Z.
Hypothesis ceiling_nonneg : (0 ≤ ceiling)%Z.

Lemma bufferLogs_weight n c n' c' :
  bufferLogs ceiling n c = (n', c') → (weight c ≤ weight c')%Z.
Proof.
  intros H.
  apply bufferLogs_cases in H as [[-> ->]|(x & r & s' & Hx & _ & _ & _ & Hq & -> & ->)];
    [done|].
  unfold weight, buffered. simpl. rewrite Hx, length_app. simpl.
  unfold popAsync in Hq. destruct (rest (src c)); simplify_eq/=; lia.
Qed.

Lemma advance_update s i c c' h' n' d' o' :
  cells s !! i = Some c →
  (weight c - 3 * Z.of_nat (length (heap s)) - driverWeight (control s)
   < weight c' - 3 * Z.of_nat (length h') - driverWeight d')%Z →
  (advance s < advance (State (<[i:=c']> (cells s)) h' n' d' o'))%Z.
Proof.
  intros Hi H. unfold advance. simpl. rewrite (total_insert _ _ _ _ _ Hi). lia.
Qed.

Lemma length_heap_delete {A} (h : list A) k i :
  h !! k = Some i → length h = S (length (delete k h)).
Proof.
  revert k. induction h as [|a h IH]; intros [|k] Hk; simplify_eq/=; [done|].
  by rewrite (IH _ Hk).
Qed.

Lemma moves_advance s s' : counted ceiling s → moves ceiling s s' → (advance s < advance s')%Z.
Proof.
  intros Hs Hm.
  destruct Hm as
    [ i f c t l Hc Hi Ht Hv Hy
    | i f c t l Hc Hi Ht Hv Hy
    | i f c t l e n' c' Hc Hi Ht Hv Hy Hbuf
    | i f c t l x Hc Hi Ht Hv Hy Hx
    | i f c t l x r n' c' Hc Hi Ht Hv Hy Hx Hbuf
    | i f c t l x Hc Hi Ht Hv Hy Hx
    | i f c t l x Hc Hi Ht Hv Hy Hx
    | i f c t l x e n' c' Hc Hi Ht Hv Hy Hx Hbuf
    | Hturn Hh
    | k i c x e b bs n' c' Hturn Hpop Hi Hx He Hb Hbuf
    | k i c x e f Hturn Hpop Hi Hx He Hb Hp
    | k i c x e Hturn Hpop Hi Hx He Hb Hp Hd
    | k i c x e r s1 Hturn Hpop Hi Hx He Hb Hp Hd Hq
    | i c x Hc Hi Hx Hb Hd
    | i c x n' c' Hc Hi Hx Hnot Hbuf ];
    try (pose proof (counted_cells _ _ Hs _ _ Hi) as Hok);
    try (destruct (takeFetch_single _ _ _ _ Hok Ht) as (Hin & -> & Hf));
    try (destruct (heapPop_Some _ _ _ _ _ Hpop) as (Hk & _ & _);
         pose proof (length_heap_delete _ _ _ Hk) as Hlen);
    try (assert (driverWeight (control s) = 1%Z) as Hdw
           by (by destruct Hturn as [[-> _]| ->]));
    try (eapply advance_update; [done|]);
    try (pose proof (bufferLogs_weight _ _ _ _ Hbuf) as Hw; revert Hw);
    unfold weight, buffered, heapPush, withContext, unsettled, shifted, received; simpl;
    rewrite ?Hin, ?Hx, ?Hb, ?length_app, ?Hc, ?Hdw; simpl.
  - destruct (control s); simpl; lia.
  - lia.
  - lia.
  - destruct (decide _) as [->|]; simpl; lia.
  - destruct (decide _) as [->|]; destruct r; simpl; rewrite ?length_app; simpl; lia.
  - lia.
  - lia.
  - lia.
  - unfold advance. simpl. rewrite Hh, Hdw. simpl. lia.
  - lia.
  - unfold advance. simpl. rewrite Hdw. destruct (bool_decide _); simpl; lia.
  - unfold advance. simpl. rewrite Hdw. lia.
  - unfold popAsync in Hq. destruct (rest (src c)); simplify_eq/=; lia.
  - unfold advance. simpl. rewrite Hc. simpl. lia.
  - destruct (counted_resumed _ _ Hs _ Hc) as (c0 & x0 & ? & ? & Hgood). simplify_eq.
    destruct (bufferedEntries x) as [|b bs] eqn:Hb.
    { destruct Hgood as [|Hd]; [done|]. by destruct Hnot. }
    simpl. lia.
Qed.

End Advance.

(** * Progress: some callback can always run until the merge ends *)

Lemma earliest_mono cs a a' h :
  earliest cs a' h = true → (date a ≤ date a')%Z → earliest cs a h = true.
Proof.
  unfold earliest. rewrite !forallb_forall. intros H Hle j Hj.
  specialize (H j Hj). destruct (headOf cs j); [|done].
  unfold compare in *. lia.
Qed.

Lemma exists_earliest cs (h : list nat) :
  h ≠ [] → (∀ j, j ∈ h → is_Some (headOf cs j)) →
  ∃ k i a, h !! k = Some i ∧ headOf cs i = Some a ∧ earliest cs a h = true.
Proof.
  induction h as [|j h IH]; [done|]. intros _ Hall.
  destruct (Hall j (list_elem_of_here _ _)) as [b Hb].
  destruct h as [|j' h'].
  { exists 0, j, b. split_and!; [done..|]. simpl. rewrite Hb.
    unfold compare. rewrite andb_true_r. lia. }
  destruct IH as (k & i & a & Hk & Ha & Hmin); [done| |].
  { intros j0 Hj0. apply Hall. by apply list_elem_of_further. }
  destruct (Z.le_gt_cases (date b) (date a)) as [Hle|Hgt].
  - exists 0, j, b. split_and!; [done..|].
    change (earliest cs b (j :: j' :: h')) with
      (match headOf cs j with Some b0 => (compare b b0 <=? 0)%Z | None => false end
       && earliest cs b (j' :: h')).
    rewrite Hb, (earliest_mono _ _ _ _ Hmin Hle). unfold compare.
    rewrite andb_true_r. lia.
  - exists (S k), i, a. split_and!; [done..|].
    change (earliest cs a (j :: j' :: h')) with
      (match headOf cs j with Some b0 => (compare a b0 <=? 0)%Z | None => false end
       && earliest cs a (j' :: h')).
    rewrite Hb, Hmin. unfold compare. rewrite andb_true_r. lia.
Qed.


Section Progress.

Variable ceiling : Z.
Hypothesis ceiling_nonneg : (0 ≤ ceiling)%Z.
Variable origs : list logSource.

Lemma queued_head shipped s j :
  accounted origs shipped s → j ∈ heap s →
  ∃ c x e, cells s !! j = Some c ∧ context c = Some x ∧ entry x = Some e.
Proof.
  intros Ha Hj.
  destruct (lookup_lt_is_Some_2 (cells s) j) as [c Hc]; [apply (acc_heap _ _ _ Ha _ Hj)|].
  destruct (accounted_lookup _ _ _ _ _ Ha Hc) as (o & sh & _ & _ & [_ _ _ _ Hs]).
  rewrite (bool_decide_eq_true_2 _ Hj) in Hs. unfold shape in Hs.
  destruct (context c) as [x|] eqn:Hx; [|by destruct Hs].
  destruct Hs as [[e He] _]. by exists c, x, e.
Qed.

Lemma refill_enabled i c x h o s :
  context c = Some x → is_Some (refill ceiling i c x h o s).
Proof.
  intros Hx. unfold refill, getNextEntry. rewrite Hx. simpl.
  destruct (bufferedEntries x); [|done].
  destruct (nextEntryPromise x); [done|].
  destruct (drained x); [done|]. by destruct (popAsync (src c)).
Qed.

Lemma processNextLogEntry_enabled shipped s :
  accounted origs shipped s → ∃ k, is_Some (processNextLogEntry ceiling k s).
Proof.
  intros Ha. unfold processNextLogEntry.
  destruct (heap s) as [|j h] eqn:Hh; [by exists 0|]. rewrite <-Hh.
  destruct (exists_earliest (cells s) (heap s)) as (k & i & a & Hk & Hhead & Hmin).
  { by rewrite Hh. }
  { intros j0 Hj0. destruct (queued_head _ _ _ Ha Hj0) as (c & x & e & Hc & Hx & He).
    exists e. by eapply headOf_lookup. }
  exists k. unfold heapPop. rewrite Hk. simpl. rewrite Hhead. simpl. rewrite Hmin. simpl.
  destruct (queued_head _ _ i Ha) as (c & x & e & Hc & Hx & He).
  { by eapply list_elem_of_lookup_2. }
  rewrite Hc. simpl. rewrite Hx. simpl. rewrite He. simpl. by apply refill_enabled.
Qed.

Lemma takeFetch_only t f : fid t = f → takeFetch f [t] = Some (t, []).
Proof. intros <-. unfold takeFetch. simpl. by rewrite decide_True. Qed.

Lemma not_allInitialSettled cs :
  allInitialSettled cs = false →
  ∃ j c t, cs !! j = Some c ∧ t ∈ inflight c ∧ via t = Initial.
Proof.
  unfold allInitialSettled. induction cs as [|c cs IH]; [done|]. simpl.
  intros [H|H]%andb_false_iff.
  - exists 0, c. clear IH. induction (inflight c) as [|t l IHl]; [done|]. simpl in H.
    apply andb_false_iff in H as [H|H].
    + exists t. split_and!; [done|apply list_elem_of_here|].
      apply bool_decide_eq_false in H. by destruct (decide (via t = Initial)).
    + destruct (IHl H) as (t' & ? & ? & ?). exists t'.
      split_and!; [done|by apply list_elem_of_further|done].
  - destruct (IH H) as (j & c' & t & ? & ? & ?). by exists (S j), c', t.
Qed.

Lemma enabled shipped s :
  counted ceiling s → accounted origs shipped s →
  control s ≠ Finished → control s ≠ Failed →
  ∃ ev, is_Some (step ceiling ev s).
Proof.
  intros Hs Ha Hnf Hnx.
  destruct (control s) eqn:Hc; try done.
  - (* waiting on the initial fetches *)
    destruct (allInitialSettled (cells s)) eqn:Hall.
    + destruct (processNextLogEntry_enabled _ _ Ha) as [k Hk].
      exists (Turn k). simpl. unfold turn. by rewrite Hc, Hall.
    + destruct (not_allInitialSettled _ Hall) as (j & c & t & Hj & Ht & Hv).
      pose proof (counted_cells _ _ Hs _ _ Hj) as Hok.
      pose proof (cell_ok_single _ Hok) as Hlen.
      destruct (inflight c) as [|t' [|]] eqn:Hin; simpl in Hlen; [by apply elem_of_nil in Ht| |lia].
      apply list_elem_of_singleton in Ht as <-.
      exists (Settle j (fid t)). simpl. unfold settle.
      rewrite decide_False by congruence. rewrite Hj. simpl.
      rewrite Hin, takeFetch_only by done. simpl. rewrite Hv. unfold onInitial.
      destruct (yields t) as [[e|]|]; [|done..].
      by destruct (bufferLogs _ _ _).
  - destruct (processNextLogEntry_enabled _ _ Ha) as [k Hk].
    exists (Turn k). simpl. unfold turn. by rewrite Hc.
  - (* CASE 2: the awaited prefetch is in flight *)
    destruct (lookup_lt_is_Some_2 (cells s) i) as [c Hi].
    { apply (acc_held _ _ _ Ha). by rewrite Hc. }
    destruct (accounted_lookup _ _ _ _ _ Ha Hi) as (o & sh & _ & _ & Hci).
    rewrite Hc, grip_self in Hci by done.
    pose proof (counted_cells _ _ Hs _ _ Hi) as Hok.
    destruct (context c) as [x|] eqn:Hx.
    2:{ destruct (cellInv_no_context _ _ _ _ _ Hci Hx) as [_ ?]. done. }
    destruct (cellInv_awaited _ _ _ _ _ _ _ Hci Hx) as [Hp Hrej].
    unfold cell_ok in Hok. rewrite Hx, Hp in Hok.
    destruct Hok as [_ [[r Hin]|[_ ?]]]; [|done].
    exists (Settle i f). simpl. unfold settle.
    rewrite decide_False by congruence. rewrite Hi. simpl.
    rewrite Hin, takeFetch_only by done. simpl.
    unfold onPrefetch. simpl. rewrite Hx. simpl.
    destruct r; [|done]. by destruct (bufferLogs _ _ _).
  - (* CASE 2 continuation *)
    destruct (counted_resumed _ _ Hs _ Hc) as (c & x & Hi & Hx & _).
    exists (Turn 0). simpl. unfold turn. rewrite Hc. unfold onResume, getNextEntry.
    rewrite Hi. simpl. rewrite Hx. simpl.
    destruct (bufferedEntries x); [destruct (drained x)|]; done.
  - (* CASE 4: its fetch is in flight *)
    destruct (lookup_lt_is_Some_2 (cells s) i) as [c Hi].
    { apply (acc_held _ _ _ Ha). by rewrite Hc. }
    destruct (accounted_lookup _ _ _ _ _ Ha Hi) as (o & sh & _ & _ & Hci).
    rewrite Hc, grip_self in Hci by done.
    destruct (context c) as [x|] eqn:Hx.
    2:{ destruct (cellInv_no_context _ _ _ _ _ Hci Hx) as [_ ?]. done. }
    destruct Hci as [_ _ _ _ Hsh]. unfold shape in Hsh. rewrite Hx in Hsh.
    destruct Hsh as (_ & _ & _ & _ & t & Hin & Hv).
    exists (Settle i (fid t)). simpl. unfold settle.
    rewrite decide_False by congruence. rewrite Hi. simpl.
    rewrite Hin, takeFetch_only by done. simpl. rewrite Hv.
    unfold onDirect. simpl. rewrite Hx. simpl. rewrite decide_True by done.
    destruct (yields t) as [[e|]|]; [|done..].
    by destruct (bufferLogs _ _ _).
Qed.


End Progress.

(** * Runs in which no fetch fails *)






Section Calm.

Variable ceiling : Z.




End Calm.




(** * The end of a run *)

(** A cell out of the heap and out of the driver's hands is used up. *)
Lemma cellInv_out c o sh :
  cellInv false None c o sh → cell_ok c → (∀ t, t ∈ inflight c → via t ≠ Initial) →
  inflight c = [] ∧ buffer c = [] ∧ rest (src c) = [] ∧ sh = rest o ∧
  polls (src c) = polls o + length (rest o) + 1 ∧
  (∀ x, context c = Some x → nextEntryPromise x = None).
Proof.
  intros [He _ Hp Hr Hs] Hok Hni.
  unfold shape, cell_ok, future, upcoming, buffer, arriving, signalled, closed in *.
  destruct (context c) as [x|].
  - destruct Hs as [_ [?|(Hb & Hin & Hpr)]]; [done|].
    rewrite Hin, Hb in *. simpl in *. rewrite orb_true_r in *.
    rewrite Hr in * by done. simpl in *. rewrite app_nil_r in He.
    split_and!; try done; [lia|]. by intros ? [= <-].
  - destruct Hok as [Hin|(t & Hin & Hv)].
    + rewrite Hin in *. simpl in *. rewrite Hr in * by done. simpl in *.
      rewrite app_nil_r in He. split_and!; try done. lia.
    + destruct (Hni t); [|done]. rewrite Hin. apply list_elem_of_here.
Qed.

(** Every source was polled past its last entry and nothing is left in the
    engine. *)
Definition exhausted (origs : list logSource) (s : state) : Prop :=
  ∀ j c o, cells s !! j = Some c → origs !! j = Some o →
    inflight c = [] ∧ buffer c = [] ∧ rest (src c) = [] ∧
    polls (src c) = polls o + length (rest o) + 1.

Definition doneOnce (s : state) : Prop :=
  if decide (control s = Finished)
  then heap s = [] ∧ ∃ o', output s = DoneCall :: o' ∧ DoneCall ∉ o'
  else DoneCall ∉ output s.

Section Ending.

Variable ceiling : Z.
Variable origs : list logSource.

Lemma finished_out shipped s j c :
  counted ceiling s → accounted origs shipped s → control s = Finished → heap s = [] →
  cells s !! j = Some c →
  ∃ o sh, origs !! j = Some o ∧ shipped !! j = Some sh ∧
    inflight c = [] ∧ buffer c = [] ∧ rest (src c) = [] ∧ sh = rest o ∧
    polls (src c) = polls o + length (rest o) + 1.
Proof.
  intros Hs Ha Hc Hh Hj.
  destruct (accounted_lookup _ _ _ _ _ Ha Hj) as (o & sh & Ho & Hsh & Hci).
  rewrite Hh, Hc in Hci. rewrite bool_decide_eq_false_2 in Hci by apply not_elem_of_nil.
  rewrite grip_none in Hci by done.
  destruct (cellInv_out _ _ _ Hci) as (? & ? & ? & ? & ? & _).
  - by eapply counted_cells.
  - intros t Ht Hv. pose proof (acc_initial _ _ _ Ha _ _ _ Hj Ht Hv). congruence.
  - by exists o, sh.
Qed.

Lemma finished_exhausted shipped s :
  counted ceiling s → accounted origs shipped s → control s = Finished → heap s = [] →
  exhausted origs s ∧ prints (output s) ≡ₚ concat (rest <$> origs).
Proof.
  intros Hs Ha Hc Hh. split.
  - intros j c o Hj Ho.
    destruct (finished_out _ _ _ _ Hs Ha Hc Hh Hj) as (o' & sh & Ho' & _ & ? & ? & ? & _ & ?).
    by simplify_eq.
  - rewrite (acc_printed _ _ _ Ha).
    assert (shipped = rest <$> origs) as ->; [|done].
    apply list_eq_same_length with (length origs).
    + by rewrite length_fmap.
    + apply (acc_shipped _ _ _ Ha).
    + intros j sh r Hlt Hsh Hr.
      apply list_lookup_fmap_Some in Hr as (o & -> & Ho).
      destruct (lookup_lt_is_Some_2 (cells s) j) as [c Hj].
      { by rewrite (acc_sources _ _ _ Ha). }
      destruct (finished_out _ _ _ _ Hs Ha Hc Hh Hj) as (o' & sh' & ? & ? & _ & _ & _ & ? & _).
      by simplify_eq.
Qed.

Lemma finished_stuck s s' :
  moves ceiling s s' → control s = Finished →
  (∀ j c, cells s !! j = Some c → inflight c = []) → False.
Proof.
  intros Hm Hc Hquiet.
  destruct Hm;
    repeat match goal with
           | H : mayTurn _ |- _ => destruct H as [[? _]|?]
           | H : cells _ !! _ = Some _ |- _ => apply Hquiet in H
           | H : takeFetch _ (inflight ?c) = _, H' : inflight ?c = [] |- _ =>
               rewrite H' in H; done
           end; congruence.
Qed.

Lemma moves_doneOnce s s' :
  tracked ceiling origs s → doneOnce s → moves ceiling s s' → doneOnce s'.
Proof.
  intros [Hs Ha] Hd Hm. unfold doneOnce in *.
  destruct (decide (control s = Finished)) as [Hc|Hc].
  { destruct Hd as [Hh _]. destruct Ha as [shipped Ha]; [congruence|].
    destruct (finished_stuck _ _ Hm Hc). intros j c Hj.
    by destruct (finished_out _ _ _ _ Hs Ha Hc Hh Hj) as (? & ? & _ & _ & ? & _). }
  destruct (decide (control s' = Finished)) as [Hc'|Hc'].
  - destruct (moves_finished _ _ _ Hm Hc') as [?|(_ & _ & Hout)]; [done|].
    split; [|by eauto]. destruct Hm; simpl in *; try done.
    + by destruct (control s).
    + by destruct (decide _).
    + by destruct (decide _).
  - destruct (moves_output _ _ _ Hm) as [->|[(_ & _ & ?)|(k & i & e & _ & _ & _ & ->)]];
      [done..|].
    by intros [?|?]%elem_of_cons.
Qed.

End Ending.

Lemma run_doneOnce ceiling srcs evs s :
  (0 ≤ ceiling)%Z → run ceiling evs (start srcs) = Some s →
  tracked ceiling srcs s ∧ doneOnce s.
Proof.
  intros Hc.
  apply (run_moves ceiling (λ s, tracked ceiling srcs s ∧ doneOnce s)).
  - intros a b [Ht Hd] Hm. split; [by eapply moves_tracked|by eapply moves_doneOnce].
  - split; [by apply start_tracked|]. unfold doneOnce. simpl. apply not_elem_of_nil.
Qed.

(** * Heads *)

(** Head entries the engine holds: one per created context. *)
Definition heads (c : cell) : nat :=
  match context c with
  | Some x => match entry x with Some _ => 1 | None => 0 end
  | None => 0
  end.

Definition totalHeads (s : state) : nat := sum_list_with heads (cells s).

Definition totalPrefetching (s : state) : nat := sum_list_with prefetching (cells s).

Definition headed (s : state) : Prop :=
  ∀ i c x, cells s !! i = Some c → context c = Some x → is_Some (entry x).

Lemma sum_list_with_bound {A} (f : A → nat) (l : list A) n :
  (∀ x, x ∈ l → f x ≤ n) → sum_list_with f l ≤ n * length l.
Proof.
  induction l as [|a l IH]; intros H; simpl; [lia|].
  pose proof (H a (list_elem_of_here _ _)).
  assert (sum_list_with f l ≤ n * length l).
  { apply IH. intros x Hx. apply H. by apply list_elem_of_further. }
  lia.
Qed.

Section Heads.

Variable ceiling : Z.

Lemma bufferLogs_entry n c n' c' x' :
  bufferLogs ceiling n c = (n', c') → context c' = Some x' →
  ∃ x, context c = Some x ∧ entry x' = entry x.
Proof.
  intros H Hx'.
  apply bufferLogs_cases in H as [[-> ->]|(x & r & s' & Hx & _ & _ & _ & _ & -> & ->)];
    [eauto|].
  simpl in Hx'. simplify_eq. eauto.
Qed.

Lemma headed_update s i c' h' n' d' o' :
  headed s → (∀ x, context c' = Some x → is_Some (entry x)) →
  headed (State (<[i:=c']> (cells s)) h' n' d' o').
Proof.
  intros Hs Hc' j c x. simpl. destruct (decide (i = j)) as [->|Hne].
  - intros Hj. pose proof (lookup_lt_Some _ _ _ Hj) as Hlt. rewrite length_insert in Hlt.
    rewrite list_lookup_insert_eq in Hj by done. simplify_eq. apply Hc'.
  - rewrite list_lookup_insert_ne by done. apply Hs.
Qed.

Lemma moves_headed s s' : counted ceiling s → headed s → moves ceiling s s' → headed s'.
Proof.
  intros Hc Hs Hm.
  destruct Hm as
    [ i f c t l Hc' Hi Ht Hv Hy
    | i f c t l Hc' Hi Ht Hv Hy
    | i f c t l e n' c' Hc' Hi Ht Hv Hy Hbuf
    | i f c t l x Hc' Hi Ht Hv Hy Hx
    | i f c t l x r n' c' Hc' Hi Ht Hv Hy Hx Hbuf
    | i f c t l x Hc' Hi Ht Hv Hy Hx
    | i f c t l x Hc' Hi Ht Hv Hy Hx
    | i f c t l x e n' c' Hc' Hi Ht Hv Hy Hx Hbuf
    | Hturn Hh
    | k i c x e b bs n' c' Hturn Hpop Hi Hx He Hb Hbuf
    | k i c x e f Hturn Hpop Hi Hx He Hb Hp
    | k i c x e Hturn Hpop Hi Hx He Hb Hp Hd
    | k i c x e r s1 Hturn Hpop Hi Hx He Hb Hp Hd Hq
    | i c x Hc' Hi Hx Hb Hd
    | i c x n' c' Hc' Hi Hx Hnot Hbuf ];
    try done;
    apply headed_update; try done; simpl;
    try (intros x' Hx'; by eapply Hs);
    try (intros x' Hx';
         destruct (bufferLogs_entry _ _ _ _ _ Hbuf Hx') as (x0 & Hx0 & ->);
         simpl in Hx0; simplify_eq; simpl; try done).
  - destruct r; simpl; by eapply Hs.
  - by rewrite Hb.
  - destruct (counted_resumed _ _ Hc _ Hc') as (c0 & x0 & ? & ? & Hgood). simplify_eq.
    destruct (bufferedEntries x) as [|b bs] eqn:Hb; [|done].
    destruct Hgood as [|Hd]; [done|]. by destruct Hnot.
Qed.

Lemma moves_length s s' : moves ceiling s s' → length (cells s') = length (cells s).
Proof. intros Hm. destruct Hm; simpl; by rewrite ?length_insert. Qed.

End Heads.

Lemma run_headed ceiling srcs evs s :
  (0 ≤ ceiling)%Z → run ceiling evs (start srcs) = Some s →
  headed s ∧ length (cells s) = length srcs.
Proof.
  intros Hc H.
  cut (counted ceiling s ∧ headed s ∧ length (cells s) = length srcs); [tauto|].
  revert H. apply (run_moves ceiling
    (λ s, counted ceiling s ∧ headed s ∧ length (cells s) = length srcs)).
  - intros a b (Ha & Hh & Hl) Hm. split_and!.
    + by eapply moves_counted.
    + by eapply moves_headed.
    + by rewrite (moves_length _ _ _ Hm).
  - split_and!; [by apply start_counted| |by simpl; rewrite length_fmap].
    intros i c x Hi Hx. simpl in Hi.
    apply list_lookup_fmap_Some in Hi as (o & -> & _).
    unfold firstFetch in Hx. by destruct (popAsync o).
Qed.

(** * A fetch that fails *)




Section Failing.

Variable ceiling : Z.






Variable origs : list logSource.



End Failing.

(** * Results on the asynchronous merge *)

(** Scenario A of the specification, and one of its schedules. *)
Definition scenarioA : list logSource :=
  [fresh (at_ <$> [1; 4; 7]%Z) Exhausts;
   fresh (at_ <$> [2; 5; 8]%Z) Exhausts;
   fresh (at_ <$> [3; 6; 9]%Z) Exhausts].

Definition scheduleA : list event :=
  [Settle 0 0; Settle 0 1; Settle 1 0; Settle 2 0; Turn 0; Turn 0; Settle 0 2;
   Settle 1 1; Turn 0; Settle 2 1; Turn 0; Turn 0; Settle 0 3; Settle 1 2; Turn 0;
   Settle 2 2; Turn 0; Turn 0; Settle 1 3; Turn 0; Settle 2 3; Turn 0].

Lemma scenarioA_sorted : Forall (λ o, StronglySorted notAfter (rest o)) scenarioA.
Proof. repeat constructor; unfold notAfter; simpl; lia. Qed.


(** C1. Given sources that are each ascending by timestamp, the entries reach
    the sink in non-decreasing timestamp order: of two printed entries, the
    one printed first is no later than the other.  This holds at every point
    of every run, whatever the ceiling and the order in which fetches
    settle. *)
Theorem async_output_ascending ceiling srcs evs s :
  (0 ≤ ceiling)%Z →
  Forall (λ o, StronglySorted notAfter (rest o)) srcs →
  run ceiling evs (start srcs) = Some s →
  ∀ i j e1 e2,
    i < j → prints (emitted s) !! i = Some e1 → prints (emitted s) !! j = Some e2 →
    (date e1 ≤ date e2)%Z.
Proof.
  intros Hc Hsorted Hrun i j e1 e2 Hij H1 H2.
  destruct (run_wellOrdered _ _ _ _ Hc Hsorted Hrun) as (_ & Hdesc & _).
  unfold emitted in *. rewrite prints_reverse in *.
  apply descending_reverse in Hdesc.
  exact (StronglySorted_pairs _ _ _ _ _ _ Hdesc Hij H1 H2).
Qed.

Lemma async_output_ascending_witness :
  ∃ s, run 1 scheduleA (start scenarioA) = Some s ∧
       prints (emitted s) = at_ <$> [1; 2; 3; 4; 5; 6; 7; 8; 9]%Z ∧
       (date (at_ 2) ≤ date (at_ 7))%Z.
Proof.
  eexists. split; [vm_compute; reflexivity|]. split; [vm_compute; reflexivity|].
  eapply async_output_ascending
    with (ceiling := 1%Z) (srcs := scenarioA) (evs := scheduleA) (i := 1) (j := 6);
    [lia|exact scenarioA_sorted|vm_compute; reflexivity|lia
    |vm_compute; reflexivity|vm_compute; reflexivity].
Defined.


Lemma run_finished ceiling srcs evs s :
  (0 ≤ ceiling)%Z → run ceiling evs (start srcs) = Some s → control s = Finished →
  exhausted srcs s ∧ prints (output s) ≡ₚ concat (rest <$> srcs) ∧
  (∃ o', output s = DoneCall :: o' ∧ DoneCall ∉ o') ∧
  ∀ ev, step ceiling ev s = None.
Proof.
  intros Hc Hrun Hfin.
  destruct (run_doneOnce _ _ _ _ Hc Hrun) as [[Hs Ha] Hd].
  unfold doneOnce in Hd. rewrite decide_True in Hd by done. destruct Hd as [Hh Hout].
  destruct Ha as [shipped Ha]; [congruence|].
  destruct (finished_exhausted _ _ _ _ Hs Ha Hfin Hh) as [Hex Hperm].
  split_and!; [done..|].
  intros ev. destruct (step ceiling ev s) as [s'|] eqn:Hstep; [|done].
  destruct (finished_stuck _ _ _ (step_moves _ _ _ _ Hstep) Hfin).
  intros j c Hj. destruct (lookup_lt_is_Some_2 srcs j) as [o Ho].
  { rewrite <-(acc_sources _ _ _ Ha). by eapply lookup_lt_Some. }
  by destruct (Hex _ _ _ Hj Ho).
Qed.




Lemma counted_buffer_bound ceiling s :
  counted ceiling s → (Z.of_nat (totalBuffered s) ≤ ceiling)%Z.
Proof.
  intros Hs. pose proof (counted_sum _ _ Hs). pose proof (counted_cap _ _ Hs).
  assert (totalBuffered s ≤ sum_list_with credit (cells s)); [|lia].
  apply sum_list_with_le. intros c _. unfold credit. lia.
Qed.

(** C3. At every point of every run the read-ahead buffers of all sources
    hold at most [ceiling] entries in total. *)
Theorem buffers_within_ceiling ceiling srcs evs s :
  (0 ≤ ceiling)%Z → run ceiling evs (start srcs) = Some s →
  (Z.of_nat (totalBuffered s) ≤ ceiling)%Z.
Proof. intros Hc Hrun. eapply counted_buffer_bound, run_counted; eauto. Qed.

Lemma buffers_within_ceiling_witness :
  ∃ s, run 1 (take 3 scheduleA) (start scenarioA) = Some s ∧
       totalBuffered s = 1 ∧ (Z.of_nat (totalBuffered s) ≤ 1)%Z.
Proof.
  eexists. split; [vm_compute; reflexivity|]. split; [reflexivity|].
  eapply buffers_within_ceiling with (srcs := scenarioA) (evs := take 3 scheduleA);
    [lia|vm_compute; reflexivity].
Defined.

Lemma prints_only l : DoneCall ∉ l → l = PrintCall <$> prints l.
Proof.
  induction l as [|[e|] l IH]; intros H; simpl; [done| |].
  - f_equal. apply IH. intros ?. apply H. by apply list_elem_of_further.
  - destruct H. apply list_elem_of_here.
Qed.



(** C6 as stated fails: right after the first prefetch is issued the counter
    is 1 while every buffer is empty. *)
Lemma counter_differs_from_buffered :
  ∃ s, run MAX_LOG_ENTRY_BUFFER_SIZE [Settle 0 0] (start scenarioA) = Some s ∧
       numLogEntriesBuffered s = 1%Z ∧ totalBuffered s = 0.
Proof. eexists. split; [vm_compute; reflexivity|]. split; reflexivity. Defined.

(** C6, amended. At every point of every run the counter is at least the
    number of buffered entries plus the number of prefetches in flight (a
    slot is taken when the fetch is issued, before its entry arrives), and
    at most the ceiling. *)
Theorem counter_covers_buffered ceiling srcs evs s :
  (0 ≤ ceiling)%Z → run ceiling evs (start srcs) = Some s →
  (Z.of_nat (totalBuffered s + totalPrefetching s) ≤ numLogEntriesBuffered s ≤ ceiling)%Z.
Proof.
  intros Hc Hrun. pose proof (run_counted _ Hc _ _ _ Hrun) as Hs.
  pose proof (counted_sum _ _ Hs). pose proof (counted_cap _ _ Hs).
  assert (totalBuffered s + totalPrefetching s ≤ sum_list_with credit (cells s)); [|lia].
  unfold totalBuffered, totalPrefetching. generalize (cells s). intros l.
  induction l as [|c l IH]; simpl; [lia|]. unfold credit at 1. lia.
Qed.

Lemma counter_covers_buffered_witness :
  ∃ s, run 1 (take 3 scheduleA) (start scenarioA) = Some s ∧
       (Z.of_nat (totalBuffered s + totalPrefetching s) ≤ numLogEntriesBuffered s ≤ 1)%Z.
Proof.
  eexists. split; [vm_compute; reflexivity|].
  eapply counter_covers_buffered with (srcs := scenarioA) (evs := take 3 scheduleA);
    [lia|vm_compute; reflexivity].
Defined.

(** C7. At every point of every run each source has at most one [popAsync]
    call outstanding. *)
Theorem one_fetch_per_source ceiling srcs evs s :
  (0 ≤ ceiling)%Z → run ceiling evs (start srcs) = Some s →
  ∀ i c, cells s !! i = Some c → length (inflight c) ≤ 1.
Proof.
  intros Hc Hrun i c Hi. apply cell_ok_single.
  eapply counted_cells; [by eapply run_counted|done].
Qed.

Lemma one_fetch_per_source_witness :
  ∃ s c, run 1 (take 2 scheduleA) (start scenarioA) = Some s ∧
         cells s !! 0 = Some c ∧ length (inflight c) ≤ 1.
Proof.
  eexists. eexists. split; [vm_compute; reflexivity|]. split; [reflexivity|].
  eapply one_fetch_per_source
    with (ceiling := 1%Z) (srcs := scenarioA) (evs := take 2 scheduleA) (i := 0);
    [lia|vm_compute; reflexivity|reflexivity].
Defined.

(** C9. [getNextEntry] never shifts an empty buffer: no context ever has an
    undefined head (the model stores [None] in [entry] when [shift] finds
    the array empty), and when the driver resumes after waiting on a fetch
    in flight the buffer is non-empty or the source is marked drained. *)
Theorem promoted_head_defined ceiling srcs evs s :
  (0 ≤ ceiling)%Z → run ceiling evs (start srcs) = Some s →
  (∀ i c x, cells s !! i = Some c → context c = Some x → is_Some (entry x)) ∧
  (∀ i, control s = Resumed i →
     ∃ c x, cells s !! i = Some c ∧ context c = Some x ∧
            (bufferedEntries x ≠ [] ∨ drained x = true)).
Proof.
  intros Hc Hrun. split.
  - by destruct (run_headed _ _ _ _ Hc Hrun).
  - apply counted_resumed with ceiling. by eapply run_counted.
Qed.

(** A schedule in which the driver has to wait for a prefetch (CASE 2). *)
Definition scheduleWait : list event :=
  [Settle 0 0; Settle 1 0; Settle 2 0; Turn 0; Settle 0 1].

Lemma promoted_head_defined_witness :
  ∃ s, run 1 scheduleWait (start scenarioA) = Some s ∧
       control s = Resumed 0 ∧
       (∀ i c x, cells s !! i = Some c → context c = Some x → is_Some (entry x)) ∧
       (∀ i, control s = Resumed i →
          ∃ c x, cells s !! i = Some c ∧ context c = Some x ∧
                 (bufferedEntries x ≠ [] ∨ drained x = true)).
Proof.
  eexists. split; [vm_compute; reflexivity|]. split; [reflexivity|].
  eapply promoted_head_defined
    with (ceiling := 1%Z) (srcs := scenarioA) (evs := scheduleWait);
    [lia|vm_compute; reflexivity].
Defined.

(** C10. At every point of every run the buffered entries plus the heads of
    the contexts number at most the ceiling plus the number of sources. *)
Theorem entries_held_bound ceiling srcs evs s :
  (0 ≤ ceiling)%Z → run ceiling evs (start srcs) = Some s →
  (Z.of_nat (totalBuffered s + totalHeads s) ≤ ceiling + Z.of_nat (length srcs))%Z.
Proof.
  intros Hc Hrun.
  pose proof (counted_buffer_bound _ _ (run_counted _ Hc _ _ _ Hrun)) as Hb.
  destruct (run_headed _ _ _ _ Hc Hrun) as [_ Hlen].
  assert (totalHeads s ≤ 1 * length (cells s)); [|lia].
  apply sum_list_with_bound. intros c _. unfold heads.
  destruct (context c) as [x|]; [destruct (entry x)|]; lia.
Qed.

Lemma entries_held_bound_witness :
  ∃ s, run 1 (take 4 scheduleA) (start scenarioA) = Some s ∧
       totalBuffered s + totalHeads s = 4 ∧
       (Z.of_nat (totalBuffered s + totalHeads s) ≤ 1 + Z.of_nat (length scenarioA))%Z.
Proof.
  eexists. split; [vm_compute; reflexivity|]. split; [reflexivity|].
  eapply entries_held_bound with (ceiling := 1%Z) (evs := take 4 scheduleA);
    [lia|vm_compute; reflexivity].
Defined.

(** Scenario E of the specification: the second prefetch of the first source
    fails while the second source still has entries. *)
Definition scenarioE : list logSource :=
  [fresh (at_ <$> [1; 5]%Z) Rejects; fresh (at_ <$> [2; 3; 4]%Z) Exhausts].

Definition beforeFailure : list event :=
  [Settle 0 0; Settle 1 0; Turn 0; Settle 0 1; Turn 0; Turn 0].

Definition afterFailure : list event :=
  [Settle 1 1; Turn 0; Turn 1; Settle 1 2; Turn 0; Turn 1; Settle 1 3; Turn 0; Turn 0].




(** * The synchronous baseline: invariants *)

Module SyncFacts.
Import Sync.

(** Entries of source [i] that sit in the heap. *)
Definition queued (i : nat) (h : list item) : list logEntry :=
  entry <$> filter (λ it, source it = i) h.

Lemma queued_app i h1 h2 : queued i (h1 ++ h2) = queued i h1 ++ queued i h2.
Proof. unfold queued. by rewrite filter_app, fmap_app. Qed.

Lemma queued_none i h : (∀ it, it ∈ h → source it ≠ i) → queued i h = [].
Proof.
  unfold queued. induction h as [|it h IH]; intros H; [done|].
  rewrite filter_cons, decide_False by (apply H, list_elem_of_here).
  apply IH. intros it' Hit'. apply H. by apply list_elem_of_further.
Qed.

Lemma queued_elem i h e : e ∈ queued i h → Item i e ∈ h.
Proof.
  unfold queued. intros (it & -> & Hit)%list_elem_of_fmap.
  apply list_elem_of_filter in Hit as [<- Hit]. by destruct it.
Qed.

Lemma queued_push i j e h :
  queued i (heapPush (Item j e) h) = queued i h ++ (if decide (j = i) then [e] else []).
Proof.
  unfold heapPush. rewrite queued_app. f_equal. unfold queued.
  rewrite filter_cons, filter_nil. simpl. by destruct (decide (j = i)).
Qed.

Lemma queued_delete h k it :
  NoDup (source <$> h) → h !! k = Some it →
  queued (source it) h = [entry it] ∧ queued (source it) (delete k h) = [] ∧
  ∀ i, i ≠ source it → queued i (delete k h) = queued i h.
Proof.
  revert k. induction h as [|a h IH]; intros [|k] Hnd Hk; simplify_eq/=.
  - apply NoDup_cons in Hnd as [Ha Hnd].
    assert (queued (source it) h = []) as Hnone.
    { apply queued_none. intros it' Hit' Heq. apply Ha. rewrite <-Heq.
      by apply list_elem_of_fmap_2. }
    unfold queued in *. rewrite filter_cons, decide_True by done.
    rewrite fmap_cons, Hnone. split_and!; [done..|].
    intros i Hne. by rewrite filter_cons, decide_False.
  - apply NoDup_cons in Hnd as [Ha Hnd].
    destruct (IH _ Hnd Hk) as (H1 & H2 & H3).
    assert (source a ≠ source it) as Hne.
    { intros Heq. apply Ha. rewrite Heq. apply list_elem_of_fmap_2.
      by eapply list_elem_of_lookup_2. }
    unfold queued in *. rewrite !filter_cons, !decide_False by done.
    split_and!; [done..|].
    intros i Hi. rewrite !filter_cons.
    destruct (decide (source a = i)); rewrite ?fmap_cons, H3; done.
Qed.

Lemma heapPop_item k h it h' :
  heapPop k h = Some (it, h') →
  h !! k = Some it ∧ h' = delete k h ∧ earliest (entry it) h = true.
Proof.
  unfold heapPop. intros H.
  destruct (h !! k) as [it'|] eqn:Hk; simpl in H; [|done].
  destruct (earliest (entry it') h) eqn:He; [|done]. by simplify_eq.
Qed.

Lemma earliest_item_spec a h :
  earliest a h = true → ∀ it, it ∈ h → notAfter a (entry it).
Proof.
  unfold earliest. rewrite forallb_forall. intros H it Hit.
  specialize (H it (proj1 (list_elem_of_In _ _) Hit)).
  unfold notAfter, compare in *. lia.
Qed.



Record inv (origs : list logSource) (n : nat) (shipped : list (list logEntry))
    (st : state) : Prop := Inv {
  inv_sources : length (sources st) = length origs;
  inv_shipped : length shipped = length origs;
  inv_printed : prints (output st) ≡ₚ concat shipped;
  inv_done : DoneCall ∉ output st;
  inv_nodup : NoDup (source <$> heap st);
  inv_heap : ∀ it, it ∈ heap st → source it < n;
  inv_cell : ∀ i s o sh,
    sources st !! i = Some s → origs !! i = Some o → shipped !! i = Some sh →
    sh ++ queued i (heap st) ++ rest s = rest o ∧
    (i < n → queued i (heap st) = [] → rest s = []) ∧
    (n ≤ i → s = o)
}.

Lemma pop_cases s :
  (∃ e, pop s = (Some e, LogSource (tail (rest s)) (fate s) (S (polls s))) ∧
        rest s = e :: tail (rest s)) ∨
  (pop s = (None, LogSource [] (fate s) (S (polls s))) ∧ rest s = []).
Proof. unfold pop. destruct (rest s) as [|e r]; [right|left]; eauto. Qed.

Lemma begin_inv_start srcs :
  inv srcs 0 (replicate (length srcs) []) (State srcs [] []).
Proof.
  split; simpl; try done.
  - by rewrite length_replicate.
  - induction srcs; simpl; auto.
  - apply not_elem_of_nil.
  - apply NoDup_nil_2.
  - by intros it ?%elem_of_nil.
  - intros i s o sh Hs Ho Hsh. simplify_eq.
    apply lookup_replicate in Hsh as [-> _]. split_and!; [done|lia|done].
Qed.

Lemma readFirst_inv origs n shipped st :
  inv origs n shipped st → n < length origs → inv origs (S n) shipped (readFirst st n).
Proof.
  intros [Hlen Hsh Hpr Hdone Hnd Hheap Hcell] Hn. unfold readFirst.
  destruct (sources st !! n) as [s|] eqn:Hs.
  2:{ apply lookup_ge_None in Hs. lia. }
  assert (Hfresh : ∀ it, it ∈ heap st → source it ≠ n).
  { intros it Hit. specialize (Hheap it Hit). lia. }
  destruct (pop s) as [r s'] eqn:Hpop.
  assert (Hframe : ∀ i si o sh h',
    (∀ j, j ≠ n → queued j h' = queued j (heap st)) →
    (<[n:=s']> (sources st)) !! i = Some si → i ≠ n →
    origs !! i = Some o → shipped !! i = Some sh →
    sh ++ queued i h' ++ rest si = rest o ∧
    (i < S n → queued i h' = [] → rest si = []) ∧ (S n ≤ i → si = o)).
  { intros i si o sh h' Hq Hi Hne Ho Hshi.
    rewrite list_lookup_insert_ne in Hi by done. rewrite Hq by done.
    destruct (Hcell _ _ _ _ Hi Ho Hshi) as (? & ? & ?). split_and!; [done| |].
    - intros ?. apply H0. lia.
    - intros ?. apply H1. lia. }
  split; simpl; rewrite ?length_insert; try done.
  - destruct r; [|done]. unfold heapPush. rewrite fmap_app. apply NoDup_app.
    split_and!; [done| |apply NoDup_singleton].
    intros j (it & -> & Hit)%list_elem_of_fmap ?%list_elem_of_singleton.
    by destruct (Hfresh it Hit).
  - intros it Hit. destruct r.
    + apply elem_of_app in Hit as [Hit| ->%list_elem_of_singleton]; [|simpl; lia].
      specialize (Hheap it Hit). lia.
    + specialize (Hheap it Hit). lia.
  - intros i si o sh Hi Ho Hshi.
    destruct (decide (i = n)) as [->|Hne].
    + rewrite list_lookup_insert_eq in Hi by (by eapply lookup_lt_Some). simplify_eq.
      destruct (Hcell _ _ _ _ Hs Ho Hshi) as (He & _ & Hsame).
      rewrite (Hsame (le_n _)) in *. rewrite (queued_none n) in He by done.
      destruct (pop_cases o) as [(e & Hp & Hr)|[Hp Hr]]; rewrite Hp in Hpop; simplify_eq/=.
      * rewrite queued_push, (queued_none n), decide_True by done.
        simpl. rewrite <-Hr. split_and!; [done|done|lia].
      * rewrite (queued_none n) by done. simpl. rewrite Hr in He |- *.
        split_and!; [done|done|lia].
    + eapply Hframe; eauto. intros j Hj. destruct r; [|done].
      rewrite queued_push, decide_False by done. by rewrite app_nil_r.
Qed.

Lemma begin_inv srcs :
  ∃ shipped, inv srcs (length srcs) shipped (begin srcs).
Proof.
  exists (replicate (length srcs) []). unfold begin.
  assert (∀ m n st, inv srcs n (replicate (length srcs) []) st → n + m = length srcs →
            inv srcs (length srcs) (replicate (length srcs) [])
                (foldl readFirst st (seq n m))) as H.
  { induction m as [|m IH]; intros n st Hinv Hn; simpl.
    - assert (n = length srcs) by lia. by subst n.
    - apply IH; [|lia]. apply readFirst_inv; [done|lia]. }
  apply H; [apply begin_inv_start|done].
Qed.

Lemma iterate_Some k st st' :
  iterate k st = Some st' →
  ∃ it s r s',
    heapPop k (heap st) = Some (it, delete k (heap st)) ∧
    sources st !! source it = Some s ∧ pop s = (r, s') ∧
    st' = State (<[source it:=s']> (sources st))
                (match r with
                 | Some e => heapPush (Item (source it) e) (delete k (heap st))
                 | None => delete k (heap st)
                 end)
                (PrintCall (entry it) :: output st).
Proof.
  unfold iterate. intros H.
  destruct (heapPop k (heap st)) as [[it h']|] eqn:Hp; simpl in H; [|done].
  destruct (heapPop_item _ _ _ _ Hp) as (_ & -> & _).
  destruct (sources st !! source it) as [s|] eqn:Hs; simpl in H; [|done].
  destruct (pop s) as [r s'] eqn:Hpop. simplify_eq. by exists it, s, r, s'.
Qed.

Lemma iterate_inv origs shipped k st st' :
  inv origs (length origs) shipped st → iterate k st = Some st' →
  ∃ it sh,
    heapPop k (heap st) = Some (it, delete k (heap st)) ∧
    shipped !! source it = Some sh ∧
    output st' = PrintCall (entry it) :: output st ∧
    inv origs (length origs) (<[source it:=sh ++ [entry it]]> shipped) st'.
Proof.
  intros [Hlen Hsh Hpr Hdone Hnd Hheap Hcell] Hit.
  destruct (iterate_Some _ _ _ Hit) as (it & s & r & s' & Hp & Hs & Hpop & ->).
  destruct (heapPop_item _ _ _ _ Hp) as (Hk & _ & Hmin).
  pose proof (list_elem_of_lookup_2 _ _ _ Hk) as Hmem.
  pose proof (Hheap _ Hmem) as Hlt.
  destruct (lookup_lt_is_Some_2 shipped (source it)) as [sh Hshi]; [lia|].
  destruct (lookup_lt_is_Some_2 origs (source it)) as [o Ho]; [lia|].
  destruct (queued_delete _ _ _ Hnd Hk) as (Hq1 & Hq2 & Hq3).
  assert (Hnd' : NoDup (source <$> delete k (heap st))).
  { eapply sublist_NoDup; [done|]. apply fmap_sublist, sublist_delete. }
  assert (Hgone : ∀ it', it' ∈ delete k (heap st) → source it' ≠ source it).
  { intros it' Hit' Heq.
    assert (entry it' ∈ queued (source it) (delete k (heap st))) as Hin.
    { unfold queued. apply list_elem_of_fmap_2, list_elem_of_filter. done. }
    rewrite Hq2 in Hin. by apply elem_of_nil in Hin. }
  exists it, sh. split_and!; [done..|].
  split; simpl; rewrite ?length_insert; try done.
  - rewrite Hpr. symmetry. by apply concat_insert_snoc.
  - by intros [?|?]%elem_of_cons.
  - destruct r; [|done]. unfold heapPush. rewrite fmap_app. apply NoDup_app.
    split_and!; [done| |apply NoDup_singleton].
    intros j (it' & -> & Hit')%list_elem_of_fmap ?%list_elem_of_singleton.
    by destruct (Hgone it' Hit').
  - intros it' Hit'. destruct r.
    + apply elem_of_app in Hit' as [Hit'| ->%list_elem_of_singleton]; [|done].
      apply Hheap. by eapply list_elem_of_delete_inv.
    + apply Hheap. by eapply list_elem_of_delete_inv.
  - intros i si oi shi Hi Hoi Hshi'.
    destruct (decide (i = source it)) as [->|Hne].
    + rewrite list_lookup_insert_eq in Hi by (by eapply lookup_lt_Some).
      rewrite list_lookup_insert_eq in Hshi' by (by eapply lookup_lt_Some). simplify_eq.
      destruct (Hcell _ _ _ _ Hs Ho Hshi) as (He & _ & _). rewrite Hq1 in He.
      destruct (pop_cases s) as [(e & Hp' & Hr)|[Hp' Hr]]; rewrite Hp' in Hpop;
        simplify_eq/=.
      * rewrite queued_push, Hq2, decide_True by done. simpl.
        rewrite <-app_assoc. simpl. rewrite <-Hr. split_and!; [done|done|lia].
      * rewrite Hq2. rewrite Hr in He. rewrite <-app_assoc. split_and!; [done|done|lia].
    + rewrite list_lookup_insert_ne in Hi by done.
      rewrite list_lookup_insert_ne in Hshi' by done.
      assert (queued i (match r with
                        | Some e => heapPush (Item (source it) e) (delete k (heap st))
                        | None => delete k (heap st)
                        end) = queued i (heap st)) as ->.
      { destruct r; rewrite ?queued_push, ?decide_False, ?app_nil_r by done; by apply Hq3. }
      by apply Hcell.
Qed.





(** Every printed entry is no later than every entry still to print. *)
Definition sequenced (st : state) : Prop :=
  ∀ p i s e,
    p ∈ prints (output st) → sources st !! i = Some s →
    e ∈ queued i (heap st) ++ rest s → notAfter p e.

Lemma iterate_sequenced origs shipped k st st' :
  Forall (λ o, StronglySorted notAfter (rest o)) origs →
  inv origs (length origs) shipped st → sequenced st → descending (prints (output st)) →
  iterate k st = Some st' →
  sequenced st' ∧ descending (prints (output st')).
Proof.
  intros Hsorted Hinv Hord Hdesc Hit.
  destruct (iterate_inv _ _ _ _ _ Hinv Hit) as (it & sh & Hp & Hsh & Hout & Hinv').
  destruct (heapPop_item _ _ _ _ Hp) as (Hk & _ & Hmin).
  pose proof (list_elem_of_lookup_2 _ _ _ Hk) as Hmem.
  pose proof (queued_delete _ _ _ (inv_nodup _ _ _ _ Hinv) Hk) as (Hq1 & _ & _).
  assert (Hfut : ∀ i s, sources st !! i = Some s →
            StronglySorted notAfter (queued i (heap st) ++ rest s)).
  { intros i s Hs.
    destruct (lookup_lt_is_Some_2 origs i) as [o Ho].
    { rewrite <-(inv_sources _ _ _ _ Hinv). by eapply lookup_lt_Some. }
    destruct (lookup_lt_is_Some_2 shipped i) as [shi Hshi].
    { rewrite (inv_shipped _ _ _ _ Hinv), <-(inv_sources _ _ _ _ Hinv).
      by eapply lookup_lt_Some. }
    destruct (inv_cell _ _ _ _ Hinv _ _ _ _ Hs Ho Hshi) as (He & _).
    pose proof (proj1 (Forall_lookup _ _) Hsorted _ _ Ho) as Hso. simpl in Hso.
    rewrite <-He in Hso. by apply StronglySorted_app_1_r in Hso. }
  destruct (lookup_lt_is_Some_2 (sources st) (source it)) as [s0 Hs0].
  { rewrite (inv_sources _ _ _ _ Hinv). exact (inv_heap _ _ _ _ Hinv _ Hmem). }
  assert (Hbound : Forall (λ p, notAfter p (entry it)) (prints (output st))).
  { apply Forall_forall. intros p Hp'. eapply Hord; eauto.
    rewrite Hq1. apply list_elem_of_here. }
  split; [|rewrite Hout; simpl; by constructor].
  intros p i s' e Hp' Hs' He. rewrite Hout in Hp'. simpl in Hp'.
  destruct (lookup_lt_is_Some_2 origs i) as [o Ho].
  { rewrite <-(inv_sources _ _ _ _ Hinv'). by eapply lookup_lt_Some. }
  destruct (lookup_lt_is_Some_2 (sources st) i) as [s Hs].
  { rewrite (inv_sources _ _ _ _ Hinv), <-(inv_sources _ _ _ _ Hinv').
    by eapply lookup_lt_Some. }
  destruct (lookup_lt_is_Some_2 shipped i) as [shi Hshi].
  { rewrite (inv_shipped _ _ _ _ Hinv), <-(inv_sources _ _ _ _ Hinv).
    by eapply lookup_lt_Some. }
  destruct (inv_cell _ _ _ _ Hinv _ _ _ _ Hs Ho Hshi) as (He0 & Hnone & _).
  pose proof (Hfut _ _ Hs) as Hsi.
  destruct (decide (i = source it)) as [->|Hne].
  - assert (shi = sh) as -> by congruence.
    destruct (inv_cell _ _ _ _ Hinv' _ _ _ (sh ++ [entry it]) Hs' Ho) as (He1 & _).
    { by rewrite list_lookup_insert_eq by (by eapply lookup_lt_Some). }
    rewrite <-He0, <-app_assoc in He1. apply app_inv_head in He1. simpl in He1.
    rewrite <-He1 in Hsi.
    apply elem_of_cons in Hp' as [->|Hp'].
    + apply StronglySorted_inv in Hsi as [_ Hall].
      by apply (proj1 (Forall_forall _ _) Hall).
    + eapply Hord; eauto. rewrite <-He1. by apply list_elem_of_further.
  - destruct (inv_cell _ _ _ _ Hinv' _ _ _ shi Hs' Ho) as (He1 & _).
    { by rewrite list_lookup_insert_ne. }
    rewrite <-He0 in He1. apply app_inv_head in He1. rewrite He1 in He.
    apply elem_of_cons in Hp' as [->|Hp']; [|by eapply Hord; eauto].
    destruct (queued i (heap st)) as [|b q] eqn:Hq.
    + rewrite Hnone in He; [by apply elem_of_nil in He| |done].
      rewrite <-(inv_sources _ _ _ _ Hinv). by eapply lookup_lt_Some.
    + assert (notAfter (entry it) b) as Hb.
      { apply (earliest_item_spec _ _ Hmin (Item i b)). apply queued_elem.
        rewrite Hq. apply list_elem_of_here. }
      simpl in He, Hsi. apply elem_of_cons in He as [->|He]; [done|].
      apply StronglySorted_inv in Hsi as [_ Hall].
      pose proof (proj1 (Forall_forall _ _) Hall _ He). unfold notAfter in *. lia.
Qed.

Lemma loop_sound origs shipped ks st st' :
  Forall (λ o, StronglySorted notAfter (rest o)) origs →
  inv origs (length origs) shipped st → sequenced st → descending (prints (output st)) →
  loop ks st = Some st' →
  ∃ o', output st' = DoneCall :: o' ∧ (DoneCall ∉ o') ∧
        prints o' ≡ₚ concat (rest <$> origs) ∧ descending (prints o').
Proof.
  intros Hsorted. revert shipped st.
  induction ks as [|k ks IH]; intros shipped st Hinv Hord Hdesc Hloop.
  all: destruct (heap st) as [|it h] eqn:Hh; simpl in Hloop; rewrite Hh in Hloop;
    simplify_eq/=.
  1,2: exists (output st); split_and!; [done|by eapply inv_done|..|done].
  1,2: rewrite (inv_printed _ _ _ _ Hinv);
    assert (shipped = rest <$> origs) as ->; [|done];
    apply list_eq_same_length with (length origs);
      [by rewrite length_fmap|by eapply inv_shipped|];
    intros i sh r Hlt Hsh Hr;
    apply list_lookup_fmap_Some in Hr as (o & -> & Ho);
    destruct (lookup_lt_is_Some_2 (sources st) i) as [s Hs];
      [by rewrite (inv_sources _ _ _ _ Hinv)|];
    destruct (inv_cell _ _ _ _ Hinv _ _ _ _ Hs Ho Hsh) as (He & Hnone & _);
    rewrite Hh in He, Hnone; unfold queued in He, Hnone; simpl in He, Hnone;
    rewrite Hnone in He by done; by rewrite app_nil_r in He.
  destruct (iterate k st) as [st1|] eqn:Hit; simpl in Hloop; [|done].
  destruct (iterate_inv _ _ _ _ _ Hinv Hit) as (? & ? & _ & _ & _ & Hinv1).
  destruct (iterate_sequenced _ _ _ _ _ Hsorted Hinv Hord Hdesc Hit) as [Hord1 Hdesc1].
  eauto.
Qed.

Lemma begin_sequenced srcs : sequenced (begin srcs) ∧ descending (prints (output (begin srcs))).
Proof.
  assert (output (begin srcs) = []) as Hout.
  { unfold begin. generalize (seq 0 (length srcs)). intros l0.
    assert (∀ l st, output st = [] → output (foldl readFirst st l) = []) as H; [|by apply H].
    induction l as [|i l IH]; intros st Hst; simpl; [done|]. apply IH.
    unfold readFirst. destruct (sources st !! i); [|done]. by destruct (pop _). }
  split.
  - intros p i s e Hp. rewrite Hout in Hp. by apply elem_of_nil in Hp.
  - rewrite Hout. constructor.
Qed.


(** What it returns: the entries of the sources, in ascending order,
    followed by the one completion call. *)
Lemma merge_sound srcs ks out :
  Forall (λ o, StronglySorted notAfter (rest o)) srcs →
  merge ks srcs = Some out →
  out = (PrintCall <$> prints out) ++ [DoneCall] ∧
  prints out ≡ₚ concat (rest <$> srcs) ∧
  StronglySorted notAfter (prints out).
Proof.
  intros Hsorted Hm. unfold merge in Hm.
  destruct (loop ks (begin srcs)) as [st|] eqn:Hloop; simplify_eq/=.
  destruct (begin_inv srcs) as [shipped Hinv].
  destruct (begin_sequenced srcs) as [Hord Hdesc].
  destruct (loop_sound _ _ _ _ _ Hsorted Hinv Hord Hdesc Hloop)
    as (o' & Hout & Hno & Hperm & Hdesc').
  rewrite Hout, reverse_cons, prints_app. simpl. rewrite app_nil_r.
  split_and!.
  - f_equal. apply prints_only. by rewrite elem_of_reverse.
  - by rewrite prints_reverse, reverse_Permutation.
  - rewrite prints_reverse. by apply descending_reverse.
Qed.

End SyncFacts.

(** * Results on the two procedures together *)




(** * Further properties of the asynchronous merge *)

(** ** The counter, exactly *)

Definition totalLeaked (s : state) : nat := sum_list_with leaked (cells s).

Lemma sum_list_with_add {A} (f g : A → nat) (l : list A) :
  sum_list_with (λ x, f x + g x) l = sum_list_with f l + sum_list_with g l.
Proof. induction l as [|a l IH]; simpl; lia. Qed.

(** X1. The counter is the number of buffered entries, plus the prefetches in
    flight, plus one for every context marked drained and one for every
    rejected prefetch: these last increments are never taken back. *)
Theorem counter_exact ceiling srcs evs s :
  (0 ≤ ceiling)%Z → run ceiling evs (start srcs) = Some s →
  numLogEntriesBuffered s
  = Z.of_nat (totalBuffered s + totalPrefetching s + totalLeaked s).
Proof.
  intros Hc Hrun. rewrite (counted_sum _ _ (run_counted _ Hc _ _ _ Hrun)). f_equal.
  unfold totalBuffered, totalPrefetching, totalLeaked.
  rewrite <-!sum_list_with_add. done.
Qed.

Lemma counter_exact_witness :
  ∃ s, run 1 scheduleA (start scenarioA) = Some s ∧ control s = Finished ∧
       totalBuffered s = 0 ∧ totalPrefetching s = 0 ∧ totalLeaked s = 1 ∧
       numLogEntriesBuffered s
       = Z.of_nat (totalBuffered s + totalPrefetching s + totalLeaked s).
Proof.
  eexists. split; [vm_compute; reflexivity|]. split_and!; [reflexivity..|].
  eapply counter_exact with (ceiling := 1%Z) (srcs := scenarioA) (evs := scheduleA);
    [lia|vm_compute; reflexivity].
Defined.

(** ** No stall *)

(** X2. As long as the returned promise is neither resolved nor rejected, some
    callback can run. *)
Theorem merge_never_stalls ceiling srcs evs s :
  (0 ≤ ceiling)%Z → run ceiling evs (start srcs) = Some s →
  control s ≠ Finished → control s ≠ Failed →
  ∃ ev s', step ceiling ev s = Some s'.
Proof.
  intros Hc Hrun Hnf Hnx.
  destruct (run_tracked _ _ _ _ Hc Hrun) as [Hs Ha].
  destruct (Ha Hnx) as [shipped Hacc].
  destruct (enabled ceiling srcs shipped s Hs Hacc Hnf Hnx) as [ev [s' Hs']]. eauto.
Qed.

Lemma merge_never_stalls_witness :
  ∃ s, run 1 scheduleWait (start scenarioA) = Some s ∧ control s = Resumed 0 ∧
       ∃ ev s', step 1 ev s = Some s'.
Proof.
  eexists. split; [vm_compute; reflexivity|]. split; [reflexivity|].
  eapply merge_never_stalls with (srcs := scenarioA) (evs := scheduleWait);
    [lia|vm_compute; reflexivity|discriminate|discriminate].
Defined.

(** ** One output when the dates are distinct *)

Lemma finished_sorted_output ceiling srcs evs s :
  (0 ≤ ceiling)%Z → Forall (λ o, StronglySorted notAfter (rest o)) srcs →
  run ceiling evs (start srcs) = Some s → control s = Finished →
  emitted s = (PrintCall <$> prints (emitted s)) ++ [DoneCall] ∧
  prints (emitted s) ≡ₚ concat (rest <$> srcs) ∧
  StronglySorted notAfter (prints (emitted s)).
Proof.
  intros Hc Hsorted Hrun Hfin.
  destruct (run_finished _ _ _ _ Hc Hrun Hfin) as (_ & Hperm & (o' & Ho' & Hno) & _).
  destruct (run_wellOrdered _ _ _ _ Hc Hsorted Hrun) as (_ & Hdesc & _).
  split_and!.
  - unfold emitted. rewrite Ho', reverse_cons, prints_app. simpl. rewrite app_nil_r.
    f_equal. apply prints_only. by rewrite elem_of_reverse.
  - unfold emitted. by rewrite prints_reverse, reverse_Permutation.
  - unfold emitted. rewrite prints_reverse. by apply descending_reverse.
Qed.

Lemma sorted_distinct_unique (l1 l2 all : list logEntry) :
  NoDup (date <$> all) → l1 ≡ₚ all → l2 ≡ₚ all →
  StronglySorted notAfter l1 → StronglySorted notAfter l2 → l1 = l2.
Proof.
  intros Hnd H1 H2 Hs1 Hs2.
  apply (StronglySorted_unique_strong notAfter); [|done|done|by rewrite H1, H2].
  intros x1 x2 Hx1 Hx2 Hle Hge. rewrite H1 in Hx1. rewrite H2 in Hx2.
  apply list_elem_of_lookup in Hx1 as [i1 Hi1]. apply list_elem_of_lookup in Hx2 as [i2 Hi2].
  assert (i1 = i2) as ->; [|congruence].
  apply (NoDup_lookup _ _ _ (date x1) Hnd).
  - by rewrite list_lookup_fmap, Hi1.
  - rewrite list_lookup_fmap, Hi2. simpl. unfold notAfter in *. f_equal. lia.
Qed.

(** X3. When the sources are ascending and no two entries carry the same date,
    every completed run prints the same sequence, whatever the ceiling and
    the order in which the fetches settle; it is the sequence the
    synchronous baseline prints. *)
Theorem distinct_dates_same_output ceiling1 ceiling2 srcs evs1 evs2 s1 s2 :
  (0 ≤ ceiling1)%Z → (0 ≤ ceiling2)%Z →
  Forall (λ o, StronglySorted notAfter (rest o)) srcs →
  NoDup (date <$> concat (rest <$> srcs)) →
  run ceiling1 evs1 (start srcs) = Some s1 → control s1 = Finished →
  run ceiling2 evs2 (start srcs) = Some s2 → control s2 = Finished →
  emitted s1 = emitted s2 ∧
  ∀ ks out, Sync.merge ks srcs = Some out → out = emitted s1.
Proof.
  intros Hc1 Hc2 Hsorted Hnd Hrun1 Hfin1 Hrun2 Hfin2.
  destruct (finished_sorted_output _ _ _ _ Hc1 Hsorted Hrun1 Hfin1) as (Ho1 & Hp1 & Hs1).
  destruct (finished_sorted_output _ _ _ _ Hc2 Hsorted Hrun2 Hfin2) as (Ho2 & Hp2 & Hs2).
  split.
  - rewrite Ho1, Ho2. do 2 f_equal. by eapply sorted_distinct_unique.
  - intros ks out Hm.
    destruct (SyncFacts.merge_sound _ _ _ Hsorted Hm) as (Hout & Hperm & Hasc).
    rewrite Hout, Ho1. do 2 f_equal. by eapply sorted_distinct_unique.
Qed.

(** Another order of arrival for scenario A, under a larger ceiling: the
    third source is read ahead to its end before anything is printed. *)
Definition scheduleB : list event :=
  [Settle 2 0; Settle 2 1; Settle 2 2; Settle 2 3; Settle 1 0; Settle 0 0; Turn 2;
   Settle 0 1; Turn 1; Settle 1 1; Turn 0; Turn 0; Settle 0 2; Turn 0; Settle 1 2;
   Turn 0; Turn 0; Settle 0 3; Turn 0; Turn 0; Settle 1 3; Turn 0; Turn 0].

Lemma scenarioA_distinct : NoDup (date <$> concat (rest <$> scenarioA)).
Proof. apply (bool_decide_eq_true_1 _). vm_compute. reflexivity. Qed.

Lemma distinct_dates_same_output_witness :
  ∃ s1 s2,
    run 1 scheduleA (start scenarioA) = Some s1 ∧
    run 3 scheduleB (start scenarioA) = Some s2 ∧
    emitted s1 = emitted s2 ∧
    ∀ ks out, Sync.merge ks scenarioA = Some out → out = emitted s1.
Proof.
  eexists _, _. split; [vm_compute; reflexivity|]. split; [vm_compute; reflexivity|].
  eapply distinct_dates_same_output
    with (ceiling1 := 1%Z) (ceiling2 := 3%Z) (evs1 := scheduleA) (evs2 := scheduleB);
    [lia|lia|exact scenarioA_sorted|exact scenarioA_distinct
    |vm_compute; reflexivity|reflexivity|vm_compute; reflexivity|reflexivity].
Defined.

(** ** The first fetches come first *)

Definition initialPending (s : state) : Prop :=
  ∃ j c t, cells s !! j = Some c ∧ t ∈ inflight c ∧ via t = Initial.

Lemma takeFetch_elem f l t l' u : takeFetch f l = Some (t, l') → u ∈ l' → u ∈ l.
Proof.
  intros (_ & k & _ & ->)%takeFetch_Some Hu. by eapply list_elem_of_delete_inv.
Qed.

(** No callback issues an initial fetch. *)
Lemma moves_initial ceiling s s' j c' t :
  moves ceiling s s' → cells s' !! j = Some c' → t ∈ inflight c' → via t = Initial →
  ∃ c, cells s !! j = Some c ∧ t ∈ inflight c.
Proof.
  intros Hm Hj Ht Hv.
  destruct Hm; simpl in *; eauto.
  all: match type of Hj with
       | <[?i:=_]> _ !! _ = _ =>
           destruct (decide (j = i)) as [->|Hne];
           [rewrite list_lookup_insert_eq in Hj by (by eapply lookup_lt_Some)
           |rewrite list_lookup_insert_ne in Hj by done; by eauto]
       end.
  all: simplify_eq/=; eexists; split; [done|].
  all: try (by eapply takeFetch_elem).
  all: try match goal with
       | H : bufferLogs _ _ _ = _ |- _ =>
           destruct (bufferLogs_inflight _ _ _ _ _ _ H Ht) as [Hin|?]; [|congruence];
           simpl in Hin; try done; by eapply takeFetch_elem
       end.
  apply elem_of_app in Ht as [?|?%list_elem_of_singleton]; [done|]. by simplify_eq.
Qed.

(** Before all first fetches have settled the consumer has not run. *)
Definition barrier (s : state) : Prop :=
  ((control s = AwaitAll ∨ control s = Failed) ∧ output s = []) ∨ ¬ initialPending s.

Lemma moves_barrier ceiling s s' : barrier s → moves ceiling s s' → barrier s'.
Proof.
  intros [[Hc Hout]|Hno] Hm.
  - destruct (moves_output _ _ _ Hm) as [Ho|[(_ & Ht & _)|(k & i & e & Ht & _)]].
    + destruct Hc as [Hc|Hc]; [|left; split; [right; by eapply moves_failed|congruence]].
      left. split; [|congruence].
      destruct Hm; simpl in *; try congruence; try (rewrite Hc; auto; fail).
      all: try (destruct (decide _); [congruence|auto]; fail).
      all: match goal with H : mayTurn _ |- _ => destruct H as [[_ ?]|?]; congruence end.
    + right. intros (j & c' & t & Hj & Hin & Hv).
      destruct (moves_initial _ _ _ _ _ _ Hm Hj Hin Hv) as (c & Hj0 & Hin0).
      destruct Ht as [[_ Hall]|Hrun]; [|destruct Hc; congruence].
      by destruct (allInitialSettled_spec _ Hall _ _ _ Hj0 Hin0).
    + right. intros (j & c' & t & Hj & Hin & Hv).
      destruct (moves_initial _ _ _ _ _ _ Hm Hj Hin Hv) as (c & Hj0 & Hin0).
      destruct Ht as [[_ Hall]|Hrun]; [|destruct Hc; congruence].
      by destruct (allInitialSettled_spec _ Hall _ _ _ Hj0 Hin0).
  - right. intros (j & c' & t & Hj & Hin & Hv).
    destruct (moves_initial _ _ _ _ _ _ Hm Hj Hin Hv) as (c & Hj0 & Hin0).
    apply Hno. by exists j, c, t.
Qed.

Lemma run_barrier ceiling srcs evs s :
  run ceiling evs (start srcs) = Some s → barrier s.
Proof.
  apply run_moves; [apply moves_barrier|]. left. split; [by left|done].
Qed.

(** X4. Nothing is printed, and [done] is not called, while the first fetch of
    some source is still outstanding. *)
Theorem nothing_printed_before_first_fetches ceiling srcs evs s j c t :
  run ceiling evs (start srcs) = Some s →
  cells s !! j = Some c → t ∈ inflight c → via t = Initial →
  emitted s = [].
Proof.
  intros Hrun Hj Ht Hv.
  destruct (run_barrier _ _ _ _ Hrun) as [[_ Hout]|Hno].
  - unfold emitted. by rewrite Hout.
  - destruct Hno. by exists j, c, t.
Qed.

Lemma nothing_printed_before_first_fetches_witness :
  ∃ s c, run 3 (take 5 scheduleB) (start scenarioA) = Some s ∧
         cells s !! 0 = Some c ∧ inflight c = [Fetch 0 Initial (Resolved (Some (at_ 1)))] ∧
         totalBuffered s = 2 ∧ emitted s = [].
Proof.
  eexists _, _. split; [vm_compute; reflexivity|]. split; [reflexivity|].
  split; [reflexivity|]. split; [reflexivity|].
  eapply nothing_printed_before_first_fetches
    with (ceiling := 3%Z) (srcs := scenarioA) (evs := take 5 scheduleB) (j := 0)
         (t := Fetch 0 Initial (Resolved (Some (at_ 1))));
    [vm_compute; reflexivity|reflexivity|apply list_elem_of_here|reflexivity].
Defined.

(** ** A first fetch that fails *)

Definition doomed (j : nat) (s : state) : Prop :=
  (∃ c t, cells s !! j = Some c ∧ t ∈ inflight c ∧ via t = Initial ∧ yields t = Thrown)
  ∨ (control s = Failed ∧ output s = []).

Lemma cell_single c t : cell_ok c → t ∈ inflight c → inflight c = [t].
Proof.
  intros Hok Ht. pose proof (cell_ok_single _ Hok) as Hlen.
  destruct (inflight c) as [|t' [|]]; simpl in Hlen; [by apply elem_of_nil in Ht| |lia].
  by apply list_elem_of_singleton in Ht as ->.
Qed.

Lemma moves_doomed ceiling j s s' :
  counted ceiling s → barrier s → doomed j s → moves ceiling s s' → doomed j s'.
Proof.
  intros Hs Hb [(c & t & Hj & Ht & Hv & Hy)|[Hc Hout]] Hm.
  - destruct Hb as [[Hc Hout]|Hno]; [|destruct Hno; by exists j, c, t].
    pose proof (counted_cells _ _ Hs _ _ Hj) as Hok.
    pose proof (cell_single _ _ Hok Ht) as Hin.
    pose proof (cell_ok_initial _ _ Hok Hin Hv) as Hx.
    assert (Hkeep : cells s' = cells s → doomed j s').
    { intros Heq. left. exists c, t. by rewrite Heq. }
    assert (Hother : ∀ i c', i ≠ j → cells s' = <[i:=c']> (cells s) → doomed j s').
    { intros i c' Hne Heq. left. exists c, t. by rewrite Heq, list_lookup_insert_ne. }
    destruct Hm; simpl in *; try (by apply Hkeep);
      (match goal with
       | H : cells s !! ?i = Some _ |- _ =>
           lazymatch i with
           | j => fail
           | _ => destruct (decide (i = j)) as [->|Hne]; [|by eapply Hother]
           end
       end);
      simplify_eq/=;
      try match goal with
          | H : takeFetch _ (inflight _) = Some _ |- _ =>
              destruct (takeFetch_single _ _ _ _ Hok H) as (Hin' & -> & _);
              rewrite Hin in Hin'; simplify_eq
          end;
      try congruence.
    right. split; [|done]. destruct Hc as [-> | ->]; done.
  - right. split; [by eapply moves_failed|].
    destruct (moves_output _ _ _ Hm) as [->|[(_ & Ht & _)|(? & ? & ? & Ht & _)]]; [done| |];
      destruct Ht as [[? _]|?]; congruence.
Qed.

Lemma start_doomed j o srcs :
  srcs !! j = Some o → rest o = [] → fate o = Rejects → doomed j (start srcs).
Proof.
  intros Hj Hr Hf. left. unfold start. simpl.
  exists (firstFetch o), (Fetch (polls o) Initial Thrown).
  rewrite list_lookup_fmap, Hj. simpl. unfold firstFetch, popAsync. rewrite Hr, Hf. simpl.
  split_and!; try done. apply list_elem_of_here.
Qed.

(** X5. If the first fetch of some source is rejected, nothing is ever printed
    and [done] is never called, whatever the other sources hold and however
    the fetches are ordered. *)
Theorem first_fetch_failure_prints_nothing ceiling srcs j o evs s :
  (0 ≤ ceiling)%Z → srcs !! j = Some o → rest o = [] → fate o = Rejects →
  run ceiling evs (start srcs) = Some s →
  emitted s = [] ∧ control s ≠ Finished.
Proof.
  intros Hc Hj Hr Hf Hrun.
  assert (counted ceiling s ∧ barrier s ∧ doomed j s) as (Hs & Hb & Hd).
  { revert Hrun. apply (run_moves ceiling (λ s, counted ceiling s ∧ barrier s ∧ doomed j s)).
    - intros a b (Ha & Hba & Hda) Hm. split_and!.
      + by eapply moves_counted.
      + by eapply moves_barrier.
      + by eapply moves_doomed.
    - split_and!; [by apply start_counted| |by eapply start_doomed].
      left. split; [by left|done]. }
  assert (Hout : output s = []).
  { destruct Hd as [(c & t & Hjc & Ht & Hv & _)|[_ ?]]; [|done].
    destruct Hb as [[_ ?]|Hno]; [done|]. destruct Hno. by exists j, c, t. }
  split; [unfold emitted; by rewrite Hout|].
  intros Hfin. destruct (run_doneOnce _ _ _ _ Hc Hrun) as [_ Hdone].
  unfold doneOnce in Hdone. rewrite decide_True in Hdone by done.
  destruct Hdone as (_ & o' & Ho' & _). congruence.
Qed.

(** Scenario E with a third source whose first fetch fails. *)
Definition scenarioF : list logSource := scenarioE ++ [fresh [] Rejects].

Lemma first_fetch_failure_prints_nothing_witness :
  ∃ s, run MAX_LOG_ENTRY_BUFFER_SIZE [Settle 0 0; Settle 1 0; Settle 1 1; Settle 2 0; Settle 0 1]
           (start scenarioF) = Some s ∧
       control s = Failed ∧ totalBuffered s = 2 ∧
       emitted s = [] ∧ control s ≠ Finished.
Proof.
  eexists. split; [vm_compute; reflexivity|]. split; [reflexivity|]. split; [reflexivity|].
  eapply first_fetch_failure_prints_nothing
    with (ceiling := MAX_LOG_ENTRY_BUFFER_SIZE) (srcs := scenarioF) (j := 2)
         (evs := [Settle 0 0; Settle 1 0; Settle 1 1; Settle 2 0; Settle 0 1]);
    [unfold MAX_LOG_ENTRY_BUFFER_SIZE; lia|reflexivity|reflexivity|reflexivity
    |vm_compute; reflexivity].
Defined.

(** ** Polls, the heap and failure

    What the accounting invariants say of the sources and of the heap keeps
    holding after the merge has rejected, when the callbacks of the fetches
    still in flight go on running. *)

(** A source has been polled at most once past its last entry, and then
    nothing more is to come from it. *)
Record spent (c : cell) (o : logSource) : Prop := Spent {
  spent_bound : polls (src c) + length (rest (src c)) ≤ polls o + length (rest o) + 1;
  spent_end :
    polls (src c) + length (rest (src c)) = polls o + length (rest o) + 1 →
    rest (src c) = [] ∧ ∀ t, t ∈ inflight c → isEntry (yields t) = false
}.

Record kept (origs : list logSource) (s : state) : Prop := Kept {
  kept_sources : length (cells s) = length origs;
  kept_nodup : NoDup (heap s);
  kept_heap : ∀ j, j ∈ heap s → ∃ c x, cells s !! j = Some c ∧ context c = Some x;
  kept_cell : ∀ j c o, cells s !! j = Some c → origs !! j = Some o → spent c o
}.

Lemma cellInv_spent q g c o sh :
  cellInv q g c o sh → cell_ok c →
  (∀ t, t ∈ inflight c → via t = Direct → ∃ i, g = Some (AwaitDirect i)) →
  spent c o.
Proof.
  intros [He Hf Hp Hr Hs] Hok Hdir. split; [destruct (signalled q g c); lia|].
  intros Heq.
  assert (Hsig : signalled q g c = true) by (destruct (signalled q g c); [done|lia]).
  split; [by apply Hr|]. intros t Ht.
  destruct (isEntry (yields t)) eqn:Hy; [exfalso|done].
  pose proof (cell_single _ _ Hok Ht) as Hin.
  unfold signalled, closed, shape, cell_ok in *. rewrite Hin in *. simpl in *.
  rewrite Hy in Hsig. simpl in Hsig.
  destruct (context c) as [x|]; [|done].
  destruct Hs as [_ Hs].
  destruct (nextEntryPromise x) as [f|] eqn:Hn.
  - destruct Hok as [Hd [[r ?]|[? _]]]; [|done]. rewrite Hd in Hsig. simpl in Hsig.
    destruct q; [done|]. destruct g; [done|]. destruct Hs as [?|(_ & ? & _)]; done.
  - destruct Hok as [?|(t' & ? & Hv)]; [done|]. simplify_eq.
    destruct (Hdir t' (list_elem_of_here _ _) Hv) as [i ->].
    destruct Hs as (_ & Hd & _). rewrite Hd in Hsig. simpl in Hsig.
    by rewrite andb_false_r in Hsig.
Qed.

Lemma accounted_kept ceiling origs shipped s :
  counted ceiling s → accounted origs shipped s → kept origs s.
Proof.
  intros Hs Ha. split.
  - apply (acc_sources _ _ _ Ha).
  - apply (acc_nodup _ _ _ Ha).
  - intros j Hj. pose proof (acc_heap _ _ _ Ha _ Hj) as Hlt.
    destruct (lookup_lt_is_Some_2 (cells s) j Hlt) as [c Hc].
    destruct (accounted_lookup _ _ _ _ _ Ha Hc) as (o & sh & _ & _ & [_ _ _ _ Hsh]).
    rewrite bool_decide_eq_true_2 in Hsh by done. unfold shape in Hsh.
    destruct (context c) as [x|] eqn:Hx; [by eauto|]. by destruct Hsh.
  - intros j c o Hc Ho.
    destruct (accounted_lookup _ _ _ _ _ Ha Hc) as (o' & sh & Ho' & _ & Hci).
    simplify_eq. eapply cellInv_spent; [done|by eapply counted_cells|].
    intros t Ht Hv. exists j. rewrite (counted_direct _ _ Hs _ _ _ Hc Ht Hv).
    by apply grip_self.
Qed.

Lemma spent_unsettle c c' o :
  spent c o → src c' = src c → (∀ t, t ∈ inflight c' → t ∈ inflight c) → spent c' o.
Proof.
  intros [Hb He] Hsrc Hin. rewrite <-Hsrc in Hb, He. split; [done|].
  intros Heq. destruct (He Heq) as [Hr Hall]. split; [done|]. auto.
Qed.

Lemma spent_strict c o t :
  spent c o → t ∈ inflight c → isEntry (yields t) = true →
  polls (src c) + length (rest (src c)) ≤ polls o + length (rest o).
Proof.
  intros [Hb He] Ht Hy.
  destruct (decide (polls (src c) + length (rest (src c)) = polls o + length (rest o) + 1))
    as [Heq|]; [|lia].
  destruct (He Heq) as [_ Hall]. rewrite (Hall _ Ht) in Hy. done.
Qed.

Lemma spent_bufferLogs ceiling n c n' c' o :
  spent c o → inflight c = [] →
  polls (src c) + length (rest (src c)) ≤ polls o + length (rest o)
  ∨ (∃ x, context c = Some x ∧ drained x = true) →
  bufferLogs ceiling n c = (n', c') → spent c' o.
Proof.
  intros Hsp Hin Hroom H.
  apply bufferLogs_cases in H as [[-> ->]|(x & r & s' & Hx & _ & Hd & _ & Hq & -> & ->)];
    [done|].
  destruct Hroom as [Hroom|(x' & Hx' & Hd')]; [|congruence].
  unfold popAsync in Hq. destruct (rest (src c)) as [|e rs] eqn:Hr; simplify_eq/=.
  - split; simpl; [lia|]. intros _. split; [done|].
    rewrite Hin. intros t ->%list_elem_of_singleton. simpl. by destruct (fate (src c)).
  - split; simpl; [lia|]. intros Heq. lia.
Qed.

Lemma bufferLogs_context ceiling n c n' c' :
  bufferLogs ceiling n c = (n', c') → is_Some (context c) → is_Some (context c').
Proof.
  intros H Hx.
  apply bufferLogs_cases in H as [[-> ->]|(x & r & s' & _ & _ & _ & _ & _ & -> & ->)];
    [done|by eexists].
Qed.

Lemma kept_update origs s i c c' h' n' d' o' :
  kept origs s → cells s !! i = Some c →
  NoDup h' → (∀ j, j ∈ h' → j ∈ heap s ∨ (j = i ∧ is_Some (context c'))) →
  (is_Some (context c) → is_Some (context c')) →
  (∀ o, origs !! i = Some o → spent c o → spent c' o) →
  kept origs (State (<[i:=c']> (cells s)) h' n' d' o').
Proof.
  intros [Hlen Hnd Hheap Hcell] Hi Hnd' Hin Hctx Hsp.
  pose proof (lookup_lt_Some _ _ _ Hi) as Hlt.
  split; simpl.
  - by rewrite length_insert.
  - done.
  - intros j Hj. destruct (decide (j = i)) as [->|Hne].
    + rewrite list_lookup_insert_eq by done.
      assert (is_Some (context c')) as [x' Hx'].
      { destruct (Hin _ Hj) as [Hold|[_ ?]]; [|done].
        destruct (Hheap _ Hold) as (c0 & x & Hc0 & Hx). simplify_eq. apply Hctx. by eexists. }
      by exists c', x'.
    + rewrite list_lookup_insert_ne by done.
      destruct (Hin _ Hj) as [Hold|[? _]]; [by apply Hheap|done].
  - intros j c0 o Hj Ho. destruct (decide (j = i)) as [->|Hne].
    + rewrite list_lookup_insert_eq in Hj by done. simplify_eq. eauto.
    + rewrite list_lookup_insert_ne in Hj by done. eauto.
Qed.

Lemma moves_kept_failed ceiling origs s s' :
  counted ceiling s → kept origs s → moves ceiling s s' → control s' = Failed →
  kept origs s'.
Proof.
  intros Hs Hk Hm Hf.
  destruct Hm as
    [ i f c t l Hc Hi Ht Hv Hy
    | i f c t l Hc Hi Ht Hv Hy
    | i f c t l e n' c' Hc Hi Ht Hv Hy Hbuf
    | i f c t l x Hc Hi Ht Hv Hy Hx
    | i f c t l x r n' c' Hc Hi Ht Hv Hy Hx Hbuf
    | i f c t l x Hc Hi Ht Hv Hy Hx
    | | | | | | | | | ]; simpl in Hf; try discriminate.
  - eapply kept_update; eauto using kept_nodup.
    intros o _ Hsp. eapply spent_unsettle; [done|done|]. intros u. by eapply takeFetch_elem.
  - eapply kept_update; eauto using kept_nodup.
    intros o _ Hsp. eapply spent_unsettle; [done|done|]. intros u. by eapply takeFetch_elem.
  - pose proof (counted_cells _ _ Hs _ _ Hi) as Hok.
    destruct (takeFetch_single _ _ _ _ Hok Ht) as (Hin & -> & _).
    pose proof (cell_ok_initial _ _ Hok Hin Hv) as Hnone.
    assert (Hfresh : i ∉ heap s).
    { intros Hmem. destruct (kept_heap _ _ Hk _ Hmem) as (c0 & x & ? & ?). congruence. }
    eapply kept_update; [done|done| | | |].
    + unfold heapPush. apply NoDup_app. split_and!; [by eapply kept_nodup| |apply NoDup_singleton].
      by intros j Hj ->%list_elem_of_singleton.
    + intros j [?| ->%list_elem_of_singleton]%elem_of_app; [by left|right].
      split; [done|]. eapply bufferLogs_context; [done|]. by eexists.
    + intros _. eapply bufferLogs_context; [done|]. by eexists.
    + intros o _ Hsp. refine (spent_bufferLogs _ _ _ _ _ _ _ _ _ Hbuf); [|done|].
      * eapply spent_unsettle; [done|done|]. by intros u ?%elem_of_nil.
      * left. simpl. eapply spent_strict; [done| |by rewrite Hy].
        rewrite Hin. apply list_elem_of_here.
  - eapply kept_update; eauto using kept_nodup.
    intros o _ Hsp. eapply spent_unsettle; [done|done|]. intros u. by eapply takeFetch_elem.
  - pose proof (counted_cells _ _ Hs _ _ Hi) as Hok.
    destruct (takeFetch_single _ _ _ _ Hok Ht) as (Hin & -> & _).
    eapply kept_update; [done|done|by eapply kept_nodup|by left| |].
    + intros _. eapply bufferLogs_context; [done|]. by eexists.
    + intros o _ Hsp. refine (spent_bufferLogs _ _ _ _ _ _ _ _ _ Hbuf); [|done|].
      * eapply spent_unsettle; [done|done|]. by intros u ?%elem_of_nil.
      * destruct r as [e|]; simpl.
        -- left. eapply spent_strict; [done| |by rewrite Hy].
           rewrite Hin. apply list_elem_of_here.
        -- right. by eexists.
  - eapply kept_update; eauto using kept_nodup.
    intros o _ Hsp. eapply spent_unsettle; [done|done|]. intros u. by eapply takeFetch_elem.
  - destruct Hk as [Hlen Hnd Hheap Hcell]. split; simpl; [done| | |done].
    + eapply sublist_NoDup; [done|apply sublist_delete].
    + intros j Hj. apply Hheap. by eapply list_elem_of_delete_inv.
Qed.

(** [kept] holds all along, whether the merge has failed or not. *)
Lemma run_kept ceiling srcs evs s :
  (0 ≤ ceiling)%Z → run ceiling evs (start srcs) = Some s →
  tracked ceiling srcs s ∧ kept srcs s.
Proof.
  intros Hc. apply (run_moves ceiling (λ s, tracked ceiling srcs s ∧ kept srcs s)).
  - intros a b [Ht Hk] Hm. pose proof (moves_tracked _ _ _ _ Ht Hm) as Ht'.
    split; [done|].
    destruct (decide (control b = Failed)) as [Hf|Hnf].
    + destruct Ht as [Hs _]. by eapply moves_kept_failed.
    + destruct Ht' as [Hs' Ha']. destruct (Ha' Hnf) as [shipped Hacc].
      by eapply accounted_kept.
  - pose proof (start_tracked _ srcs Hc) as Ht. split; [done|].
    destruct Ht as [Hs Ha]. destruct Ha as [shipped Hacc]; [done|].
    by eapply accounted_kept.
Qed.

(** X6. Each source is polled at most once more than it has entries: once
    [popAsync] has reported the end of a source (with [false] or with a
    rejection) it is never called on that source again, not even by the
    prefetches that go on after the merge has rejected. *)
Theorem source_never_polled_past_its_end ceiling srcs evs s j c o :
  (0 ≤ ceiling)%Z → run ceiling evs (start srcs) = Some s →
  cells s !! j = Some c → srcs !! j = Some o →
  polls (src c) + length (rest (src c)) ≤ polls o + length (rest o) + 1.
Proof.
  intros Hc Hrun Hj Ho. destruct (run_kept _ _ _ _ Hc Hrun) as [_ Hk].
  apply (spent_bound _ _ (kept_cell _ _ Hk _ _ _ Hj Ho)).
Qed.

Lemma source_never_polled_past_its_end_witness :
  ∃ s c o,
    run MAX_LOG_ENTRY_BUFFER_SIZE (beforeFailure ++ Settle 0 2 :: afterFailure)
        (start scenarioE) = Some s ∧
    control s = Failed ∧ cells s !! 0 = Some c ∧ scenarioE !! 0 = Some o ∧
    polls (src c) = 3 ∧ length (rest o) = 2 ∧
    polls (src c) + length (rest (src c)) ≤ polls o + length (rest o) + 1.
Proof.
  eexists _, _, _. split; [vm_compute; reflexivity|]. split; [reflexivity|].
  split; [reflexivity|]. split; [reflexivity|]. split; [reflexivity|].
  split; [reflexivity|].
  eapply source_never_polled_past_its_end
    with (ceiling := MAX_LOG_ENTRY_BUFFER_SIZE) (srcs := scenarioE) (j := 0)
         (evs := beforeFailure ++ Settle 0 2 :: afterFailure);
    [unfold MAX_LOG_ENTRY_BUFFER_SIZE; lia|vm_compute; reflexivity|reflexivity|reflexivity].
Defined.

Lemma NoDup_bounded (l : list nat) n : NoDup l → (∀ j, j ∈ l → j < n) → length l ≤ n.
Proof.
  intros Hnd Hlt. trans (length (seq 0 n)); [|by rewrite length_seq].
  apply submseteq_length, NoDup_submseteq; [done|].
  intros j Hj. apply elem_of_seq. specialize (Hlt j Hj). lia.
Qed.

(** X7. A context is never in the heap twice, so the heap holds at most one
    item per source; and every context in it has an entry for the
    comparator to read. *)
Theorem heap_holds_each_source_once ceiling srcs evs s :
  (0 ≤ ceiling)%Z → run ceiling evs (start srcs) = Some s →
  NoDup (heap s) ∧ length (heap s) ≤ length srcs ∧
  ∀ j, j ∈ heap s → ∃ e, headOf (cells s) j = Some e.
Proof.
  intros Hc Hrun. destruct (run_kept _ _ _ _ Hc Hrun) as [_ Hk].
  destruct (run_headed _ _ _ _ Hc Hrun) as [Hh Hlen].
  assert (Hhead : ∀ j, j ∈ heap s → ∃ e, headOf (cells s) j = Some e).
  { intros j Hj. destruct (kept_heap _ _ Hk _ Hj) as (c & x & Hcj & Hx).
    destruct (Hh _ _ _ Hcj Hx) as [e He]. exists e. by eapply headOf_lookup. }
  split_and!; [by eapply kept_nodup| |done].
  apply NoDup_bounded; [by eapply kept_nodup|].
  intros j Hj. destruct (kept_heap _ _ Hk _ Hj) as (c & x & Hcj & _).
  rewrite <-Hlen. by eapply lookup_lt_Some.
Qed.

Lemma heap_holds_each_source_once_witness :
  ∃ s, run 1 (take 4 scheduleA) (start scenarioA) = Some s ∧ heap s = [0; 1; 2] ∧
       NoDup (heap s) ∧ length (heap s) ≤ length scenarioA ∧
       ∀ j, j ∈ heap s → ∃ e, headOf (cells s) j = Some e.
Proof.
  eexists. split; [vm_compute; reflexivity|]. split; [reflexivity|].
  eapply heap_holds_each_source_once with (ceiling := 1%Z) (evs := take 4 scheduleA);
    [lia|vm_compute; reflexivity].
Defined.

(** ** A bound on the length of a run *)

Lemma run_advance ceiling evs s s' :
  counted ceiling s → run ceiling evs s = Some s' →
  (advance s + Z.of_nat (length evs) ≤ advance s')%Z.
Proof.
  revert s. induction evs as [|ev evs IH]; intros s Hs H; simpl in H.
  - simplify_eq. simpl. lia.
  - destruct (step ceiling ev s) as [s1|] eqn:H1; simpl in H; [|done].
    pose proof (step_moves _ _ _ _ H1) as Hm.
    pose proof (moves_advance _ _ _ Hs Hm).
    pose proof (IH _ (moves_counted _ _ _ Hs Hm) H). simpl length. lia.
Qed.

Lemma kept_advance origs s : kept origs s → (advance s ≤ limit origs)%Z.
Proof.
  intros Hk. unfold advance, limit.
  assert (total weight (cells s) ≤ total budget origs)%Z.
  { apply total_le; [apply (kept_sources _ _ Hk)|].
    intros i c o Hc Ho. pose proof (spent_bound _ _ (kept_cell _ _ Hk _ _ _ Hc Ho)).
    unfold weight, budget. lia. }
  assert (0 ≤ driverWeight (control s))%Z by (by destruct (control s)).
  lia.
Qed.

Lemma limit_start srcs :
  (limit srcs - advance (start srcs)
   = 6 * Z.of_nat (sum_list_with (λ o, length (rest o)) srcs)
     + 5 * Z.of_nat (length srcs) + 1)%Z.
Proof.
  unfold limit, advance, start. simpl.
  assert (total budget srcs - total weight (firstFetch <$> srcs)
          = 6 * Z.of_nat (sum_list_with (λ o, length (rest o)) srcs)
            + 5 * Z.of_nat (length srcs))%Z; [|lia].
  induction srcs as [|o srcs IH]; [done|].
  rewrite fmap_cons. cbn [total foldr sum_list_with length]. unfold total in IH.
  assert (weight (firstFetch o) = 6 * Z.of_nat (polls o) + 1)%Z as ->.
  { unfold firstFetch, popAsync, weight, buffered. destruct (rest o); simpl; lia. }
  unfold budget at 1. lia.
Qed.

(** X8. No run is longer than six callbacks per entry plus five per source plus
    one: the merge cannot go on for ever, whether it completes or fails. *)
Theorem run_length_bounded ceiling srcs evs s :
  (0 ≤ ceiling)%Z → run ceiling evs (start srcs) = Some s →
  length evs ≤ 6 * sum_list_with (λ o, length (rest o)) srcs + 5 * length srcs + 1.
Proof.
  intros Hc Hrun. destruct (run_kept _ _ _ _ Hc Hrun) as [_ Hk].
  pose proof (run_advance _ _ _ _ (start_counted _ Hc srcs) Hrun).
  pose proof (kept_advance _ _ Hk). pose proof (limit_start srcs). lia.
Qed.

Lemma run_length_bounded_witness :
  ∃ s, run 1 scheduleA (start scenarioA) = Some s ∧ control s = Finished ∧
       length scheduleA = 22 ∧
       length scheduleA
       ≤ 6 * sum_list_with (λ o, length (rest o)) scenarioA + 5 * length scenarioA + 1.
Proof.
  eexists. split; [vm_compute; reflexivity|]. split; [reflexivity|]. split; [reflexivity|].
  eapply run_length_bounded with (ceiling := 1%Z); [lia|vm_compute; reflexivity].
Defined.

(** ** The output as an interleaving of the sources *)

(** [interleaved L out]: [out] is made of the lists of [L] shuffled
    together, each list keeping its own order.  It is built as the output
    is: one element at a time, added to the end of [out] and to the end of
    one of the lists. *)
Inductive interleaved {A} : list (list A) → list A → Prop :=
| interleaved_nil n : interleaved (replicate n []) []
| interleaved_snoc L out i sh e :
    interleaved L out → L !! i = Some sh →
    interleaved (<[i:=sh ++ [e]]> L) (out ++ [e]).

Lemma interleaved_Permutation {A} (L : list (list A)) out :
  interleaved L out → out ≡ₚ concat L.
Proof.
  induction 1 as [n|L out i sh e _ IH Hi].
  - induction n; simpl; [done|auto].
  - rewrite (concat_insert_snoc _ _ _ _ Hi), <-IH. by rewrite <-Permutation_cons_append.
Qed.

Definition prefixes (origs : list logSource) (L : list (list logEntry)) : Prop :=
  ∀ j sh o, L !! j = Some sh → origs !! j = Some o → sh `prefix_of` rest o.

Lemma accounted_prefixes origs L s : accounted origs L s → prefixes origs L.
Proof.
  intros Ha j sh o Hsh Ho.
  destruct (lookup_lt_is_Some_2 (cells s) j) as [c Hc].
  { rewrite (acc_sources _ _ _ Ha), <-(acc_shipped _ _ _ Ha). by eapply lookup_lt_Some. }
  destruct (acc_cell _ _ _ Ha _ _ _ _ Hc Ho Hsh) as [He _ _ _ _]. by eexists.
Qed.

Lemma prints_emitted_cons s s' e :
  output s' = PrintCall e :: output s → prints (emitted s') = prints (emitted s) ++ [e].
Proof. unfold emitted. intros ->. by rewrite reverse_cons, prints_app. Qed.

(** The entries printed so far, source by source. *)
Definition laid (origs : list logSource) (L : list (list logEntry)) (s : state) : Prop :=
  interleaved L (prints (emitted s)) ∧ length L = length origs ∧ prefixes origs L ∧
  (control s ≠ Failed → accounted origs L s).

Definition printedFrom (L L' : list (list logEntry)) (a b : state) : Prop :=
  ∃ k i e sh,
    control a ≠ Failed ∧ mayTurn a ∧
    heapPop (cells a) k (heap a) = Some (i, delete k (heap a)) ∧
    headOf (cells a) i = Some e ∧ L !! i = Some sh ∧
    L' = <[i:=sh ++ [e]]> L ∧ output b = PrintCall e :: output a.

Lemma moves_laid ceiling origs L a b :
  counted ceiling a → laid origs L a → moves ceiling a b →
  ∃ L', laid origs L' b ∧
        ((L' = L ∧ prints (emitted b) = prints (emitted a)) ∨ printedFrom L L' a b).
Proof.
  intros Hs (Hint & Hlen & Hpre & Hacc) Hm.
  assert (Hsame : prints (emitted b) = prints (emitted a) →
            (control b ≠ Failed → accounted origs L b) →
            ∃ L', laid origs L' b ∧
                  ((L' = L ∧ prints (emitted b) = prints (emitted a)) ∨ printedFrom L L' a b)).
  { intros Heq Hb. exists L. split; [|by left]. split_and!; [by rewrite Heq|done..]. }
  destruct (decide (control a = Failed)) as [Hfa|Hnfa].
  { apply Hsame; [|by intros []; eapply moves_failed].
    destruct (moves_output _ _ _ Hm) as [Ho|[(_ & Ht & _)|(? & ? & ? & Ht & _)]];
      [unfold emitted; by rewrite Ho| |]; destruct Ht as [[? _]|?]; congruence. }
  specialize (Hacc Hnfa).
  destruct (decide (control b = Failed)) as [Hfb|Hnfb].
  - destruct (moves_output _ _ _ Hm) as [Ho|[(_ & _ & Hfin)|(k & i & e & Ht & Hpop & Hhead & Ho)]].
    + apply Hsame; [unfold emitted; by rewrite Ho|done].
    + congruence.
    + destruct (heapPop_Some _ _ _ _ _ Hpop) as (Hk & _ & _).
      pose proof (list_elem_of_lookup_2 _ _ _ Hk) as Hmem.
      pose proof (acc_heap _ _ _ Hacc _ Hmem) as Hlt.
      destruct (lookup_lt_is_Some_2 (cells a) i Hlt) as [c Hc].
      destruct (accounted_lookup _ _ _ _ _ Hacc Hc) as (o & sh & Ho' & Hsh & [He _ _ _ _]).
      rewrite bool_decide_eq_true_2 in He by done. unfold future in He.
      rewrite (headOf_headList _ _ _ _ Hc Hhead) in He.
      exists (<[i:=sh ++ [e]]> L). split; [|right; by exists k, i, e, sh].
      split_and!.
      * rewrite (prints_emitted_cons _ _ _ Ho). by constructor.
      * by rewrite length_insert.
      * intros j sh' o' Hj Hoj. destruct (decide (j = i)) as [->|Hne].
        -- rewrite list_lookup_insert_eq in Hj by (by eapply lookup_lt_Some).
           simplify_eq. exists (upcoming c). rewrite <-He, <-app_assoc. done.
        -- rewrite list_lookup_insert_ne in Hj by done. eauto.
      * done.
  - destruct (moves_accounted _ _ _ _ _ Hs Hacc Hm Hnfb)
      as (L' & Ha' & [[Hout ->]|(k & i & e & sh & Ht & Hpop & Hhead & Hsh & -> & Ho)]).
    + apply Hsame; [|done]. unfold emitted.
      destruct Hout as [-> | ->]; [done|]. rewrite reverse_cons, prints_app. simpl.
      by rewrite app_nil_r.
    + eexists. split; [|right; by exists k, i, e, sh]. split_and!.
      * rewrite (prints_emitted_cons _ _ _ Ho). by constructor.
      * by rewrite length_insert.
      * by eapply accounted_prefixes.
      * done.
Qed.

Lemma start_laid srcs : laid srcs (replicate (length srcs) []) (start srcs).
Proof.
  split_and!.
  - constructor.
  - by rewrite length_replicate.
  - intros j sh o [-> _]%lookup_replicate _. apply prefix_nil.
  - intros _. apply start_accounted.
Qed.

Lemma run_laid ceiling srcs evs s :
  (0 ≤ ceiling)%Z → run ceiling evs (start srcs) = Some s → ∃ L, laid srcs L s.
Proof.
  intros Hc Hrun.
  cut (counted ceiling s ∧ ∃ L, laid srcs L s); [tauto|].
  revert Hrun. apply (run_moves ceiling (λ s, counted ceiling s ∧ ∃ L, laid srcs L s)).
  - intros a b [Hs [L HL]] Hm. split; [by eapply moves_counted|].
    destruct (moves_laid _ _ _ _ _ Hs HL Hm) as (L' & HL' & _). eauto.
  - split; [by apply start_counted|]. eexists. apply start_laid.
Qed.

(** X9. At every point the printed entries are beginnings of the sources
    shuffled together: the entries of one source are printed in the order
    in which the source hands them out, whether or not the sources are
    sorted.  When the merge completes, each source has been printed whole. *)
Theorem output_interleaves_sources ceiling srcs evs s :
  (0 ≤ ceiling)%Z → run ceiling evs (start srcs) = Some s →
  ∃ L, length L = length srcs ∧
       interleaved L (prints (emitted s)) ∧
       (∀ j sh o, L !! j = Some sh → srcs !! j = Some o → sh `prefix_of` rest o) ∧
       (control s = Finished → L = rest <$> srcs).
Proof.
  intros Hc Hrun. destruct (run_laid _ _ _ _ Hc Hrun) as (L & Hint & Hlen & Hpre & Hacc).
  exists L. split_and!; [done..|]. intros Hfin.
  destruct (run_doneOnce _ _ _ _ Hc Hrun) as [[Hs _] Hd].
  unfold doneOnce in Hd. rewrite decide_True in Hd by done. destruct Hd as [Hh _].
  assert (Ha : accounted srcs L s) by (apply Hacc; congruence).
  apply list_eq_same_length with (length srcs); [by rewrite length_fmap|done|].
  intros j sh r Hlt Hsh Hr. apply list_lookup_fmap_Some in Hr as (o & -> & Ho).
  destruct (lookup_lt_is_Some_2 (cells s) j) as [c Hj]; [by rewrite (acc_sources _ _ _ Ha)|].
  destruct (finished_out _ _ _ _ _ _ Hs Ha Hfin Hh Hj) as (o' & sh' & ? & ? & _ & _ & _ & ? & _).
  by simplify_eq.
Qed.

(** An unsorted pair of sources. *)
Definition scenarioU : list logSource :=
  [fresh (at_ <$> [5; 1]%Z) Exhausts; fresh (at_ <$> [3; 2]%Z) Exhausts].

Definition scheduleU : list event :=
  [Settle 0 0; Settle 0 1; Settle 0 2; Settle 1 0; Turn 1; Settle 1 1; Turn 1;
   Settle 1 2; Turn 0; Turn 0; Turn 0].

Lemma output_interleaves_sources_witness :
  ∃ s, run 2 scheduleU (start scenarioU) = Some s ∧ control s = Finished ∧
       prints (emitted s) = at_ <$> [3; 2; 5; 1]%Z ∧
       ∃ L, length L = length scenarioU ∧
            interleaved L (prints (emitted s)) ∧
            (∀ j sh o, L !! j = Some sh → scenarioU !! j = Some o → sh `prefix_of` rest o) ∧
            (control s = Finished → L = rest <$> scenarioU).
Proof.
  eexists. split; [vm_compute; reflexivity|]. split; [reflexivity|].
  split; [vm_compute; reflexivity|].
  eapply output_interleaves_sources with (ceiling := 2%Z) (evs := scheduleU);
    [lia|vm_compute; reflexivity].
Defined.

(** ** What is printed is the beginning of the chronological order *)

(** The entries of the sources beyond those of [L]. *)
Definition pending (origs : list logSource) (L : list (list logEntry)) : list logEntry :=
  concat (zip_with (λ sh o, drop (length sh) (rest o)) L origs).

Lemma pending_Permutation origs L :
  length L = length origs → prefixes origs L →
  concat L ++ pending origs L ≡ₚ concat (rest <$> origs).
Proof.
  revert origs. induction L as [|sh L IH]; intros [|o origs] Hlen Hpre; simplify_eq/=; [done|].
  destruct (Hpre 0 sh o eq_refl eq_refl) as [k Hk].
  unfold pending. simpl. fold (pending origs L).
  rewrite Hk, drop_app_length, <-(IH origs); [|done|].
  - rewrite <-!app_assoc. f_equiv. apply Permutation_app_swap_app.
  - intros j sh' o' Hj Ho. by apply (Hpre (S j)).
Qed.

Lemma elem_of_pending origs L e :
  e ∈ pending origs L →
  ∃ j sh o, L !! j = Some sh ∧ origs !! j = Some o ∧ e ∈ drop (length sh) (rest o).
Proof.
  revert origs. induction L as [|sh L IH]; intros [|o origs] He;
    try (by apply elem_of_nil in He).
  unfold pending in He. simpl in He. fold (pending origs L) in He.
  apply elem_of_app in He as [He|He].
  - by exists 0, sh, o.
  - destruct (IH _ He) as (j & sh' & o' & ? & ? & ?). by exists (S j), sh', o'.
Qed.

(** No printed entry is later than an entry beyond those of [L]. *)
Definition precede (origs : list logSource) (L : list (list logEntry)) (s : state) : Prop :=
  ∀ p j sh o e,
    p ∈ prints (emitted s) → L !! j = Some sh → origs !! j = Some o →
    e ∈ drop (length sh) (rest o) → notAfter p e.

Section Beginning.

Variable ceiling : Z.
Variable origs : list logSource.
Hypothesis origs_sorted : Forall (λ o, StronglySorted notAfter (rest o)) origs.

(** The entry the heap hands out is no later than any entry not yet
    printed. *)
Lemma popped_least L s k i e0 j c e :
  counted ceiling s → accounted origs L s → mayTurn s →
  heapPop (cells s) k (heap s) = Some (i, delete k (heap s)) →
  headOf (cells s) i = Some e0 →
  cells s !! j = Some c → e ∈ future (bool_decide (j ∈ heap s)) c →
  notAfter e0 e.
Proof.
  intros Hs Ha Ht Hpop Hhead Hj He.
  destruct (heapPop_Some _ _ _ _ _ Hpop) as (Hk & _ & a & Ha0 & Hmin).
  assert (a = e0) as -> by congruence.
  pose proof (future_sorted _ origs_sorted _ _ _ _ Ha Hj) as Hsorted.
  destruct (decide (j ∈ heap s)) as [Hin|Hout].
  - rewrite bool_decide_eq_true_2 in He, Hsorted by done.
    destruct (earliest_spec _ _ _ Hmin _ Hin) as (b & Hb & Hle).
    unfold future in He, Hsorted. rewrite (headOf_headList _ _ _ _ Hj Hb) in He, Hsorted.
    simpl in He, Hsorted. apply elem_of_cons in He as [->|He]; [done|].
    apply StronglySorted_inv in Hsorted as [_ Hall].
    pose proof (proj1 (Forall_forall _ _) Hall _ He). unfold notAfter in *. lia.
  - rewrite bool_decide_eq_false_2 in He by done.
    destruct (accounted_lookup _ _ _ _ _ Ha Hj) as (o & sh & _ & _ & Hci).
    rewrite bool_decide_eq_false_2 in Hci by done.
    rewrite (grip_none _ _ (mayTurn_holding _ Ht)) in Hci.
    unfold future in He. simpl in He.
    rewrite (cellInv_out_empty _ _ _ Hci) in He; [by apply elem_of_nil in He| |].
    + by eapply counted_cells.
    + intros t Hin. by eapply no_initial; [|apply mayTurn_settled|..].
Qed.

Lemma accounted_drop L s j c sh o :
  accounted origs L s → cells s !! j = Some c → L !! j = Some sh → origs !! j = Some o →
  drop (length sh) (rest o) = future (bool_decide (j ∈ heap s)) c.
Proof.
  intros Ha Hj Hsh Ho. destruct (acc_cell _ _ _ Ha _ _ _ _ Hj Ho Hsh) as [He _ _ _ _].
  by rewrite <-He, drop_app_length.
Qed.

Lemma moves_precede L L' a b :
  counted ceiling a → laid origs L a → precede origs L a →
  (L' = L ∧ prints (emitted b) = prints (emitted a)) ∨ printedFrom L L' a b →
  precede origs L' b.
Proof.
  intros Hs (_ & Hlen & _ & Hacc) Hpre
    [[-> Heq]|(k & i & e0 & sh0 & Hnf & Ht & Hpop & Hhead & Hi & -> & Hout)].
  { intros p j sh o e Hp. rewrite Heq in Hp. by eapply Hpre. }
  specialize (Hacc Hnf).
  destruct (heapPop_Some _ _ _ _ _ Hpop) as (Hk & _ & _).
  pose proof (list_elem_of_lookup_2 _ _ _ Hk) as Hmem.
  intros p j sh o e Hp Hj Ho He.
  rewrite (prints_emitted_cons _ _ _ Hout) in Hp.
  destruct (lookup_lt_is_Some_2 (cells a) j) as [c Hc].
  { rewrite (acc_sources _ _ _ Hacc). by eapply lookup_lt_Some. }
  assert (Hfut : ∃ sh1, L !! j = Some sh1 ∧ e ∈ drop (length sh1) (rest o)).
  { destruct (decide (j = i)) as [->|Hne].
    - rewrite list_lookup_insert_eq in Hj by (by eapply lookup_lt_Some). simplify_eq.
      exists sh0. split; [done|].
      rewrite length_app in He. simpl in He. rewrite <-drop_drop in He.
      by apply (subseteq_drop 1).
    - rewrite list_lookup_insert_ne in Hj by done. eauto. }
  destruct Hfut as (sh1 & Hsh1 & He1).
  apply elem_of_app in Hp as [Hp| ->%list_elem_of_singleton]; [by eapply Hpre|].
  destruct (decide (j = i)) as [->|Hne].
  - rewrite list_lookup_insert_eq in Hj by (by eapply lookup_lt_Some). simplify_eq.
    pose proof (future_sorted _ origs_sorted _ _ _ _ Hacc Hc) as Hsorted.
    rewrite length_app in He. simpl in He. rewrite <-drop_drop in He.
    rewrite (accounted_drop _ _ _ _ _ _ Hacc Hc Hi Ho) in He.
    rewrite bool_decide_eq_true_2 in He, Hsorted by done.
    unfold future in He, Hsorted. rewrite (headOf_headList _ _ _ _ Hc Hhead) in He, Hsorted.
    simpl in He, Hsorted. rewrite drop_0 in He.
    apply StronglySorted_inv in Hsorted as [_ Hall].
    by apply (proj1 (Forall_forall _ _) Hall).
  - eapply popped_least; eauto.
    by rewrite <-(accounted_drop _ _ _ _ _ _ Hacc Hc Hsh1 Ho).
Qed.

End Beginning.

Lemma run_precede ceiling srcs evs s :
  (0 ≤ ceiling)%Z → Forall (λ o, StronglySorted notAfter (rest o)) srcs →
  run ceiling evs (start srcs) = Some s → ∃ L, laid srcs L s ∧ precede srcs L s.
Proof.
  intros Hc Hsorted Hrun.
  cut (counted ceiling s ∧ ∃ L, laid srcs L s ∧ precede srcs L s); [tauto|].
  revert Hrun.
  apply (run_moves ceiling (λ s, counted ceiling s ∧ ∃ L, laid srcs L s ∧ precede srcs L s)).
  - intros a b [Hs (L & HL & Hp)] Hm. split; [by eapply moves_counted|].
    destruct (moves_laid _ _ _ _ _ Hs HL Hm) as (L' & HL' & Hcase).
    exists L'. split; [done|]. by eapply moves_precede.
  - split; [by apply start_counted|]. eexists. split; [apply start_laid|].
    intros p j sh o e Hp. by apply elem_of_nil in Hp.
Qed.

(** X10. At every point, in a run that completes as in one that fails, the
    entries printed so far are the beginning of the chronological order of
    all entries: none of them is later than an entry not yet printed,
    whether that entry is in memory or still in its source. *)
Theorem printed_entries_precede_the_rest ceiling srcs evs s :
  (0 ≤ ceiling)%Z → Forall (λ o, StronglySorted notAfter (rest o)) srcs →
  run ceiling evs (start srcs) = Some s →
  ∃ unprinted,
    prints (emitted s) ++ unprinted ≡ₚ concat (rest <$> srcs) ∧
    ∀ p e, p ∈ prints (emitted s) → e ∈ unprinted → notAfter p e.
Proof.
  intros Hc Hsorted Hrun.
  destruct (run_precede _ _ _ _ Hc Hsorted Hrun) as (L & (Hint & Hlen & Hpre & _) & Hord).
  exists (pending srcs L). split.
  - rewrite (interleaved_Permutation _ _ Hint). by apply pending_Permutation.
  - intros p e Hp He. destruct (elem_of_pending _ _ _ He) as (j & sh & o & ? & ? & ?).
    by eapply Hord.
Qed.

(** A run that fails with an entry left unprinted: the first source
    rejects after its second entry. *)
Definition scenarioG : list logSource :=
  [fresh (at_ <$> [1; 4]%Z) Rejects; fresh (at_ <$> [2; 3; 6]%Z) Exhausts].

Definition scheduleG : list event :=
  [Settle 1 0; Settle 1 1; Settle 1 2; Settle 1 3; Settle 0 0; Settle 0 1; Settle 0 2;
   Turn 1; Turn 0; Turn 1; Turn 0].

Lemma printed_entries_precede_the_rest_witness :
  ∃ s, run MAX_LOG_ENTRY_BUFFER_SIZE scheduleG (start scenarioG) = Some s ∧
       control s = Failed ∧ prints (emitted s) = at_ <$> [1; 2; 3; 4]%Z ∧
       ∃ unprinted,
         prints (emitted s) ++ unprinted ≡ₚ concat (rest <$> scenarioG) ∧
         ∀ p e, p ∈ prints (emitted s) → e ∈ unprinted → notAfter p e.
Proof.
  eexists. split; [vm_compute; reflexivity|]. split; [reflexivity|].
  split; [vm_compute; reflexivity|].
  eapply printed_entries_precede_the_rest
    with (ceiling := MAX_LOG_ENTRY_BUFFER_SIZE) (evs := scheduleG);
    [unfold MAX_LOG_ENTRY_BUFFER_SIZE; lia
    |repeat constructor; unfold notAfter; simpl; lia
    |vm_compute; reflexivity].
Defined.

(** * Further properties of the synchronous baseline *)

Module SyncExtra.
Import Sync SyncFacts.

Lemma begin_inv_nil srcs :
  inv srcs (length srcs) (replicate (length srcs) []) (begin srcs).
Proof.
  unfold begin.
  assert (∀ m n st, inv srcs n (replicate (length srcs) []) st → n + m = length srcs →
            inv srcs (length srcs) (replicate (length srcs) [])
                (foldl readFirst st (seq n m))) as H.
  { induction m as [|m IH]; intros n st Hinv Hn; simpl.
    - assert (n = length srcs) by lia. by subst n.
    - apply IH; [|lia]. apply readFirst_inv; [done|lia]. }
  apply H; [apply begin_inv_start|done].
Qed.

Lemma begin_output srcs : output (begin srcs) = [].
Proof.
  unfold begin. generalize (seq 0 (length srcs)). intros l0.
  assert (∀ l st, output st = [] → output (foldl readFirst st l) = []) as H; [|by apply H].
  induction l as [|i l IH]; intros st Hst; simpl; [done|]. apply IH.
  unfold readFirst. destruct (sources st !! i); [|done]. by destruct (pop _).
Qed.

Lemma inv_finished origs shipped st :
  inv origs (length origs) shipped st → heap st = [] → shipped = rest <$> origs.
Proof.
  intros Hinv Hh.
  apply list_eq_same_length with (length origs);
    [by rewrite length_fmap|by eapply inv_shipped|].
  intros i sh r Hlt Hsh Hr. apply list_lookup_fmap_Some in Hr as (o & -> & Ho).
  destruct (lookup_lt_is_Some_2 (sources st) i) as [s Hs];
    [by rewrite (inv_sources _ _ _ _ Hinv)|].
  destruct (inv_cell _ _ _ _ Hinv _ _ _ _ Hs Ho Hsh) as (He & Hnone & _).
  rewrite Hh in He, Hnone. unfold queued in He, Hnone. simpl in He, Hnone.
  rewrite Hnone in He by done. by rewrite app_nil_r in He.
Qed.

Lemma loop_interleaved origs shipped ks st st' :
  inv origs (length origs) shipped st →
  interleaved shipped (prints (reverse (output st))) →
  loop ks st = Some st' →
  ∃ o', output st' = DoneCall :: o' ∧ (DoneCall ∉ o') ∧
        interleaved (rest <$> origs) (prints (reverse o')).
Proof.
  revert shipped st.
  induction ks as [|k ks IH]; intros shipped st Hinv Hint Hloop.
  all: destruct (heap st) as [|it h] eqn:Hh; simpl in Hloop; rewrite Hh in Hloop;
    simplify_eq/=.
  1,2: exists (output st); split_and!; [done|by eapply inv_done|];
    by rewrite <-(inv_finished _ _ _ Hinv Hh).
  destruct (iterate k st) as [st1|] eqn:Hit; simpl in Hloop; [|done].
  destruct (iterate_inv _ _ _ _ _ Hinv Hit) as (it' & sh & _ & Hsh & Hout & Hinv1).
  eapply IH; [done| |done].
  rewrite Hout, reverse_cons, prints_app. simpl. by constructor.
Qed.

Lemma merge_interleaved srcs ks out :
  merge ks srcs = Some out →
  out = (PrintCall <$> prints out) ++ [DoneCall] ∧
  interleaved (rest <$> srcs) (prints out).
Proof.
  intros Hm. unfold merge in Hm.
  destruct (loop ks (begin srcs)) as [st|] eqn:Hloop; simplify_eq/=.
  assert (Hnil : interleaved (replicate (length srcs) [])
                   (prints (reverse (output (begin srcs))))).
  { rewrite begin_output. simpl. constructor. }
  destruct (loop_interleaved _ _ _ _ _ (begin_inv_nil srcs) Hnil Hloop)
    as (o' & Hout & Hno & Hint).
  rewrite Hout, reverse_cons, prints_app. simpl. rewrite app_nil_r. split; [|done].
  f_equal. apply prints_only. by rewrite elem_of_reverse.
Qed.


(** ** How often the baseline pops a source *)

Definition tally (origs : list logSource) (n : nat) (st : state) : Prop :=
  ∀ i s o, i < n → sources st !! i = Some s → origs !! i = Some o →
    polls s + length (queued i (heap st)) + length (rest s)
    = polls o + length (rest o) + 1.

Lemma readFirst_tally origs n shipped st :
  inv origs n shipped st → tally origs n st → n < length origs →
  tally origs (S n) (readFirst st n).
Proof.
  intros Hinv Ht Hn. unfold readFirst.
  destruct (sources st !! n) as [s|] eqn:Hs.
  2:{ apply lookup_ge_None in Hs. rewrite (inv_sources _ _ _ _ Hinv) in Hs. lia. }
  assert (Hfresh : ∀ it, it ∈ heap st → source it ≠ n).
  { intros it Hit. pose proof (inv_heap _ _ _ _ Hinv it Hit). lia. }
  destruct (pop s) as [r s'] eqn:Hpop.
  intros i si o Hi Hsi Ho. simpl in *.
  destruct (decide (i = n)) as [->|Hne].
  - rewrite list_lookup_insert_eq in Hsi by (by eapply lookup_lt_Some). simplify_eq.
    destruct (lookup_lt_is_Some_2 shipped n) as [sh Hsh]; [by rewrite (inv_shipped _ _ _ _ Hinv)|].
    destruct (inv_cell _ _ _ _ Hinv _ _ _ _ Hs Ho Hsh) as (_ & _ & Hsame).
    rewrite (Hsame (le_n _)) in *.
    destruct (pop_cases o) as [(e & Hp & Hr)|[Hp Hr]]; rewrite Hp in Hpop; simplify_eq/=.
    + rewrite queued_push, (queued_none n), decide_True by done. rewrite Hr. simpl. lia.
    + rewrite (queued_none n) by done. rewrite Hr. simpl. lia.
  - rewrite list_lookup_insert_ne in Hsi by done.
    assert (queued i (match r with
                      | Some e => heapPush (Item n e) (heap st)
                      | None => heap st
                      end) = queued i (heap st)) as ->.
    { destruct r; [|done]. rewrite queued_push, decide_False by done. by rewrite app_nil_r. }
    apply Ht; [lia|done..].
Qed.

Lemma begin_tally srcs : tally srcs (length srcs) (begin srcs).
Proof.
  unfold begin.
  assert (∀ m n st, inv srcs n (replicate (length srcs) []) st → tally srcs n st →
            n + m = length srcs →
            tally srcs (length srcs) (foldl readFirst st (seq n m))) as H.
  { induction m as [|m IH]; intros n st Hinv Ht Hn; simpl.
    - assert (n = length srcs) by lia. by subst n.
    - apply IH; [|by eapply readFirst_tally; [done|done|lia]|lia].
      apply readFirst_inv; [done|lia]. }
  apply H; [apply begin_inv_start| |done]. intros i s o Hi. lia.
Qed.

Lemma iterate_tally origs shipped k st st' :
  inv origs (length origs) shipped st → tally origs (length origs) st →
  iterate k st = Some st' → tally origs (length origs) st'.
Proof.
  intros Hinv Ht Hit.
  destruct (iterate_Some _ _ _ Hit) as (it & s & r & s' & Hp & Hs & Hpop & ->).
  destruct (heapPop_item _ _ _ _ Hp) as (Hk & _ & _).
  destruct (queued_delete _ _ _ (inv_nodup _ _ _ _ Hinv) Hk) as (Hq1 & Hq2 & Hq3).
  intros i si o Hi Hsi Ho. simpl in *.
  destruct (decide (i = source it)) as [->|Hne].
  - rewrite list_lookup_insert_eq in Hsi by (by eapply lookup_lt_Some). simplify_eq.
    pose proof (Ht _ _ _ Hi Hs Ho) as Hsum. rewrite Hq1 in Hsum. simpl in Hsum.
    destruct (pop_cases s) as [(e & Hp' & Hr)|[Hp' Hr]]; rewrite Hp' in Hpop; simplify_eq/=.
    + rewrite queued_push, Hq2, decide_True by done. rewrite Hr in Hsum. simpl in *. lia.
    + rewrite Hq2. rewrite Hr in Hsum. simpl in *. lia.
  - rewrite list_lookup_insert_ne in Hsi by done.
    assert (queued i (match r with
                      | Some e => heapPush (Item (source it) e) (delete k (heap st))
                      | None => delete k (heap st)
                      end) = queued i (heap st)) as ->.
    { destruct r; rewrite ?queued_push, ?decide_False, ?app_nil_r by done; by apply Hq3. }
    by apply Ht.
Qed.

Lemma tally_finished origs shipped st i s o :
  inv origs (length origs) shipped st → tally origs (length origs) st → heap st = [] →
  sources st !! i = Some s → origs !! i = Some o →
  rest s = [] ∧ polls s = polls o + length (rest o) + 1.
Proof.
  intros Hinv Ht Hh Hs Ho. pose proof (lookup_lt_Some _ _ _ Ho) as Hlt.
  destruct (lookup_lt_is_Some_2 shipped i) as [sh Hsh];
    [by rewrite (inv_shipped _ _ _ _ Hinv)|].
  destruct (inv_cell _ _ _ _ Hinv _ _ _ _ Hs Ho Hsh) as (_ & Hnone & _).
  pose proof (Ht _ _ _ Hlt Hs Ho) as Hsum.
  rewrite Hh in Hnone, Hsum. unfold queued in Hnone, Hsum. simpl in Hnone, Hsum.
  rewrite (Hnone Hlt eq_refl) in Hsum |- *. simpl in Hsum. split; [done|lia].
Qed.

Lemma loop_tally origs shipped ks st st' :
  inv origs (length origs) shipped st → tally origs (length origs) st →
  loop ks st = Some st' →
  ∀ i s o, sources st' !! i = Some s → origs !! i = Some o →
    rest s = [] ∧ polls s = polls o + length (rest o) + 1.
Proof.
  revert shipped st.
  induction ks as [|k ks IH]; intros shipped st Hinv Ht Hloop.
  all: destruct (heap st) as [|it h] eqn:Hh; simpl in Hloop; rewrite Hh in Hloop;
    simplify_eq/=.
  1,2: intros i s o Hs Ho; by eapply tally_finished.
  destruct (iterate k st) as [st1|] eqn:Hit; simpl in Hloop; [|done].
  destruct (iterate_inv _ _ _ _ _ Hinv Hit) as (? & ? & _ & _ & _ & Hinv1).
  eapply (IH _ st1); [exact Hinv1|exact (iterate_tally _ _ _ _ _ Hinv Ht Hit)|done].
Qed.

(** X12. When the baseline returns it has popped every source exactly once more
    than the source has entries: down to the call that returns [false] and
    not beyond. *)
Theorem baseline_pops_each_source_to_its_end srcs ks st i s o :
  loop ks (begin srcs) = Some st →
  sources st !! i = Some s → srcs !! i = Some o →
  rest s = [] ∧ polls s = polls o + length (rest o) + 1.
Proof.
  intros Hloop. by eapply (loop_tally _ _ _ _ _ (begin_inv_nil srcs) (begin_tally srcs)).
Qed.

Lemma baseline_pops_each_source_to_its_end_witness :
  ∃ st s o,
    loop (replicate 9 0) (begin scenarioA) = Some st ∧
    sources st !! 1 = Some s ∧ scenarioA !! 1 = Some o ∧ polls s = 4 ∧
    rest s = [] ∧ polls s = polls o + length (rest o) + 1.
Proof.
  eexists _, _, _. split; [vm_compute; reflexivity|]. split; [reflexivity|].
  split; [reflexivity|]. split; [reflexivity|].
  eapply baseline_pops_each_source_to_its_end
    with (srcs := scenarioA) (ks := replicate 9 0) (i := 1);
    [vm_compute; reflexivity|reflexivity|reflexivity].
Defined.

End SyncExtra.

(** * Edge cases: no entries, one source *)

Lemma interleaved_single {A} (L : list (list A)) out l :
  interleaved L out → L = [l] → out = l.
Proof.
  intros H. revert l. induction H as [n|L out i sh e _ IH Hi]; intros l HL.
  - destruct n as [|[|n]]; simplify_eq/=; done.
  - destruct L as [|l0 [|? ?]]; destruct i; simplify_eq/=.
    + by rewrite (IH _ eq_refl).
    + destruct i; done.
Qed.

Lemma finished_output ceiling srcs evs s :
  (0 ≤ ceiling)%Z → run ceiling evs (start srcs) = Some s → control s = Finished →
  emitted s = (PrintCall <$> prints (emitted s)) ++ [DoneCall].
Proof.
  intros Hc Hrun Hfin.
  destruct (run_finished _ _ _ _ Hc Hrun Hfin) as (_ & _ & (o' & Ho' & Hno) & _).
  unfold emitted. rewrite Ho', reverse_cons, prints_app. simpl. rewrite app_nil_r.
  f_equal. apply prints_only. by rewrite elem_of_reverse.
Qed.

Lemma laid_finished ceiling srcs evs s L :
  (0 ≤ ceiling)%Z → run ceiling evs (start srcs) = Some s → control s = Finished →
  laid srcs L s → L = rest <$> srcs.
Proof.
  intros Hc Hrun Hfin (_ & Hlen & _ & Hacc).
  destruct (run_doneOnce _ _ _ _ Hc Hrun) as [[Hs _] Hd].
  unfold doneOnce in Hd. rewrite decide_True in Hd by done. destruct Hd as [Hh _].
  assert (Ha : accounted srcs L s) by (apply Hacc; congruence).
  apply list_eq_same_length with (length srcs); [by rewrite length_fmap|done|].
  intros j sh r Hlt Hsh Hr. apply list_lookup_fmap_Some in Hr as (o & -> & Ho).
  destruct (lookup_lt_is_Some_2 (cells s) j) as [c Hj]; [by rewrite (acc_sources _ _ _ Ha)|].
  destruct (finished_out _ _ _ _ _ _ Hs Ha Hfin Hh Hj) as (o' & sh' & ? & ? & _ & _ & _ & ? & _).
  by simplify_eq.
Qed.

(** X13. With one source, whatever its order, a completed merge has printed the
    entries of the source as they are and then called [done]; so has the
    baseline. *)
Theorem single_source_printed_unchanged ceiling o evs s :
  (0 ≤ ceiling)%Z → run ceiling evs (start [o]) = Some s → control s = Finished →
  emitted s = (PrintCall <$> rest o) ++ [DoneCall] ∧
  ∀ ks out, Sync.merge ks [o] = Some out → out = (PrintCall <$> rest o) ++ [DoneCall].
Proof.
  intros Hc Hrun Hfin. split.
  - destruct (run_laid _ _ _ _ Hc Hrun) as [L HL].
    pose proof (laid_finished _ _ _ _ _ Hc Hrun Hfin HL) as ->.
    destruct HL as (Hint & _).
    rewrite (finished_output _ _ _ _ Hc Hrun Hfin).
    by rewrite (interleaved_single _ _ _ Hint eq_refl).
  - intros ks out Hm.
    destruct (SyncExtra.merge_interleaved _ _ _ Hm) as [Hout Hint].
    rewrite Hout. by rewrite (interleaved_single _ _ _ Hint eq_refl).
Qed.

(** A single source, out of order. *)
Definition scenarioS : logSource := fresh (at_ <$> [5; 1; 3]%Z) Exhausts.

Definition scheduleS : list event :=
  [Settle 0 0; Turn 0; Settle 0 1; Turn 0; Turn 0; Settle 0 2; Turn 0; Turn 0;
   Settle 0 3; Turn 0; Turn 0].

Lemma single_source_printed_unchanged_witness :
  ∃ s, run 1 scheduleS (start [scenarioS]) = Some s ∧
       prints (emitted s) = at_ <$> [5; 1; 3]%Z ∧
       emitted s = (PrintCall <$> rest scenarioS) ++ [DoneCall] ∧
       ∀ ks out, Sync.merge ks [scenarioS] = Some out →
                 out = (PrintCall <$> rest scenarioS) ++ [DoneCall].
Proof.
  eexists. split; [vm_compute; reflexivity|]. split; [vm_compute; reflexivity|].
  eapply single_source_printed_unchanged with (ceiling := 1%Z) (evs := scheduleS);
    [lia|vm_compute; reflexivity|reflexivity].
Defined.




